(** * Robust geometric predicates ([predicates.h]): a shallow embedding

    The header implements Shewchuk-style adaptive predicates over a
    template floating-point type [T].  The type [T] is modelled by the
    IEEE-754 specification of the standard library ([spec_float], with
    the precision [prec] and the exponent bound [emax] of the type),
    every arithmetic operator of the source by the matching rounded
    operation.  An [Expansion<T, N>] is modelled by the list of its
    first [m_size] components, in storage order. *)

From Stdlib Require Import ZArith List Bool Lia Znumtheory Permutation.
From Stdlib Require Import Floats.SpecFloat.
Import ListNotations.
Local Open Scope Z_scope.

(** ** The floating-point type [T] and its operators *)

Abbreviation T := spec_float.

Section Predicates.

(** [std::numeric_limits<T>::digits] and the exponent of the infinities. *)
Variables prec emax : Z.
(** [use_fma<T>::value], fixed when the header is compiled. *)
Variable use_fma : bool.
(** The sign bit of a NaN, which the IEEE specification leaves open. *)
Variable nan_sign : bool.

Definition fadd (a b : T) : T := SFadd prec emax a b.
Definition fsub (a b : T) : T := SFsub prec emax a b.
Definition fmul (a b : T) : T := SFmul prec emax a b.
Definition fneg (a : T) : T := SFopp a.
Definition fabs (a : T) : T := SFabs a.

(** [T(n)] for an integer literal, and [std::exp2] at an integer. *)
Definition of_int (n : Z) : T := binary_normalize prec emax n 0 false.
Definition exp2 (k : Z) : T := binary_normalize prec emax 1 k false.
Definition zero : T := S754_zero false.

(** Comparisons: every one of them is false on a NaN, but [!=]. *)
Definition feq (a b : T) : bool := SFeqb a b.
Definition fne (a b : T) : bool := negb (SFeqb a b).
Definition flt (a b : T) : bool := SFltb a b.
Definition fge (a b : T) : bool := SFleb b a.

Definition signbit (a : T) : bool :=
  match a with
  | S754_zero s | S754_infinity s | S754_finite s _ _ => s
  | S754_nan => nan_sign
  end.

(** [std::fma(x, y, z)]: the product is not rounded before the sum. *)
Definition fma (x y z : T) : T :=
  match x, y with
  | S754_nan, _ | _, S754_nan => S754_nan
  | S754_infinity _, S754_zero _ | S754_zero _, S754_infinity _ => S754_nan
  | S754_infinity sx, S754_infinity sy
  | S754_infinity sx, S754_finite sy _ _
  | S754_finite sx _ _, S754_infinity sy =>
      match z with
      | S754_nan => S754_nan
      | S754_infinity sz =>
          if Bool.eqb (xorb sx sy) sz then z else S754_nan
      | _ => S754_infinity (xorb sx sy)
      end
  | S754_zero sx, S754_zero sy
  | S754_zero sx, S754_finite sy _ _
  | S754_finite sx _ _, S754_zero sy =>
      fadd (S754_zero (xorb sx sy)) z
  | S754_finite sx mx ex, S754_finite sy my ey =>
      match z with
      | S754_nan => S754_nan
      | S754_infinity _ => z
      | S754_zero _ =>
          binary_round_aux prec emax (xorb sx sy) (Zpos (mx * my)) (ex + ey)
                           loc_Exact
      | S754_finite sz mz ez =>
          let ep := ex + ey in
          let e := Z.min ep ez in
          binary_normalize prec emax
            (cond_Zopp (xorb sx sy) (Zpos (fst (shl_align (mx * my) ep e)))
             + cond_Zopp sz (Zpos (fst (shl_align mz ez e))))
            e false
      end
  end.

Declare Scope fp_scope.
Delimit Scope fp_scope with fp.
Local Infix "+." := fadd (at level 50, left associativity) : fp_scope.
Local Infix "-." := fsub (at level 50, left associativity) : fp_scope.
Local Infix "*." := fmul (at level 40, left associativity) : fp_scope.
Local Notation "-. x" := (fneg x) (at level 35, right associativity) : fp_scope.
Local Open Scope fp_scope.

(** ** [ExpansionBase<T>]: error-free transformations *)

(** [ExpansionBase<T>::Splitter]. *)
Definition Splitter : T :=
  exp2 ((prec + prec mod 2) / 2) +. of_int 1.

(** An expansion: the components [0 .. m_size-1] of the backing array. *)
Definition Expansion : Type := list T.

Definition MakeExpansion (value tail : T) : Expansion :=
  (if fne zero tail then [tail] else []) ++
  (if fne zero value then [value] else []).

Definition PlusTail (a b x : T) : T :=
  let bVirtual := x -. a in
  let aVirtual := x -. bVirtual in
  let bRoundoff := b -. bVirtual in
  let aRoundoff := a -. aVirtual in
  aRoundoff +. bRoundoff.

Definition FastPlusTail (a b x : T) : T :=
  let bVirtual := x -. a in
  b -. bVirtual.

Definition MinusTail (a b x : T) : T :=
  let bVirtual := a -. x in
  let aVirtual := x +. bVirtual in
  let bRoundoff := bVirtual -. b in
  let aRoundoff := a -. aVirtual in
  aRoundoff +. bRoundoff.

Definition Split (a : T) : T * T :=
  let c := Splitter *. a in
  let aBig := c -. a in
  let aHi := c -. aBig in
  (aHi, a -. aHi).

Definition DekkersProduct (aSplit bSplit : T * T) (p : T) : T :=
  let y := p -. (fst aSplit *. fst bSplit) in
  let y := y -. (snd aSplit *. fst bSplit) in
  let y := y -. (fst aSplit *. snd bSplit) in
  (snd aSplit *. snd bSplit) -. y.

Definition MultTail (a b p : T) : T :=
  if use_fma then fma a b (-. p)
  else DekkersProduct (Split a) (Split b) p.

Definition MultTailPreSplit (a b : T) (bSplit : T * T) (p : T) : T :=
  if use_fma then fma a b (-. p)
  else DekkersProduct (Split a) bSplit p.

Definition Plus (a b : T) : Expansion :=
  let x := a +. b in
  MakeExpansion x (PlusTail a b x).

Definition Minus (a b : T) : Expansion := Plus a (-. b).

Definition Mult (a b : T) : Expansion :=
  let x := a *. b in
  MakeExpansion x (MultTail a b x).

(** [push_back] of a component that is kept only when it is not zero. *)
Definition keep (v : T) : list T := if fne zero v then [v] else [].

Definition TwoTwoDiff (ax by_ ay bx : T) : Expansion :=
  let axby1 := ax *. by_ in
  let axby0 := MultTail ax by_ axby1 in
  let bxay1 := bx *. ay in
  let bxay0 := MultTail bx ay bxay1 in
  let _i0 := axby0 -. bxay0 in
  let x0 := MinusTail axby0 bxay0 _i0 in
  let _j := axby1 +. _i0 in
  let _0 := PlusTail axby1 _i0 _j in
  let _i1 := _0 -. bxay1 in
  let x1 := MinusTail _0 bxay1 _i1 in
  let x3 := _j +. _i1 in
  let x2 := PlusTail _j _i1 x3 in
  keep x0 ++ keep x1 ++ keep x2 ++ keep x3.

Definition TwoTwoDiffZeroCheck (ax by_ ay bx : T) : Expansion :=
  if feq zero ax && feq zero ay then []
  else if feq zero ax then Mult ay bx
  else if feq zero ay then Mult ax by_
  else TwoTwoDiff ax by_ ay bx.

(** ** [Expansion<T, N>]: the expansion algebra *)

(** [std::merge] with the comparator [abs(a) < abs(b)]. *)
Fixpoint merge (e f : list T) {struct e} : list T :=
  match e with
  | [] => f
  | a :: e' =>
      (fix merge_aux (f : list T) : list T :=
         match f with
         | [] => e
         | b :: f' =>
             if flt (fabs b) (fabs a) then b :: merge_aux f'
             else a :: merge e' f
         end) f
  end.

(** The loop of [ExpansionSum], from index [g] on; [Q] is the running sum
    and the result lists the components stored from this point. *)
Fixpoint sum_loop (Q : T) (hs : list T) : list T :=
  match hs with
  | [] => keep Q
  | hg :: hs' =>
      let Qnew := Q +. hg in
      let hh := PlusTail Q hg Qnew in
      keep hh ++ sum_loop Qnew hs'
  end.

Definition ExpansionSum (e f : Expansion) : Expansion :=
  let h := merge e f in
  match f with
  | [] => e
  | _ :: _ =>
      match e with
      | [] => f
      | _ :: _ =>
          match h with
          | h0 :: h1 :: hs =>
              let Q := h0 in
              let Qnew := h1 +. Q in
              let hh := FastPlusTail h1 Q Qnew in
              keep hh ++ sum_loop Qnew hs
          | _ => h
          end
      end
  end.

(** The loop of [ScaleExpansion], from index [eIndex] on. *)
Fixpoint scale_loop (b : T) (bSplit : T * T) (Q : T) (es : list T) : list T :=
  match es with
  | [] => keep Q
  | ei :: es' =>
      let Ti := ei *. b in
      let ti := MultTailPreSplit ei b bSplit Ti in
      let Qi := Q +. ti in
      let hh := PlusTail Q ti Qi in
      let Q' := Ti +. Qi in
      let hh' := FastPlusTail Ti Qi Q' in
      keep hh ++ keep hh' ++ scale_loop b bSplit Q' es'
  end.

Definition ScaleExpansion (e : Expansion) (b : T) : Expansion :=
  match e with
  | [] => []
  | e0 :: es =>
      if feq zero b then []
      else
        let Q := e0 *. b in
        let bSplit := Split b in
        let hh := MultTailPreSplit e0 b bSplit Q in
        keep hh ++ scale_loop b bSplit Q es
  end.

Definition mostSignificant (e : Expansion) : T := last e zero.
Definition estimate (e : Expansion) : T := fold_left fadd e zero.
Definition negate (e : Expansion) : Expansion := map fneg e.
Definition eadd (e f : Expansion) : Expansion := ExpansionSum e f.
Definition esub (e f : Expansion) : Expansion := eadd e (negate f).
Definition escale (e : Expansion) (b : T) : Expansion := ScaleExpansion e b.

Local Infix "+!" := eadd (at level 50, left associativity) : fp_scope.
Local Infix "-!" := esub (at level 50, left associativity) : fp_scope.
Local Infix "*!" := escale (at level 40, left associativity) : fp_scope.

Definition ThreeProd (a b c : T) : Expansion :=
  if feq zero a || feq zero b || feq zero c then [] else Mult a b *! c.

(** ** Points: [const T*] arguments, read at the indices 0, 1 (and 2) *)

Definition Point2 : Type := (T * T)%type.
Definition Point3 : Type := (T * T * T)%type.
Definition X2 (p : Point2) : T := fst p.
Definition Y2 (p : Point2) : T := snd p.
Definition X3 (p : Point3) : T := fst (fst p).
Definition Y3 (p : Point3) : T := snd (fst p).
Definition Z3 (p : Point3) : T := snd p.

(** ** [namespace predicates::exact] *)

Definition exact_orient2d_expansion (pa pb pc : Point2) : Expansion :=
  let aterms := TwoTwoDiff (X2 pa) (Y2 pb) (X2 pa) (Y2 pc) in
  let bterms := TwoTwoDiff (X2 pb) (Y2 pc) (X2 pb) (Y2 pa) in
  let cterms := TwoTwoDiff (X2 pc) (Y2 pa) (X2 pc) (Y2 pb) in
  aterms +! bterms +! cterms.

Definition exact_orient2d (pa pb pc : Point2) : T :=
  mostSignificant (exact_orient2d_expansion pa pb pc).

Definition exact_incircle_expansion (pa pb pc pd : Point2) : Expansion :=
  let ab := TwoTwoDiff (X2 pa) (Y2 pb) (X2 pb) (Y2 pa) in
  let bc := TwoTwoDiff (X2 pb) (Y2 pc) (X2 pc) (Y2 pb) in
  let cd := TwoTwoDiff (X2 pc) (Y2 pd) (X2 pd) (Y2 pc) in
  let da := TwoTwoDiff (X2 pd) (Y2 pa) (X2 pa) (Y2 pd) in
  let ac := TwoTwoDiff (X2 pa) (Y2 pc) (X2 pc) (Y2 pa) in
  let bd := TwoTwoDiff (X2 pb) (Y2 pd) (X2 pd) (Y2 pb) in
  let abc := ab +! bc -! ac in
  let bcd := bc +! cd -! bd in
  let cda := cd +! da +! ac in
  let dab := da +! ab +! bd in
  let adet := bcd *! X2 pa *! X2 pa +! bcd *! Y2 pa *! Y2 pa in
  let bdet := cda *! X2 pb *! (-. X2 pb) +! cda *! Y2 pb *! (-. Y2 pb) in
  let cdet := dab *! X2 pc *! X2 pc +! dab *! Y2 pc *! Y2 pc in
  let ddet := abc *! X2 pd *! (-. X2 pd) +! abc *! Y2 pd *! (-. Y2 pd) in
  (adet +! bdet) +! (cdet +! ddet).

Definition exact_incircle (pa pb pc pd : Point2) : T :=
  mostSignificant (exact_incircle_expansion pa pb pc pd).

Definition exact_orient3d_expansion (pa pb pc pd : Point3) : Expansion :=
  let ab := TwoTwoDiff (X3 pa) (Y3 pb) (X3 pb) (Y3 pa) in
  let bc := TwoTwoDiff (X3 pb) (Y3 pc) (X3 pc) (Y3 pb) in
  let cd := TwoTwoDiff (X3 pc) (Y3 pd) (X3 pd) (Y3 pc) in
  let da := TwoTwoDiff (X3 pd) (Y3 pa) (X3 pa) (Y3 pd) in
  let ac := TwoTwoDiff (X3 pa) (Y3 pc) (X3 pc) (Y3 pa) in
  let bd := TwoTwoDiff (X3 pb) (Y3 pd) (X3 pd) (Y3 pb) in
  let abc := ab +! bc -! ac in
  let bcd := bc +! cd -! bd in
  let cda := cd +! da +! ac in
  let dab := da +! ab +! bd in
  let adet := bcd *! Z3 pa in
  let bdet := cda *! (-. Z3 pb) in
  let cdet := dab *! Z3 pc in
  let ddet := abc *! (-. Z3 pd) in
  (adet +! bdet) +! (cdet +! ddet).

Definition exact_orient3d (pa pb pc pd : Point3) : T :=
  mostSignificant (exact_orient3d_expansion pa pb pc pd).

Definition exact_insphere_expansion (pa pb pc pd pe : Point3) : Expansion :=
  let ab := TwoTwoDiff (X3 pa) (Y3 pb) (X3 pb) (Y3 pa) in
  let bc := TwoTwoDiff (X3 pb) (Y3 pc) (X3 pc) (Y3 pb) in
  let cd := TwoTwoDiff (X3 pc) (Y3 pd) (X3 pd) (Y3 pc) in
  let de := TwoTwoDiff (X3 pd) (Y3 pe) (X3 pe) (Y3 pd) in
  let ea := TwoTwoDiff (X3 pe) (Y3 pa) (X3 pa) (Y3 pe) in
  let ac := TwoTwoDiff (X3 pa) (Y3 pc) (X3 pc) (Y3 pa) in
  let bd := TwoTwoDiff (X3 pb) (Y3 pd) (X3 pd) (Y3 pb) in
  let ce := TwoTwoDiff (X3 pc) (Y3 pe) (X3 pe) (Y3 pc) in
  let da := TwoTwoDiff (X3 pd) (Y3 pa) (X3 pa) (Y3 pd) in
  let eb := TwoTwoDiff (X3 pe) (Y3 pb) (X3 pb) (Y3 pe) in
  let abc := bc *! Z3 pa +! ac *! (-. Z3 pb) +! ab *! Z3 pc in
  let bcd := cd *! Z3 pb +! bd *! (-. Z3 pc) +! bc *! Z3 pd in
  let cde := de *! Z3 pc +! ce *! (-. Z3 pd) +! cd *! Z3 pe in
  let dea := ea *! Z3 pd +! da *! (-. Z3 pe) +! de *! Z3 pa in
  let eab := ab *! Z3 pe +! eb *! (-. Z3 pa) +! ea *! Z3 pb in
  let abd := bd *! Z3 pa +! da *! Z3 pb +! ab *! Z3 pd in
  let bce := ce *! Z3 pb +! eb *! Z3 pc +! bc *! Z3 pe in
  let cda := da *! Z3 pc +! ac *! Z3 pd +! cd *! Z3 pa in
  let deb := eb *! Z3 pd +! bd *! Z3 pe +! de *! Z3 pb in
  let eac := ac *! Z3 pe +! ce *! Z3 pa +! ea *! Z3 pc in
  let bcde := (cde +! bce) -! (deb +! bcd) in
  let cdea := (dea +! cda) -! (eac +! cde) in
  let deab := (eab +! deb) -! (abd +! dea) in
  let eabc := (abc +! eac) -! (bce +! eab) in
  let abcd := (bcd +! abd) -! (cda +! abc) in
  let adet := bcde *! X3 pa *! X3 pa +! bcde *! Y3 pa *! Y3 pa
              +! bcde *! Z3 pa *! Z3 pa in
  let bdet := cdea *! X3 pb *! X3 pb +! cdea *! Y3 pb *! Y3 pb
              +! cdea *! Z3 pb *! Z3 pb in
  let cdet := deab *! X3 pc *! X3 pc +! deab *! Y3 pc *! Y3 pc
              +! deab *! Z3 pc *! Z3 pc in
  let ddet := eabc *! X3 pd *! X3 pd +! eabc *! Y3 pd *! Y3 pd
              +! eabc *! Z3 pd *! Z3 pd in
  let edet := abcd *! X3 pe *! X3 pe +! abcd *! Y3 pe *! Y3 pe
              +! abcd *! Z3 pe *! Z3 pe in
  (adet +! bdet) +! ((cdet +! ddet) +! edet).

Definition exact_insphere (pa pb pc pd pe : Point3) : T :=
  mostSignificant (exact_insphere_expansion pa pb pc pd pe).

(** ** [predicates::Constants<T>] *)

Definition epsilon : T := exp2 (- prec).
Definition errcoeff (a b : Z) : T := (of_int a +. of_int b *. epsilon) *. epsilon.
Definition resulterrbound : T := errcoeff 3 8.
Definition ccwerrboundA : T := errcoeff 3 16.
Definition ccwerrboundB : T := errcoeff 2 12.
Definition ccwerrboundC : T := errcoeff 9 64 *. epsilon.
Definition o3derrboundA : T := errcoeff 7 56.
Definition o3derrboundB : T := errcoeff 3 28.
Definition o3derrboundC : T := errcoeff 26 288 *. epsilon.
Definition iccerrboundA : T := errcoeff 10 96.
Definition iccerrboundB : T := errcoeff 4 48.
Definition iccerrboundC : T := errcoeff 44 576 *. epsilon.
Definition isperrboundA : T := errcoeff 16 224.
Definition isperrboundB : T := errcoeff 5 72.
Definition isperrboundC : T := errcoeff 71 1408 *. epsilon.

(** ** [namespace predicates::adaptive]

    Every evaluator is transcribed with a ghost tag that records the
    [return] statement taken; the value of the source function is the
    second component. *)

Inductive exit_point : Type :=
| FastExit    (* sign or zero test of the two leading products *)
| BoundA      (* first error bound *)
| BoundB      (* second error bound, on the estimate *)
| TailsZero   (* every subtraction tail is zero *)
| BoundC      (* third error bound, after the tail correction *)
| Final.      (* last [return] of the function *)

Definition adaptive_orient2d_run (pa pb pc : Point2) : exit_point * T :=
  let acx := X2 pa -. X2 pc in
  let bcx := X2 pb -. X2 pc in
  let acy := Y2 pa -. Y2 pc in
  let bcy := Y2 pb -. Y2 pc in
  let detleft := acx *. bcy in
  let detright := acy *. bcx in
  let det := detleft -. detright in
  if negb (Bool.eqb (signbit detleft) (signbit detright)) then (FastExit, det)
  else if feq zero detleft || feq zero detright then (FastExit, det)
  else
    let detsum := fabs (detleft +. detright) in
    let errbound := ccwerrboundA *. detsum in
    if fge (fabs det) (fabs errbound) then (BoundA, det)
    else
      let B := TwoTwoDiff acx bcy acy bcx in
      let det := estimate B in
      let errbound := ccwerrboundB *. detsum in
      if fge (fabs det) (fabs errbound) then (BoundB, det)
      else
        let acxtail := MinusTail (X2 pa) (X2 pc) acx in
        let bcxtail := MinusTail (X2 pb) (X2 pc) bcx in
        let acytail := MinusTail (Y2 pa) (Y2 pc) acy in
        let bcytail := MinusTail (Y2 pb) (Y2 pc) bcy in
        if feq zero acxtail && feq zero bcxtail
           && feq zero acytail && feq zero bcytail then (TailsZero, det)
        else
          let errbound := ccwerrboundC *. detsum +. resulterrbound *. fabs det in
          let det := det +. ((acx *. bcytail +. bcy *. acxtail)
                             -. (acy *. bcxtail +. bcx *. acytail)) in
          if fge (fabs det) (fabs errbound) then (BoundC, det)
          else
            let D := ((B +! TwoTwoDiff acxtail bcy acytail bcx)
                      +! TwoTwoDiff acx bcytail acy bcxtail)
                     +! TwoTwoDiff acxtail bcytail acytail bcxtail in
            (Final, mostSignificant D).

Definition adaptive_orient2d (pa pb pc : Point2) : T :=
  snd (adaptive_orient2d_run pa pb pc).

Definition adaptive_incircle_run (pa pb pc pd : Point2) : exit_point * T :=
  let adx := X2 pa -. X2 pd in
  let bdx := X2 pb -. X2 pd in
  let cdx := X2 pc -. X2 pd in
  let ady := Y2 pa -. Y2 pd in
  let bdy := Y2 pb -. Y2 pd in
  let cdy := Y2 pc -. Y2 pd in
  let bdxcdy := bdx *. cdy in
  let cdxbdy := cdx *. bdy in
  let cdxady := cdx *. ady in
  let adxcdy := adx *. cdy in
  let adxbdy := adx *. bdy in
  let bdxady := bdx *. ady in
  let alift := adx *. adx +. ady *. ady in
  let blift := bdx *. bdx +. bdy *. bdy in
  let clift := cdx *. cdx +. cdy *. cdy in
  let det := alift *. (bdxcdy -. cdxbdy) +. blift *. (cdxady -. adxcdy)
             +. clift *. (adxbdy -. bdxady) in
  let permanent := (fabs bdxcdy +. fabs cdxbdy) *. alift
                   +. (fabs cdxady +. fabs adxcdy) *. blift
                   +. (fabs adxbdy +. fabs bdxady) *. clift in
  let errbound := iccerrboundA *. permanent in
  if fge (fabs det) (fabs errbound) then (BoundA, det)
  else
    let bc := TwoTwoDiff bdx cdy cdx bdy in
    let ca := TwoTwoDiff cdx ady adx cdy in
    let ab := TwoTwoDiff adx bdy bdx ady in
    let adet := bc *! adx *! adx +! bc *! ady *! ady in
    let bdet := ca *! bdx *! bdx +! ca *! bdy *! bdy in
    let cdet := ab *! cdx *! cdx +! ab *! cdy *! cdy in
    let fin1 := adet +! bdet +! cdet in
    let det := estimate fin1 in
    let errbound := iccerrboundB *. permanent in
    if fge (fabs det) (fabs errbound) then (BoundB, det)
    else
      let adxtail := MinusTail (X2 pa) (X2 pd) adx in
      let adytail := MinusTail (Y2 pa) (Y2 pd) ady in
      let bdxtail := MinusTail (X2 pb) (X2 pd) bdx in
      let bdytail := MinusTail (Y2 pb) (Y2 pd) bdy in
      let cdxtail := MinusTail (X2 pc) (X2 pd) cdx in
      let cdytail := MinusTail (Y2 pc) (Y2 pd) cdy in
      if feq zero adxtail && feq zero bdxtail && feq zero cdxtail
         && feq zero adytail && feq zero bdytail && feq zero cdytail then (TailsZero, det)
      else
        let errbound := iccerrboundC *. permanent +. resulterrbound *. fabs det in
        let det := det +.
          (((adx *. adx +. ady *. ady)
              *. ((bdx *. cdytail +. cdy *. bdxtail)
                  -. (bdy *. cdxtail +. cdx *. bdytail))
            +. (bdx *. cdy -. bdy *. cdx)
               *. (adx *. adxtail +. ady *. adytail) *. of_int 2)
           +. ((bdx *. bdx +. bdy *. bdy)
                 *. ((cdx *. adytail +. ady *. cdxtail)
                     -. (cdy *. adxtail +. adx *. cdytail))
               +. (cdx *. ady -. cdy *. adx)
                  *. (bdx *. bdxtail +. bdy *. bdytail) *. of_int 2)
           +. ((cdx *. cdx +. cdy *. cdy)
                 *. ((adx *. bdytail +. bdy *. adxtail)
                     -. (ady *. bdxtail +. bdx *. adytail))
               +. (adx *. bdy -. ady *. bdx)
                  *. (cdx *. cdxtail +. cdy *. cdytail) *. of_int 2)) in
        if fge (fabs det) (fabs errbound) then (BoundC, det)
        else (Final, exact_incircle pa pb pc pd).

Definition adaptive_incircle (pa pb pc pd : Point2) : T :=
  snd (adaptive_incircle_run pa pb pc pd).

Definition adaptive_orient3d_run (pa pb pc pd : Point3) : exit_point * T :=
  let adx := X3 pa -. X3 pd in
  let bdx := X3 pb -. X3 pd in
  let cdx := X3 pc -. X3 pd in
  let ady := Y3 pa -. Y3 pd in
  let bdy := Y3 pb -. Y3 pd in
  let cdy := Y3 pc -. Y3 pd in
  let adz := Z3 pa -. Z3 pd in
  let bdz := Z3 pb -. Z3 pd in
  let cdz := Z3 pc -. Z3 pd in
  let bdxcdy := bdx *. cdy in
  let cdxbdy := cdx *. bdy in
  let cdxady := cdx *. ady in
  let adxcdy := adx *. cdy in
  let adxbdy := adx *. bdy in
  let bdxady := bdx *. ady in
  let det := adz *. (bdxcdy -. cdxbdy) +. bdz *. (cdxady -. adxcdy)
             +. cdz *. (adxbdy -. bdxady) in
  let permanent := (fabs bdxcdy +. fabs cdxbdy) *. fabs adz
                   +. (fabs cdxady +. fabs adxcdy) *. fabs bdz
                   +. (fabs adxbdy +. fabs bdxady) *. fabs cdz in
  let errbound := o3derrboundA *. permanent in
  if fge (fabs det) (fabs errbound) then (BoundA, det)
  else
    let bc := TwoTwoDiff bdx cdy cdx bdy in
    let ca := TwoTwoDiff cdx ady adx cdy in
    let ab := TwoTwoDiff adx bdy bdx ady in
    let fin1 := (bc *! adz +! ca *! bdz) +! ab *! cdz in
    let det := estimate fin1 in
    let errbound := o3derrboundB *. permanent in
    if fge (fabs det) (fabs errbound) then (BoundB, det)
    else
      let adxtail := MinusTail (X3 pa) (X3 pd) adx in
      let bdxtail := MinusTail (X3 pb) (X3 pd) bdx in
      let cdxtail := MinusTail (X3 pc) (X3 pd) cdx in
      let adytail := MinusTail (Y3 pa) (Y3 pd) ady in
      let bdytail := MinusTail (Y3 pb) (Y3 pd) bdy in
      let cdytail := MinusTail (Y3 pc) (Y3 pd) cdy in
      let adztail := MinusTail (Z3 pa) (Z3 pd) adz in
      let bdztail := MinusTail (Z3 pb) (Z3 pd) bdz in
      let cdztail := MinusTail (Z3 pc) (Z3 pd) cdz in
      if feq zero adxtail && feq zero adytail && feq zero adztail
         && feq zero bdxtail && feq zero bdytail && feq zero bdztail
         && feq zero cdxtail && feq zero cdytail && feq zero cdztail then (TailsZero, det)
      else
        let errbound := o3derrboundC *. permanent +. resulterrbound *. fabs det in
        let det := det +.
          ((adz *. ((bdx *. cdytail +. cdy *. bdxtail)
                    -. (bdy *. cdxtail +. cdx *. bdytail))
            +. adztail *. (bdx *. cdy -. bdy *. cdx))
           +. (bdz *. ((cdx *. adytail +. ady *. cdxtail)
                       -. (cdy *. adxtail +. adx *. cdytail))
               +. bdztail *. (cdx *. ady -. cdy *. adx))
           +. (cdz *. ((adx *. bdytail +. bdy *. adxtail)
                       -. (ady *. bdxtail +. bdx *. adytail))
               +. cdztail *. (adx *. bdy -. ady *. bdx))) in
        if fge (fabs det) (fabs errbound) then (BoundC, det)
        else
          let bct := TwoTwoDiffZeroCheck bdxtail cdy bdytail cdx
                     +! TwoTwoDiffZeroCheck cdytail bdx cdxtail bdy in
          let cat := TwoTwoDiffZeroCheck cdxtail ady cdytail adx
                     +! TwoTwoDiffZeroCheck adytail cdx adxtail cdy in
          let abt := TwoTwoDiffZeroCheck adxtail bdy adytail bdx
                     +! TwoTwoDiffZeroCheck bdytail adx bdxtail ady in
          let fin2 :=
            fin1 +! bct *! adz +! cat *! bdz +! abt *! cdz
            +! bc *! adztail +! ca *! bdztail +! ab *! cdztail
            +! ThreeProd adxtail bdytail cdz
            +! ThreeProd adxtail bdytail cdztail
            +! ThreeProd (-. adxtail) cdytail bdz
            +! ThreeProd (-. adxtail) cdytail bdztail
            +! ThreeProd bdxtail cdytail adz
            +! ThreeProd bdxtail cdytail adztail
            +! ThreeProd (-. bdxtail) adytail cdz
            +! ThreeProd (-. bdxtail) adytail cdztail
            +! ThreeProd cdxtail adytail bdz
            +! ThreeProd cdxtail adytail bdztail
            +! ThreeProd (-. cdxtail) bdytail adz
            +! ThreeProd (-. cdxtail) bdytail adztail
            +! bct *! adztail +! cat *! bdztail +! abt *! cdztail in
          (Final, mostSignificant fin2).

Definition adaptive_orient3d (pa pb pc pd : Point3) : T :=
  snd (adaptive_orient3d_run pa pb pc pd).

Definition adaptive_insphere_run (pa pb pc pd pe : Point3) : exit_point * T :=
  let aex := X3 pa -. X3 pe in
  let bex := X3 pb -. X3 pe in
  let cex := X3 pc -. X3 pe in
  let dex := X3 pd -. X3 pe in
  let aey := Y3 pa -. Y3 pe in
  let bey := Y3 pb -. Y3 pe in
  let cey := Y3 pc -. Y3 pe in
  let dey := Y3 pd -. Y3 pe in
  let aez := Z3 pa -. Z3 pe in
  let bez := Z3 pb -. Z3 pe in
  let cez := Z3 pc -. Z3 pe in
  let dez := Z3 pd -. Z3 pe in
  let aexbey := aex *. bey in
  let bexaey := bex *. aey in
  let bexcey := bex *. cey in
  let cexbey := cex *. bey in
  let cexdey := cex *. dey in
  let dexcey := dex *. cey in
  let dexaey := dex *. aey in
  let aexdey := aex *. dey in
  let aexcey := aex *. cey in
  let cexaey := cex *. aey in
  let bexdey := bex *. dey in
  let dexbey := dex *. bey in
  let ab := aexbey -. bexaey in
  let bc := bexcey -. cexbey in
  let cd := cexdey -. dexcey in
  let da := dexaey -. aexdey in
  let ac := aexcey -. cexaey in
  let bd := bexdey -. dexbey in
  let abc := aez *. bc -. bez *. ac +. cez *. ab in
  let bcd := bez *. cd -. cez *. bd +. dez *. bc in
  let cda := cez *. da +. dez *. ac +. aez *. cd in
  let dab := dez *. ab +. aez *. bd +. bez *. da in
  let alift := aex *. aex +. aey *. aey +. aez *. aez in
  let blift := bex *. bex +. bey *. bey +. bez *. bez in
  let clift := cex *. cex +. cey *. cey +. cez *. cez in
  let dlift := dex *. dex +. dey *. dey +. dez *. dez in
  let det := (dlift *. abc -. clift *. dab) +. (blift *. cda -. alift *. bcd) in
  let aezplus := fabs aez in
  let bezplus := fabs bez in
  let cezplus := fabs cez in
  let dezplus := fabs dez in
  let aexbeyplus := fabs aexbey in
  let bexaeyplus := fabs bexaey in
  let bexceyplus := fabs bexcey in
  let cexbeyplus := fabs cexbey in
  let cexdeyplus := fabs cexdey in
  let dexceyplus := fabs dexcey in
  let dexaeyplus := fabs dexaey in
  let aexdeyplus := fabs aexdey in
  let aexceyplus := fabs aexcey in
  let cexaeyplus := fabs cexaey in
  let bexdeyplus := fabs bexdey in
  let dexbeyplus := fabs dexbey in
  let permanent :=
    ((cexdeyplus +. dexceyplus) *. bezplus +. (dexbeyplus +. bexdeyplus) *. cezplus
     +. (bexceyplus +. cexbeyplus) *. dezplus) *. alift
    +. ((dexaeyplus +. aexdeyplus) *. cezplus +. (aexceyplus +. cexaeyplus) *. dezplus
        +. (cexdeyplus +. dexceyplus) *. aezplus) *. blift
    +. ((aexbeyplus +. bexaeyplus) *. dezplus +. (bexdeyplus +. dexbeyplus) *. aezplus
        +. (dexaeyplus +. aexdeyplus) *. bezplus) *. clift
    +. ((bexceyplus +. cexbeyplus) *. aezplus +. (cexaeyplus +. aexceyplus) *. bezplus
        +. (aexbeyplus +. bexaeyplus) *. cezplus) *. dlift in
  let errbound := isperrboundA *. permanent in
  if fge (fabs det) (fabs errbound) then (BoundA, det)
  else
    let ab := TwoTwoDiff aex bey bex aey in
    let bc := TwoTwoDiff bex cey cex bey in
    let cd := TwoTwoDiff cex dey dex cey in
    let da := TwoTwoDiff dex aey aex dey in
    let ac := TwoTwoDiff aex cey cex aey in
    let bd := TwoTwoDiff bex dey dex bey in
    let temp24a := bc *! dez +! (cd *! bez +! bd *! (-. cez)) in
    let temp24b := cd *! aez +! (da *! cez +! ac *! dez) in
    let temp24c := da *! bez +! (ab *! dez +! bd *! aez) in
    let temp24d := ab *! cez +! (bc *! aez +! ac *! (-. bez)) in
    let adet := temp24a *! aex *! (-. aex) +! temp24a *! aey *! (-. aey)
                +! temp24a *! aez *! (-. aez) in
    let bdet := temp24b *! bex *! bex +! temp24b *! bey *! bey
                +! temp24b *! bez *! bez in
    let cdet := temp24c *! cex *! (-. cex) +! temp24c *! cey *! (-. cey)
                +! temp24c *! cez *! (-. cez) in
    let ddet := temp24d *! dex *! dex +! temp24d *! dey *! dey
                +! temp24d *! dez *! dez in
    let fin1 := (adet +! bdet) +! (cdet +! ddet) in
    let det := estimate fin1 in
    let errbound := isperrboundB *. permanent in
    if fge (fabs det) (fabs errbound) then (BoundB, det)
    else
      let aextail := MinusTail (X3 pa) (X3 pe) aex in
      let aeytail := MinusTail (Y3 pa) (Y3 pe) aey in
      let aeztail := MinusTail (Z3 pa) (Z3 pe) aez in
      let bextail := MinusTail (X3 pb) (X3 pe) bex in
      let beytail := MinusTail (Y3 pb) (Y3 pe) bey in
      let beztail := MinusTail (Z3 pb) (Z3 pe) bez in
      let cextail := MinusTail (X3 pc) (X3 pe) cex in
      let ceytail := MinusTail (Y3 pc) (Y3 pe) cey in
      let ceztail := MinusTail (Z3 pc) (Z3 pe) cez in
      let dextail := MinusTail (X3 pd) (X3 pe) dex in
      let deytail := MinusTail (Y3 pd) (Y3 pe) dey in
      let deztail := MinusTail (Z3 pd) (Z3 pe) dez in
      if feq zero aextail && feq zero aeytail && feq zero aeztail
         && feq zero bextail && feq zero beytail && feq zero beztail
         && feq zero cextail && feq zero ceytail && feq zero ceztail
         && feq zero dextail && feq zero deytail && feq zero deztail then (TailsZero, det)
      else
        let errbound := isperrboundC *. permanent +. resulterrbound *. fabs det in
        let abeps := (aex *. beytail +. bey *. aextail)
                     -. (aey *. bextail +. bex *. aeytail) in
        let bceps := (bex *. ceytail +. cey *. bextail)
                     -. (bey *. cextail +. cex *. beytail) in
        let cdeps := (cex *. deytail +. dey *. cextail)
                     -. (cey *. dextail +. dex *. ceytail) in
        let daeps := (dex *. aeytail +. aey *. dextail)
                     -. (dey *. aextail +. aex *. deytail) in
        let aceps := (aex *. ceytail +. cey *. aextail)
                     -. (aey *. cextail +. cex *. aeytail) in
        let bdeps := (bex *. deytail +. dey *. bextail)
                     -. (bey *. dextail +. dex *. beytail) in
        let ab3 := mostSignificant ab in
        let bc3 := mostSignificant bc in
        let cd3 := mostSignificant cd in
        let da3 := mostSignificant da in
        let ac3 := mostSignificant ac in
        let bd3 := mostSignificant bd in
        let det := det +.
          ((((bex *. bex +. bey *. bey +. bez *. bez)
               *. ((cez *. daeps +. dez *. aceps +. aez *. cdeps)
                   +. (ceztail *. da3 +. deztail *. ac3 +. aeztail *. cd3))
             +. (dex *. dex +. dey *. dey +. dez *. dez)
                *. ((aez *. bceps -. bez *. aceps +. cez *. abeps)
                    +. (aeztail *. bc3 -. beztail *. ac3 +. ceztail *. ab3)))
            -. ((aex *. aex +. aey *. aey +. aez *. aez)
                  *. ((bez *. cdeps -. cez *. bdeps +. dez *. bceps)
                      +. (beztail *. cd3 -. ceztail *. bd3 +. deztail *. bc3))
                +. (cex *. cex +. cey *. cey +. cez *. cez)
                   *. ((dez *. abeps +. aez *. bdeps +. bez *. daeps)
                       +. (deztail *. ab3 +. aeztail *. bd3 +. beztail *. da3))))
           +. of_int 2
              *. (((bex *. bextail +. bey *. beytail +. bez *. beztail)
                     *. (cez *. da3 +. dez *. ac3 +. aez *. cd3)
                   +. (dex *. dextail +. dey *. deytail +. dez *. deztail)
                      *. (aez *. bc3 -. bez *. ac3 +. cez *. ab3))
                  -. ((aex *. aextail +. aey *. aeytail +. aez *. aeztail)
                        *. (bez *. cd3 -. cez *. bd3 +. dez *. bc3)
                      +. (cex *. cextail +. cey *. ceytail +. cez *. ceztail)
                         *. (dez *. ab3 +. aez *. bd3 +. bez *. da3)))) in
        if fge (fabs det) (fabs errbound) then (BoundC, det)
        else (Final, exact_insphere pa pb pc pd pe).

Definition adaptive_insphere (pa pb pc pd pe : Point3) : T :=
  snd (adaptive_insphere_run pa pb pc pd pe).

(** ** The second-stage expansions and the subtraction tails, by name

    The statements about the tail-correction stage refer to the expansion
    whose [estimate] the second stage computes and to the [MinusTail]s of
    the coordinate subtractions; they are repeated here as functions of
    the input points. *)

Definition orient2d_stage2 (pa pb pc : Point2) : Expansion :=
  TwoTwoDiff (X2 pa -. X2 pc) (Y2 pb -. Y2 pc) (Y2 pa -. Y2 pc) (X2 pb -. X2 pc).

Definition orient2d_tails (pa pb pc : Point2) : list T :=
  [ MinusTail (X2 pa) (X2 pc) (X2 pa -. X2 pc);
    MinusTail (X2 pb) (X2 pc) (X2 pb -. X2 pc);
    MinusTail (Y2 pa) (Y2 pc) (Y2 pa -. Y2 pc);
    MinusTail (Y2 pb) (Y2 pc) (Y2 pb -. Y2 pc) ].

(** The expansion [D] of the last stage of [orient2d], the expansions it
    is built from ([B], the three expansions of the tails, the two
    partial sums and [D]) and the eight products that they expand. *)
Definition orient2d_final (pa pb pc : Point2) : Expansion :=
  let acx := X2 pa -. X2 pc in
  let bcx := X2 pb -. X2 pc in
  let acy := Y2 pa -. Y2 pc in
  let bcy := Y2 pb -. Y2 pc in
  let B := TwoTwoDiff acx bcy acy bcx in
  let acxtail := MinusTail (X2 pa) (X2 pc) acx in
  let bcxtail := MinusTail (X2 pb) (X2 pc) bcx in
  let acytail := MinusTail (Y2 pa) (Y2 pc) acy in
  let bcytail := MinusTail (Y2 pb) (Y2 pc) bcy in
  ((B +! TwoTwoDiff acxtail bcy acytail bcx)
   +! TwoTwoDiff acx bcytail acy bcxtail)
  +! TwoTwoDiff acxtail bcytail acytail bcxtail.

Definition orient2d_final_parts (pa pb pc : Point2) : list Expansion :=
  let acx := X2 pa -. X2 pc in
  let bcx := X2 pb -. X2 pc in
  let acy := Y2 pa -. Y2 pc in
  let bcy := Y2 pb -. Y2 pc in
  let B := TwoTwoDiff acx bcy acy bcx in
  let acxtail := MinusTail (X2 pa) (X2 pc) acx in
  let bcxtail := MinusTail (X2 pb) (X2 pc) bcx in
  let acytail := MinusTail (Y2 pa) (Y2 pc) acy in
  let bcytail := MinusTail (Y2 pb) (Y2 pc) bcy in
  let T1 := TwoTwoDiff acxtail bcy acytail bcx in
  let T2 := TwoTwoDiff acx bcytail acy bcxtail in
  let T3 := TwoTwoDiff acxtail bcytail acytail bcxtail in
  [ B; T1; T2; T3; B +! T1; (B +! T1) +! T2; ((B +! T1) +! T2) +! T3 ].

Definition orient2d_final_products (pa pb pc : Point2) : list (T * T) :=
  let acx := X2 pa -. X2 pc in
  let bcx := X2 pb -. X2 pc in
  let acy := Y2 pa -. Y2 pc in
  let bcy := Y2 pb -. Y2 pc in
  let acxtail := MinusTail (X2 pa) (X2 pc) acx in
  let bcxtail := MinusTail (X2 pb) (X2 pc) bcx in
  let acytail := MinusTail (Y2 pa) (Y2 pc) acy in
  let bcytail := MinusTail (Y2 pb) (Y2 pc) bcy in
  [ (acx, bcy); (bcx, acy);
    (acxtail, bcy); (bcx, acytail);
    (acx, bcytail); (bcxtail, acy);
    (acxtail, bcytail); (bcxtail, acytail) ].

Definition incircle_stage2 (pa pb pc pd : Point2) : Expansion :=
  let adx := X2 pa -. X2 pd in
  let bdx := X2 pb -. X2 pd in
  let cdx := X2 pc -. X2 pd in
  let ady := Y2 pa -. Y2 pd in
  let bdy := Y2 pb -. Y2 pd in
  let cdy := Y2 pc -. Y2 pd in
  let bc := TwoTwoDiff bdx cdy cdx bdy in
  let ca := TwoTwoDiff cdx ady adx cdy in
  let ab := TwoTwoDiff adx bdy bdx ady in
  let adet := bc *! adx *! adx +! bc *! ady *! ady in
  let bdet := ca *! bdx *! bdx +! ca *! bdy *! bdy in
  let cdet := ab *! cdx *! cdx +! ab *! cdy *! cdy in
  adet +! bdet +! cdet.

Definition incircle_tails (pa pb pc pd : Point2) : list T :=
  [ MinusTail (X2 pa) (X2 pd) (X2 pa -. X2 pd);
    MinusTail (X2 pb) (X2 pd) (X2 pb -. X2 pd);
    MinusTail (X2 pc) (X2 pd) (X2 pc -. X2 pd);
    MinusTail (Y2 pa) (Y2 pd) (Y2 pa -. Y2 pd);
    MinusTail (Y2 pb) (Y2 pd) (Y2 pb -. Y2 pd);
    MinusTail (Y2 pc) (Y2 pd) (Y2 pc -. Y2 pd) ].

Definition orient3d_stage2 (pa pb pc pd : Point3) : Expansion :=
  let adx := X3 pa -. X3 pd in
  let bdx := X3 pb -. X3 pd in
  let cdx := X3 pc -. X3 pd in
  let ady := Y3 pa -. Y3 pd in
  let bdy := Y3 pb -. Y3 pd in
  let cdy := Y3 pc -. Y3 pd in
  let adz := Z3 pa -. Z3 pd in
  let bdz := Z3 pb -. Z3 pd in
  let cdz := Z3 pc -. Z3 pd in
  let bc := TwoTwoDiff bdx cdy cdx bdy in
  let ca := TwoTwoDiff cdx ady adx cdy in
  let ab := TwoTwoDiff adx bdy bdx ady in
  (bc *! adz +! ca *! bdz) +! ab *! cdz.

Definition orient3d_tails (pa pb pc pd : Point3) : list T :=
  [ MinusTail (X3 pa) (X3 pd) (X3 pa -. X3 pd);
    MinusTail (Y3 pa) (Y3 pd) (Y3 pa -. Y3 pd);
    MinusTail (Z3 pa) (Z3 pd) (Z3 pa -. Z3 pd);
    MinusTail (X3 pb) (X3 pd) (X3 pb -. X3 pd);
    MinusTail (Y3 pb) (Y3 pd) (Y3 pb -. Y3 pd);
    MinusTail (Z3 pb) (Z3 pd) (Z3 pb -. Z3 pd);
    MinusTail (X3 pc) (X3 pd) (X3 pc -. X3 pd);
    MinusTail (Y3 pc) (Y3 pd) (Y3 pc -. Y3 pd);
    MinusTail (Z3 pc) (Z3 pd) (Z3 pc -. Z3 pd) ].

Definition insphere_stage2 (pa pb pc pd pe : Point3) : Expansion :=
  let aex := X3 pa -. X3 pe in
  let bex := X3 pb -. X3 pe in
  let cex := X3 pc -. X3 pe in
  let dex := X3 pd -. X3 pe in
  let aey := Y3 pa -. Y3 pe in
  let bey := Y3 pb -. Y3 pe in
  let cey := Y3 pc -. Y3 pe in
  let dey := Y3 pd -. Y3 pe in
  let aez := Z3 pa -. Z3 pe in
  let bez := Z3 pb -. Z3 pe in
  let cez := Z3 pc -. Z3 pe in
  let dez := Z3 pd -. Z3 pe in
  let ab := TwoTwoDiff aex bey bex aey in
  let bc := TwoTwoDiff bex cey cex bey in
  let cd := TwoTwoDiff cex dey dex cey in
  let da := TwoTwoDiff dex aey aex dey in
  let ac := TwoTwoDiff aex cey cex aey in
  let bd := TwoTwoDiff bex dey dex bey in
  let temp24a := bc *! dez +! (cd *! bez +! bd *! (-. cez)) in
  let temp24b := cd *! aez +! (da *! cez +! ac *! dez) in
  let temp24c := da *! bez +! (ab *! dez +! bd *! aez) in
  let temp24d := ab *! cez +! (bc *! aez +! ac *! (-. bez)) in
  let adet := temp24a *! aex *! (-. aex) +! temp24a *! aey *! (-. aey)
              +! temp24a *! aez *! (-. aez) in
  let bdet := temp24b *! bex *! bex +! temp24b *! bey *! bey
              +! temp24b *! bez *! bez in
  let cdet := temp24c *! cex *! (-. cex) +! temp24c *! cey *! (-. cey)
              +! temp24c *! cez *! (-. cez) in
  let ddet := temp24d *! dex *! dex +! temp24d *! dey *! dey
              +! temp24d *! dez *! dez in
  (adet +! bdet) +! (cdet +! ddet).

Definition insphere_tails (pa pb pc pd pe : Point3) : list T :=
  [ MinusTail (X3 pa) (X3 pe) (X3 pa -. X3 pe);
    MinusTail (Y3 pa) (Y3 pe) (Y3 pa -. Y3 pe);
    MinusTail (Z3 pa) (Z3 pe) (Z3 pa -. Z3 pe);
    MinusTail (X3 pb) (X3 pe) (X3 pb -. X3 pe);
    MinusTail (Y3 pb) (Y3 pe) (Y3 pb -. Y3 pe);
    MinusTail (Z3 pb) (Z3 pe) (Z3 pb -. Z3 pe);
    MinusTail (X3 pc) (X3 pe) (X3 pc -. X3 pe);
    MinusTail (Y3 pc) (Y3 pe) (Y3 pc -. Y3 pe);
    MinusTail (Z3 pc) (Z3 pe) (Z3 pc -. Z3 pe);
    MinusTail (X3 pd) (X3 pe) (X3 pd -. X3 pe);
    MinusTail (Y3 pd) (Y3 pe) (Y3 pd -. Y3 pe);
    MinusTail (Z3 pd) (Z3 pe) (Z3 pd -. Z3 pe) ].

(** The fast first stage of [orient2d]: the two leading products and the
    test of the lines that return before any error bound is computed. *)
Definition orient2d_detleft (pa pb pc : Point2) : T :=
  (X2 pa -. X2 pc) *. (Y2 pb -. Y2 pc).
Definition orient2d_detright (pa pb pc : Point2) : T :=
  (Y2 pa -. Y2 pc) *. (X2 pb -. X2 pc).

(** An exit before the tail-correction stage. *)
Definition before_tails (x : exit_point) : bool :=
  match x with
  | FastExit | BoundA | BoundB => true
  | _ => false
  end.

End Predicates.

(** ** Exact values, signs and well-formed expansions *)

Section Values.

Variables prec emax : Z.

(** A finite number of the type: a zero or a canonical finite value. *)
Definition is_finite (x : spec_float) : bool :=
  match x with
  | S754_zero _ | S754_finite _ _ _ => true
  | _ => false
  end.

Definition finite_valid (x : spec_float) : bool :=
  is_finite x && valid_binary prec emax x.

(** The exact value of a finite number, counted in units of the smallest
    positive number [2 ^ emin] of the type: an integer. *)
Definition val (x : spec_float) : Z :=
  match x with
  | S754_finite s m e => cond_Zopp s (Zpos m * 2 ^ (e - emin prec emax))
  | _ => 0
  end.

(** The sign of a result: [-1], [0] or [1]; a NaN has none. *)
Definition fsign (x : spec_float) : option Z :=
  match x with
  | S754_nan => None
  | S754_zero _ => Some 0
  | S754_infinity s | S754_finite s _ _ => Some (if s then -1 else 1)
  end.

(** The exact sum of the components of an expansion. *)
Definition sum_val (e : list spec_float) : Z :=
  fold_right (fun x acc => val x + acc) 0 e.

(** Positions of the most and of the least significant non-zero bit. *)
Fixpoint ctz_pos (m : positive) : Z :=
  match m with
  | xO p => 1 + ctz_pos p
  | _ => 0
  end.

Definition msb (x : spec_float) : Z :=
  match x with
  | S754_finite _ m e => e + Zpos (digits2_pos m) - 1
  | _ => 0
  end.

Definition lsb (x : spec_float) : Z :=
  match x with
  | S754_finite _ m e => e + ctz_pos m
  | _ => 0
  end.

(** Bit positions are counted from [emin] in the exact values. *)
Definition expo (i : Z) : Z := i - emin prec emax.

Definition finite_nonzero (x : spec_float) : bool :=
  match x with
  | S754_finite _ _ _ => valid_binary prec emax x
  | _ => false
  end.

(** Components in increasing magnitude, each one entirely above the
    bits of the one before it. *)
Fixpoint nonoverlapping (e : list spec_float) : bool :=
  match e with
  | x :: ((y :: _) as e') => (msb x <? lsb y) && nonoverlapping e'
  | _ => true
  end.

(** The first component is not larger in magnitude than the second. *)
Definition head_sorted (e : list spec_float) : Prop :=
  match e with
  | x :: y :: _ => Z.abs (val x) <= Z.abs (val y)
  | _ => True
  end.

(** A valid expansion: finite non-zero components, non-overlapping and
    in increasing magnitude. *)
Definition valid_expansion (e : list spec_float) : bool :=
  forallb finite_nonzero e && nonoverlapping e.

(** No component is a zero: what [if (T(0) != v) push_back(v)] keeps. *)
Definition no_zero (e : list spec_float) : bool := forallb (fne zero) e.

(** Components in increasing magnitude, as [std::merge] compares them. *)
Fixpoint abs_sorted (e : list spec_float) : Prop :=
  match e with
  | x :: ((y :: _) as e') => Z.abs (val x) <= Z.abs (val y) /\ abs_sorted e'
  | _ => True
  end.

(** The exponents of [a] and [b] add up to [emin] at least: their exact
    product has no bit below the smallest positive number of the type,
    so that no rounding error of the product can underflow. *)
Definition product_fits (a b : spec_float) : bool :=
  match a, b with
  | S754_finite _ _ ea, S754_finite _ _ eb => emin prec emax <=? ea + eb
  | _, _ => true
  end.

(** The exact product of two finite numbers in units of [2 ^ emin]: an
    integer when [product_fits]. *)
Definition exact_product (a b : spec_float) : Z :=
  match a, b with
  | S754_finite sx mx ex, S754_finite sy my ey =>
      cond_Zopp (xorb sx sy)
                (Zpos (mx * my) * 2 ^ (ex + ey - emin prec emax))
  | _, _ => 0
  end.

(** The first component, if any, has magnitude at least [lo]. *)
Definition head_ge (lo : Z) (l : list spec_float) : Prop :=
  match l with
  | [] => True
  | x :: _ => lo <= Z.abs (val x)
  end.

(** A number with a single significant bit: a power of two. *)
Definition one_bit (x : spec_float) : bool := msb x =? lsb x.

(** The weight of the last significant bit of a finite number and the
    weight of the bit above its first one, in units of [2 ^ emin]. *)
Definition low_bit (x : spec_float) : Z := 2 ^ expo (lsb x).
Definition top_bit (x : spec_float) : Z := 2 ^ (expo (msb x) + 1).

(** Strongly non-overlapping components: non-overlapping, and when a
    component touches the next one (the first bit of the one is next to
    the last bit of the other) both are powers of two and the next one
    does not touch its own successor. *)
Fixpoint strongly_nonoverlapping (e : list spec_float) : bool :=
  match e with
  | x :: ((y :: r) as e') =>
      (msb x <? lsb y)
      && ((msb x + 1 <? lsb y)
          || (one_bit x && one_bit y
              && match r with
                 | z :: _ => msb y + 1 <? lsb z
                 | [] => true
                 end))
      && strongly_nonoverlapping e'
  | _ => true
  end.

(** A strongly non-overlapping expansion: finite non-zero components in
    increasing magnitude, strongly non-overlapping. *)
Definition strongly_valid (e : list spec_float) : bool :=
  forallb finite_nonzero e && strongly_nonoverlapping e.

(** What the strong non-overlap of an expansion says of the sum [E] of
    its first components, seen from the components [er] that follow. *)
Definition below (E : Z) (er : list spec_float) : Prop :=
  match er with
  | [] => True
  | x :: r =>
      Z.abs E < low_bit x
      /\ (one_bit x = false -> 2 * Z.abs E < low_bit x)
      /\ 4 * Z.abs E < 3 * low_bit x
      /\ match r with
         | y :: _ => msb x + 1 = lsb y -> 2 * Z.abs E < low_bit x
         | [] => True
         end
  end.

(** The first component of [er], if any, has no bit below position [b]. *)
Definition bit_below (b : Z) (er : list spec_float) : Prop :=
  match er with
  | [] => True
  | x :: _ => b <= expo (lsb x)
  end.

(** The first component of [r], if any, is a multiple of [2 ^ b]. *)
Definition head_div (b : Z) (r : list spec_float) : Prop :=
  match r with
  | [] => True
  | x :: _ => (2 ^ b | val x)
  end.

(** The state of the loop of [ExpansionSum] between two steps: [q] is
    the value of the running sum [Q], [er] and [fr] are the components of
    the two operands that are still to be added, [X] and [Y] the sums of
    those already added and [H] the sum of the components already
    stored, all of them below bit [b]. *)
Definition sum_state (q b : Z) (er fr : list spec_float) : Prop :=
  exists X Y H,
    q = X + Y - H /\ Z.abs H < 2 ^ b /\ below X er /\ below Y fr
    /\ 0 <= b /\ (2 ^ b | q) /\ bit_below b er /\ bit_below b fr.

(** The determinants whose sign the predicates return, on the exact
    values of the coordinates (in units of [2 ^ emin] to the power of the
    degree of the determinant). *)
Definition det_orient2d (pa pb pc : Point2) : Z :=
  let acx := val (X2 pa) - val (X2 pc) in
  let bcx := val (X2 pb) - val (X2 pc) in
  let acy := val (Y2 pa) - val (Y2 pc) in
  let bcy := val (Y2 pb) - val (Y2 pc) in
  acx * bcy - acy * bcx.

Definition det_orient3d (pa pb pc pd : Point3) : Z :=
  let adx := val (X3 pa) - val (X3 pd) in
  let bdx := val (X3 pb) - val (X3 pd) in
  let cdx := val (X3 pc) - val (X3 pd) in
  let ady := val (Y3 pa) - val (Y3 pd) in
  let bdy := val (Y3 pb) - val (Y3 pd) in
  let cdy := val (Y3 pc) - val (Y3 pd) in
  let adz := val (Z3 pa) - val (Z3 pd) in
  let bdz := val (Z3 pb) - val (Z3 pd) in
  let cdz := val (Z3 pc) - val (Z3 pd) in
  adz * (bdx * cdy - cdx * bdy) + bdz * (cdx * ady - adx * cdy)
  + cdz * (adx * bdy - bdx * ady).

Definition det_incircle (pa pb pc pd : Point2) : Z :=
  let adx := val (X2 pa) - val (X2 pd) in
  let bdx := val (X2 pb) - val (X2 pd) in
  let cdx := val (X2 pc) - val (X2 pd) in
  let ady := val (Y2 pa) - val (Y2 pd) in
  let bdy := val (Y2 pb) - val (Y2 pd) in
  let cdy := val (Y2 pc) - val (Y2 pd) in
  (adx * adx + ady * ady) * (bdx * cdy - cdx * bdy)
  + (bdx * bdx + bdy * bdy) * (cdx * ady - adx * cdy)
  + (cdx * cdx + cdy * cdy) * (adx * bdy - bdx * ady).

Definition det_insphere (pa pb pc pd pe : Point3) : Z :=
  let aex := val (X3 pa) - val (X3 pe) in
  let bex := val (X3 pb) - val (X3 pe) in
  let cex := val (X3 pc) - val (X3 pe) in
  let dex := val (X3 pd) - val (X3 pe) in
  let aey := val (Y3 pa) - val (Y3 pe) in
  let bey := val (Y3 pb) - val (Y3 pe) in
  let cey := val (Y3 pc) - val (Y3 pe) in
  let dey := val (Y3 pd) - val (Y3 pe) in
  let aez := val (Z3 pa) - val (Z3 pe) in
  let bez := val (Z3 pb) - val (Z3 pe) in
  let cez := val (Z3 pc) - val (Z3 pe) in
  let dez := val (Z3 pd) - val (Z3 pe) in
  let ab := aex * bey - bex * aey in
  let bc := bex * cey - cex * bey in
  let cd := cex * dey - dex * cey in
  let da := dex * aey - aex * dey in
  let ac := aex * cey - cex * aey in
  let bd := bex * dey - dex * bey in
  let abc := aez * bc - bez * ac + cez * ab in
  let bcd := bez * cd - cez * bd + dez * bc in
  let cda := cez * da + dez * ac + aez * cd in
  let dab := dez * ab + aez * bd + bez * da in
  let alift := aex * aex + aey * aey + aez * aez in
  let blift := bex * bex + bey * bey + bez * bez in
  let clift := cex * cex + cey * cey + cez * cez in
  let dlift := dex * dex + dey * dey + dez * dez in
  (dlift * abc - clift * dab) + (blift * cda - alift * bcd).

(** The unit of the values: [x] is [val x * 2 ^ emin], so a result [r]
    equals a determinant [d] of degree [k] when
    [val r * unit_inv ^ (k - 1) = d]. *)
Definition unit_inv : Z := 2 ^ (- emin prec emax).

End Values.

(** ** The expansions and the products of [exact::orient2d], by name *)

Section ExactOrient2dParts.

Variables prec emax : Z.
Variable use_fma : bool.

(** The expansions that [exact::orient2d] builds, in the order of the
    source: [aterms], [bterms], [cterms], [aterms + bterms] and [w]. *)
Definition exact_orient2d_parts (pa pb pc : Point2) : list Expansion :=
  let aterms := TwoTwoDiff prec emax use_fma (X2 pa) (Y2 pb) (X2 pa) (Y2 pc) in
  let bterms := TwoTwoDiff prec emax use_fma (X2 pb) (Y2 pc) (X2 pb) (Y2 pa) in
  let cterms := TwoTwoDiff prec emax use_fma (X2 pc) (Y2 pa) (X2 pc) (Y2 pb) in
  [ aterms; bterms; cterms;
    eadd prec emax aterms bterms;
    eadd prec emax (eadd prec emax aterms bterms) cterms ].

(** The six products of coordinates that [exact::orient2d] expands. *)
Definition exact_orient2d_products (pa pb pc : Point2) : list (T * T) :=
  [ (X2 pa, Y2 pb); (Y2 pc, X2 pa);
    (X2 pb, Y2 pc); (Y2 pa, X2 pb);
    (X2 pc, Y2 pa); (Y2 pb, X2 pc) ].

End ExactOrient2dParts.

(** ** The exits of an adaptive evaluator

    What a run [r] of an evaluator is, by cases: it returns before the
    tail-correction stage, or every tail is zero and it returns the
    estimate of [stage2], or some tail is not zero and it returns after
    the third bound or from its last [return], whose value satisfies
    [final]. *)

Section RunCases.

Variables prec emax : Z.

Definition run_cases (r : exit_point * T) (tails : list T) (stage2 : Expansion)
           (final : T -> Prop) : Prop :=
  before_tails (fst r) = true
  \/ (forallb (feq zero) tails = true
      /\ r = (TailsZero, estimate prec emax stage2))
  \/ (forallb (feq zero) tails = false
      /\ (fst r = BoundC \/ (fst r = Final /\ final (snd r)))).

End RunCases.

(** ** The four predicates, uniformly

    A query is a predicate together with its input points. *)

Section Queries.

Variables prec emax : Z.
Variable use_fma : bool.
Variable nan_sign : bool.

Inductive query : Type :=
| Orient2d (pa pb pc : Point2)
| Incircle (pa pb pc pd : Point2)
| Orient3d (pa pb pc pd : Point3)
| Insphere (pa pb pc pd pe : Point3).

Definition exact_expansion (q : query) : Expansion :=
  match q with
  | Orient2d pa pb pc => exact_orient2d_expansion prec emax use_fma pa pb pc
  | Incircle pa pb pc pd => exact_incircle_expansion prec emax use_fma pa pb pc pd
  | Orient3d pa pb pc pd => exact_orient3d_expansion prec emax use_fma pa pb pc pd
  | Insphere pa pb pc pd pe => exact_insphere_expansion prec emax use_fma pa pb pc pd pe
  end.

Definition exact_eval (q : query) : T :=
  match q with
  | Orient2d pa pb pc => exact_orient2d prec emax use_fma pa pb pc
  | Incircle pa pb pc pd => exact_incircle prec emax use_fma pa pb pc pd
  | Orient3d pa pb pc pd => exact_orient3d prec emax use_fma pa pb pc pd
  | Insphere pa pb pc pd pe => exact_insphere prec emax use_fma pa pb pc pd pe
  end.

Definition adaptive_run (q : query) : exit_point * T :=
  match q with
  | Orient2d pa pb pc => adaptive_orient2d_run prec emax use_fma nan_sign pa pb pc
  | Incircle pa pb pc pd => adaptive_incircle_run prec emax use_fma pa pb pc pd
  | Orient3d pa pb pc pd => adaptive_orient3d_run prec emax use_fma pa pb pc pd
  | Insphere pa pb pc pd pe => adaptive_insphere_run prec emax use_fma pa pb pc pd pe
  end.

Definition adaptive_eval (q : query) : T := snd (adaptive_run q).

Definition stage2 (q : query) : Expansion :=
  match q with
  | Orient2d pa pb pc => orient2d_stage2 prec emax use_fma pa pb pc
  | Incircle pa pb pc pd => incircle_stage2 prec emax use_fma pa pb pc pd
  | Orient3d pa pb pc pd => orient3d_stage2 prec emax use_fma pa pb pc pd
  | Insphere pa pb pc pd pe => insphere_stage2 prec emax use_fma pa pb pc pd pe
  end.

Definition tails (q : query) : list T :=
  match q with
  | Orient2d pa pb pc => orient2d_tails prec emax pa pb pc
  | Incircle pa pb pc pd => incircle_tails prec emax pa pb pc pd
  | Orient3d pa pb pc pd => orient3d_tails prec emax pa pb pc pd
  | Insphere pa pb pc pd pe => insphere_tails prec emax pa pb pc pd pe
  end.

(** The determinant of a query, and its degree in the coordinates. *)
Definition det (q : query) : Z :=
  match q with
  | Orient2d pa pb pc => det_orient2d prec emax pa pb pc
  | Incircle pa pb pc pd => det_incircle prec emax pa pb pc pd
  | Orient3d pa pb pc pd => det_orient3d prec emax pa pb pc pd
  | Insphere pa pb pc pd pe => det_insphere prec emax pa pb pc pd pe
  end.

Definition degree (q : query) : Z :=
  match q with
  | Orient2d _ _ _ => 2
  | Orient3d _ _ _ _ => 3
  | Incircle _ _ _ _ => 4
  | Insphere _ _ _ _ _ => 5
  end.

(** An expansion or a number equals the determinant of [q]. *)
Definition represents_det (q : query) (s : Z) : Prop :=
  s * unit_inv prec emax ^ (degree q - 1) = det q.

(** The evaluators whose last [return] calls the exact evaluator. *)
Definition delegates (q : query) : bool :=
  match q with
  | Incircle _ _ _ _ | Insphere _ _ _ _ _ => true
  | _ => false
  end.

(** The tests of the first stage of [orient2d]. *)
Definition orient2d_fast (pa pb pc : Point2) : bool :=
  let detleft := orient2d_detleft prec emax pa pb pc in
  let detright := orient2d_detright prec emax pa pb pc in
  negb (Bool.eqb (signbit nan_sign detleft) (signbit nan_sign detright))
  || (feq zero detleft || feq zero detright).

Definition orient2d_boundA (pa pb pc : Point2) : bool :=
  let detleft := orient2d_detleft prec emax pa pb pc in
  let detright := orient2d_detright prec emax pa pb pc in
  let det := fsub prec emax detleft detright in
  let detsum := fabs (fadd prec emax detleft detright) in
  let errbound := fmul prec emax (ccwerrboundA prec emax) detsum in
  fge (fabs det) (fabs errbound).

Definition is_nan (x : spec_float) : bool :=
  match x with
  | S754_nan => true
  | _ => false
  end.

(** Two zeros, whatever their signs. *)
Definition both_zero (x y : spec_float) : Prop :=
  exists s s', x = S754_zero s /\ y = S754_zero s'.

End Queries.

(** ** The instance [T = double] *)

Module Double.

Definition prec : Z := 53.
Definition emax : Z := 1024.

(** The double [m * 2 ^ e], rounded if it has to be. *)
Definition dbl (m e : Z) : spec_float := binary_normalize prec emax m e false.

(** [DBL_MAX]. *)
Definition dbl_max : spec_float := SFmax_float prec emax.

End Double.

(** ** Round to nearest, ties to even, on exact values

    Every finite number of the type is an integer multiple of [2 ^ emin],
    so sums and differences of values are integers.  [RN] rounds an
    integer to [prec] significant bits; it is the rounding that the
    operations of [spec_float] perform when they do not overflow. *)

Section RoundingModel.

Variable prec : Z.

(** The quotient of [m] by [2 ^ n], rounded to nearest, ties to even. *)
Definition rne_shift (m n : Z) : Z :=
  let q := m / 2 ^ n in
  match 2 * (m mod 2 ^ n) ?= 2 ^ n with
  | Lt => q
  | Eq => if Z.even q then q else q + 1
  | Gt => q + 1
  end.

(** The exponent of the last place kept for [z]. *)
Definition ulpe (z : Z) : Z := Z.max (Z.log2 (Z.abs z) + 1 - prec) 0.

Definition RN (z : Z) : Z :=
  Z.sgn z * (rne_shift (Z.abs z) (ulpe z) * 2 ^ ulpe z).

(** [z] needs no more than [prec] significant bits. *)
Definition repr (z : Z) : Prop := (2 ^ ulpe z | z).

End RoundingModel.

(** ** The backing arrays

    [Expansion<T, N>] is a [std::array<T, N>] with a size counter, and
    [ExpansionSum] and [ScaleExpansion] write through a raw pointer into
    the array of their result.  The functions below repeat them on an
    array of a fixed length in which a store outside the array fails
    ([None]) instead of being undefined. *)

Section Arrays.

Variables prec emax : Z.
Variable use_fma : bool.

Definition load (h : list spec_float) (i : nat) : option spec_float :=
  nth_error h i.

Definition store (h : list spec_float) (i : nat) (v : spec_float)
  : option (list spec_float) :=
  if (i <? length h)%nat then Some (firstn i h ++ v :: skipn (S i) h)
  else None.

(** [if (T(0) != v) h[hIndex++] = v]. *)
Definition store_nz (h : list spec_float) (hIndex : nat) (v : spec_float)
  : option (nat * list spec_float) :=
  if fne zero v then
    match store h hIndex v with
    | Some h' => Some (S hIndex, h')
    | None => None
    end
  else Some (hIndex, h).

(** An output iterator: the elements of [xs] are stored from index [i]. *)
Fixpoint store_all (h : list spec_float) (i : nat) (xs : list spec_float)
  : option (list spec_float) :=
  match xs with
  | [] => Some h
  | x :: xs' =>
      match store h i x with
      | Some h' => store_all h' (S i) xs'
      | None => None
      end
  end.

(** The loop [for (g = 2; g != n + m; ++g)] of [ExpansionSum], with the
    number of iterations that are left. *)
Fixpoint sum_loop_arr (left : nat) (g : nat) (Q : spec_float) (hIndex : nat)
         (h : list spec_float) : option (nat * list spec_float) :=
  match left with
  | O => store_nz h hIndex Q
  | S left' =>
      match load h g with
      | None => None
      | Some hg =>
          let Qnew := fadd prec emax Q hg in
          let hh := PlusTail prec emax Q hg Qnew in
          match store_nz h hIndex hh with
          | Some (hIndex', h') => sum_loop_arr left' (S g) Qnew hIndex' h'
          | None => None
          end
      end
  end.

(** [ExpansionSum(e, n, f, m, h)]: the returned size and the array [h]. *)
Definition ExpansionSum_arr (e f h : list spec_float)
  : option (nat * list spec_float) :=
  let n := length e in
  let m := length f in
  match store_all h 0 (merge e f) with
  | None => None
  | Some h =>
      if (m =? 0)%nat then Some (n, h)
      else if (n =? 0)%nat then Some (m, h)
      else
        match load h 0, load h 1 with
        | Some h0, Some h1 =>
            let Q := h0 in
            let Qnew := fadd prec emax h1 Q in
            let hh := FastPlusTail prec emax h1 Q Qnew in
            match store_nz h 0 hh with
            | Some (hIndex, h') => sum_loop_arr (n + m - 2) 2 Qnew hIndex h'
            | None => None
            end
        | _, _ => None
        end
  end.

(** The loop of [ScaleExpansion] over the components [e[eIndex ..]]. *)
Fixpoint scale_loop_arr (b : spec_float) (bSplit : spec_float * spec_float)
         (es : list spec_float) (Q : spec_float) (hIndex : nat)
         (h : list spec_float) : option (nat * list spec_float) :=
  match es with
  | [] => store_nz h hIndex Q
  | ei :: es' =>
      let Ti := fmul prec emax ei b in
      let ti := MultTailPreSplit prec emax use_fma ei b bSplit Ti in
      let Qi := fadd prec emax Q ti in
      let hh := PlusTail prec emax Q ti Qi in
      match store_nz h hIndex hh with
      | None => None
      | Some (hIndex1, h1) =>
          let Q' := fadd prec emax Ti Qi in
          let hh' := FastPlusTail prec emax Ti Qi Q' in
          match store_nz h1 hIndex1 hh' with
          | None => None
          | Some (hIndex2, h2) => scale_loop_arr b bSplit es' Q' hIndex2 h2
          end
      end
  end.

Definition ScaleExpansion_arr (e : list spec_float) (b : spec_float)
           (h : list spec_float) : option (nat * list spec_float) :=
  match e with
  | [] => Some (O, h)
  | e0 :: es =>
      if feq zero b then Some (O, h)
      else
        let Q := fmul prec emax e0 b in
        let bSplit := Split prec emax b in
        let hh := MultTailPreSplit prec emax use_fma e0 b bSplit Q in
        match store_nz h 0 hh with
        | None => None
        | Some (hIndex, h') => scale_loop_arr b bSplit es Q hIndex h'
        end
  end.

(** An [Expansion<T, N>] object: the array and [m_size]. *)
Record Expansion_obj : Type := {
  data : list spec_float;
  m_size : nat
}.

Definition push_back (e : Expansion_obj) (v : spec_float) : option Expansion_obj :=
  match store (data e) (m_size e) v with
  | Some d => Some {| data := d; m_size := S (m_size e) |}
  | None => None
  end.

(** [if (T(0) != v) e.push_back(v)]. *)
Definition push_back_nz (e : option Expansion_obj) (v : spec_float)
  : option Expansion_obj :=
  match e with
  | None => None
  | Some e => if fne zero v then push_back e v else Some e
  end.

(** [MakeExpansion] and [TwoTwoDiff] on a fresh object whose array is
    [arr] (of length 2, respectively 4). *)
Definition MakeExpansion_obj (arr : list spec_float) (value tail : spec_float)
  : option Expansion_obj :=
  let e := Some {| data := arr; m_size := O |} in
  let e := push_back_nz e tail in
  push_back_nz e value.

Definition TwoTwoDiff_obj (arr : list spec_float) (ax by_ ay bx : spec_float)
  : option Expansion_obj :=
  let axby1 := fmul prec emax ax by_ in
  let axby0 := MultTail prec emax use_fma ax by_ axby1 in
  let bxay1 := fmul prec emax bx ay in
  let bxay0 := MultTail prec emax use_fma bx ay bxay1 in
  let _i0 := fsub prec emax axby0 bxay0 in
  let x0 := MinusTail prec emax axby0 bxay0 _i0 in
  let _j := fadd prec emax axby1 _i0 in
  let _0 := PlusTail prec emax axby1 _i0 _j in
  let _i1 := fsub prec emax _0 bxay1 in
  let x1 := MinusTail prec emax _0 bxay1 _i1 in
  let x3 := fadd prec emax _j _i1 in
  let x2 := PlusTail prec emax _j _i1 x3 in
  let e := Some {| data := arr; m_size := O |} in
  let e := push_back_nz e x0 in
  let e := push_back_nz e x1 in
  let e := push_back_nz e x2 in
  push_back_nz e x3.

(** The components of an object: the first [m_size] cells. *)
Definition components (e : Expansion_obj) : list spec_float :=
  firstn (m_size e) (data e).

End Arrays.

(** * Tactics for the long chains of [let] of the evaluators *)

(** Move the outermost [let] of the goal to the context. *)
Ltac pull_let :=
  match goal with
  | |- context C [let x := ?v in @?b x] =>
      let y := fresh x in
      pose (y := v);
      let b' := eval cbv beta in (b y) in
      let g := context C [b'] in
      change g
  end.

Ltac forget_bodies :=
  repeat match goal with x := _ |- _ => clearbody x end.

(** The same, reusing a definition of the context that has this body. *)
Ltac pull_let_reuse :=
  match goal with
  | |- context C [let x := ?v in @?b x] =>
      first
        [ match goal with
          | y := ?w |- _ =>
              constr_eq w v;
              let b' := eval cbv beta in (b y) in
              let g := context C [b'] in
              change g
          end
        | let y := fresh x in
          pose (y := v);
          let b' := eval cbv beta in (b y) in
          let g := context C [b'] in
          change g ]
  end.

(** * The operations of [spec_float] round with [RN] *)

Section ShiftRight.

Lemma iter_pos_nat {A : Type} (f : A -> A) (p : positive) (x : A) :
  iter_pos f p x = Nat.iter (Pos.to_nat p) f x.
Proof.
  revert x. induction p as [p IH|p IH|]; intros x.
  - change (iter_pos f p~1 x) with (iter_pos f p (iter_pos f p (f x))).
    rewrite !IH, <- Nat.iter_succ_r, <- Nat.iter_add. f_equal. lia.
  - change (iter_pos f p~0 x) with (iter_pos f p (iter_pos f p x)).
    rewrite !IH, <- Nat.iter_add. f_equal. lia.
  - reflexivity.
Qed.

Lemma shr_1_nonneg m r s :
  0 <= m ->
  shr_1 (Build_shr_record m r s) = Build_shr_record (m / 2) (Z.odd m) (r || s).
Proof.
  intros Hm. rewrite <- Z.div2_div.
  destruct m as [|[p|p|]|p]; try reflexivity. lia.
Qed.

(** [k + 1] steps of [shr_1] keep the quotient by [2 ^ (k + 1)], the bit
    of weight [2 ^ k] (round bit) and whether anything lies below it
    (sticky bit). *)
Lemma iter_shr_1 (k : nat) m :
  0 <= m ->
  Nat.iter (S k) shr_1 (Build_shr_record m false false) =
  Build_shr_record (m / 2 ^ (Z.of_nat k + 1)) (Z.testbit m (Z.of_nat k))
                   (negb (m mod 2 ^ Z.of_nat k =? 0)).
Proof.
  intros Hm. induction k as [|k IH].
  - cbn [Nat.iter nat_rect]. rewrite shr_1_nonneg by trivial.
    change (Z.of_nat 0) with 0. simpl (0 + 1). rewrite Z.pow_1_r, Z.pow_0_r.
    rewrite Z.mod_1_r, Z.bit0_odd. reflexivity.
  - change (Nat.iter (S (S k)) shr_1 ?x) with (shr_1 (Nat.iter (S k) shr_1 x)).
    rewrite IH. clear IH.
    set (j := Z.of_nat k). assert (Hj : 0 <= j) by (unfold j; lia).
    replace (Z.of_nat (S k)) with (j + 1) by (unfold j; lia).
    assert (HP : 0 < 2 ^ j) by (apply Z.pow_pos_nonneg; lia).
    assert (HP1 : 0 < 2 ^ (j + 1)) by (apply Z.pow_pos_nonneg; lia).
    rewrite shr_1_nonneg by (apply Z.div_pos; lia).
    f_equal.
    + rewrite Z.div_div by lia. f_equal.
      rewrite (Z.pow_add_r 2 (j + 1) 1) by lia. reflexivity.
    + rewrite (Z.testbit_odd m (j + 1)), Z.shiftr_div_pow2 by lia. reflexivity.
    + rewrite (Z.pow_add_r 2 j 1), Z.pow_1_r by lia.
      rewrite Z.rem_mul_r by lia.
      rewrite Z.testbit_odd, Z.shiftr_div_pow2 by lia.
      pose proof (Z.mod_pos_bound m (2 ^ j) HP) as B.
      rewrite (Zmod_odd (m / 2 ^ j)).
      destruct (Z.odd (m / 2 ^ j));
        destruct (Z.eqb_spec (m mod 2 ^ j) 0) as [E0|E0];
        match goal with |- context [?a =? 0] => destruct (Z.eqb_spec a 0) end;
        simpl; trivial; nia.
Qed.

Lemma shr_round m (p : positive) :
  0 <= m ->
  let mrs := iter_pos shr_1 p (Build_shr_record m false false) in
  round_nearest_even (shr_m mrs) (loc_of_shr_record mrs) = rne_shift m (Zpos p).
Proof.
  intros Hm mrs. unfold mrs. rewrite iter_pos_nat.
  destruct (Pos2Nat.is_succ p) as [k Ek]. rewrite Ek.
  rewrite iter_shr_1 by trivial.
  assert (En : Zpos p = Z.of_nat k + 1) by lia.
  rewrite En. set (j := Z.of_nat k). assert (Hj : 0 <= j) by (unfold j; lia).
  unfold rne_shift.
  assert (HP : 0 < 2 ^ j) by (apply Z.pow_pos_nonneg; lia).
  rewrite (Z.pow_add_r 2 j 1), Z.pow_1_r by lia.
  rewrite Z.rem_mul_r by lia.
  rewrite Z.testbit_odd, Z.shiftr_div_pow2 by lia.
  rewrite (Zmod_odd (m / 2 ^ j)).
  pose proof (Z.mod_pos_bound m (2 ^ j) HP) as B.
  cbn [shr_m].
  destruct (Z.odd (m / 2 ^ j));
    destruct (Z.eqb_spec (m mod 2 ^ j) 0) as [E0|E0]; cbn [negb loc_of_shr_record round_nearest_even];
    match goal with |- context [?a ?= ?b] => destruct (Z.compare_spec a b) end;
    trivial; nia.
Qed.

Lemma rne_shift_scale m n k :
  0 <= n -> 0 <= k -> rne_shift (m * 2 ^ k) (n + k) = rne_shift m n.
Proof.
  intros Hn Hk. unfold rne_shift.
  assert (HP : 0 < 2 ^ k) by (apply Z.pow_pos_nonneg; lia).
  assert (HN : 0 < 2 ^ n) by (apply Z.pow_pos_nonneg; lia).
  rewrite Z.pow_add_r by lia.
  rewrite Z.div_mul_cancel_r by lia.
  rewrite Z.mul_mod_distr_r by lia.
  replace (2 * (m mod 2 ^ n * 2 ^ k)) with (2 * (m mod 2 ^ n) * 2 ^ k) by ring.
  rewrite <- Zmult_compare_compat_r by lia. reflexivity.
Qed.

End ShiftRight.

(** * Properties of the rounding model and of the operations *)

Section Correctness.

Variables prec emax : Z.
Hypothesis Hprec : 1 <= prec.
Hypothesis Hemax : prec < emax.

Local Abbreviation ue := (ulpe prec).
Local Abbreviation rn := (RN prec).
Local Abbreviation rp := (repr prec).
Local Abbreviation emin' := (emin prec emax).
Local Abbreviation fexp' := (fexp prec emax).
Local Abbreviation val' := (val prec emax).
Local Abbreviation fv := (finite_valid prec emax).
Local Abbreviation sumv := (sum_val prec emax).
Local Abbreviation add := (fadd prec emax).
Local Abbreviation sub := (fsub prec emax).
Local Abbreviation expo' := (expo prec emax).

Lemma pow2_gt0 k : 0 <= k -> 0 < 2 ^ k.
Proof. intros; apply Z.pow_pos_nonneg; lia. Qed.

Lemma pow2_succ k : 0 <= k -> 2 ^ (k + 1) = 2 * 2 ^ k.
Proof. intros. replace (k + 1) with (Z.succ k) by lia. apply Z.pow_succ_r; lia. Qed.

Lemma pow2_le j k : 0 <= j <= k -> 2 ^ j <= 2 ^ k.
Proof. intros. apply Z.pow_le_mono_r; lia. Qed.

Lemma pow2_lt j k : 0 <= j < k -> 2 ^ j < 2 ^ k.
Proof. intros. apply Z.pow_lt_mono_r; lia. Qed.

Lemma pow2_divide j k : 0 <= j <= k -> (2 ^ j | 2 ^ k).
Proof.
  intros. exists (2 ^ (k - j)). rewrite <- Z.pow_add_r by lia. f_equal. lia.
Qed.

Lemma ulpe_nonneg z : 0 <= ue z.
Proof. unfold ulpe. lia. Qed.

Lemma ulpe_opp z : ue (- z) = ue z.
Proof. unfold ulpe. now rewrite Z.abs_opp. Qed.

Lemma ulpe_mono a b : Z.abs a <= Z.abs b -> ue a <= ue b.
Proof.
  intros H. unfold ulpe.
  pose proof (Z.log2_le_mono _ _ H). lia.
Qed.

(** [|z| < 2 ^ (ulpe z + prec)]: [prec] bits above the last place. *)
Lemma abs_lt_ulpe z : Z.abs z < 2 ^ (ue z + prec).
Proof.
  destruct (Z.eq_dec z 0) as [->|Hz].
  - simpl. apply pow2_gt0. pose proof (ulpe_nonneg 0). lia.
  - assert (0 < Z.abs z) by lia.
    apply Z.log2_lt_pow2; trivial. unfold ulpe. lia.
Qed.

Lemma abs_ge_ulpe z : 1 <= ue z -> 2 ^ (ue z + prec - 1) <= Z.abs z.
Proof.
  intros H. unfold ulpe in *.
  assert (Hl : prec <= Z.log2 (Z.abs z)) by lia.
  assert (0 < Z.abs z).
  { destruct (Z.eq_dec (Z.abs z) 0) as [E|]; [rewrite E in Hl; simpl in Hl|]; lia. }
  apply Z.log2_le_pow2; trivial. lia.
Qed.

Lemma ulpe_lt_pow z k : 0 <= k -> Z.abs z < 2 ^ (k + prec) -> ue z <= k.
Proof.
  intros Hk H. unfold ulpe.
  destruct (Z.eq_dec z 0) as [->|Hz]; [change (Z.log2 (Z.abs 0)) with 0; lia|].
  assert (Z.log2 (Z.abs z) < k + prec) by (apply Z.log2_lt_pow2; lia).
  lia.
Qed.

Lemma ulpe_ge_pow z k : 0 <= k -> 2 ^ (k + prec - 1) <= Z.abs z -> k <= ue z.
Proof.
  intros Hk H. unfold ulpe.
  assert (0 < Z.abs z).
  { pose proof (pow2_gt0 (k + prec - 1)). lia. }
  assert (k + prec - 1 <= Z.log2 (Z.abs z)) by (apply Z.log2_le_pow2; lia).
  lia.
Qed.

(** ** Rounding a quotient *)

Lemma rne_shift_err m n :
  0 <= n -> 2 * Z.abs (rne_shift m n * 2 ^ n - m) <= 2 ^ n.
Proof.
  intros Hn. unfold rne_shift.
  pose proof (pow2_gt0 n Hn) as HD.
  pose proof (Z.div_mod m (2 ^ n) ltac:(lia)) as E.
  pose proof (Z.mod_pos_bound m (2 ^ n) HD) as B.
  set (D := 2 ^ n) in *. set (q := m / D) in *. set (r := m mod D) in *.
  destruct (Z.compare_spec (2 * r) D); [destruct (Z.even q)|..]; nia.
Qed.

Lemma rne_shift_exact m n : 0 <= n -> (2 ^ n | m) -> rne_shift m n * 2 ^ n = m.
Proof.
  intros Hn Hd. unfold rne_shift.
  pose proof (pow2_gt0 n Hn) as HD.
  assert (Hr : m mod 2 ^ n = 0) by (apply Z.mod_divide; trivial; lia).
  rewrite Hr. simpl (2 * 0).
  destruct (Z.compare_spec 0 (2 ^ n)); try lia.
  pose proof (Z.div_mod m (2 ^ n) ltac:(lia)). lia.
Qed.

Lemma rne_shift_bounds m n :
  m / 2 ^ n <= rne_shift m n <= m / 2 ^ n + 1.
Proof.
  unfold rne_shift.
  destruct (_ ?= _); [destruct (Z.even _)|..]; lia.
Qed.

(** ** Properties of [RN] *)

Lemma RN_0 : rn 0 = 0.
Proof. reflexivity. Qed.

Lemma RN_opp z : rn (- z) = - rn z.
Proof.
  unfold RN. rewrite ulpe_opp, Z.abs_opp, Z.sgn_opp. ring.
Qed.

Lemma RN_divide z : (2 ^ ue z | rn z).
Proof.
  unfold RN. exists (Z.sgn z * rne_shift (Z.abs z) (ue z)). ring.
Qed.

Lemma RN_err z : 2 * Z.abs (rn z - z) <= 2 ^ ue z.
Proof.
  pose proof (rne_shift_err (Z.abs z) (ue z) (ulpe_nonneg z)) as H.
  unfold RN. set (v := rne_shift _ _ * _) in *.
  destruct (Z.sgn_spec z) as [[? ->]|[[? ->]|[? ->]]]; lia.
Qed.

Lemma RN_abs_le z : Z.abs (rn z) <= 2 ^ (ue z + prec).
Proof.
  pose proof (ulpe_nonneg z) as Hc.
  pose proof (pow2_gt0 (ue z) Hc) as HD.
  pose proof (abs_lt_ulpe z) as Hlt.
  rewrite Z.pow_add_r in * by lia.
  assert (Z.abs z / 2 ^ ue z < 2 ^ prec).
  { apply Z.div_lt_upper_bound; lia. }
  assert (0 <= Z.abs z / 2 ^ ue z) by (apply Z.div_pos; lia).
  pose proof (rne_shift_bounds (Z.abs z) (ue z)) as [Hb' Hb].
  unfold RN. rewrite Z.abs_mul.
  assert (Z.abs (Z.sgn z) <= 1) by (destruct z; simpl; lia).
  rewrite (Z.abs_eq (_ * _)) by nia.
  nia.
Qed.

Lemma RN_abs_ge z : 1 <= ue z -> 2 ^ (ue z + prec - 1) <= Z.abs (rn z).
Proof.
  intros H1.
  pose proof (ulpe_nonneg z) as Hc.
  pose proof (pow2_gt0 (ue z) Hc) as HD.
  pose proof (abs_ge_ulpe z H1) as Hge.
  replace (ue z + prec - 1) with (prec - 1 + ue z) in * by lia.
  rewrite Z.pow_add_r in * by lia.
  pose proof (pow2_gt0 (prec - 1) ltac:(lia)) as HP.
  assert (2 ^ (prec - 1) <= Z.abs z / 2 ^ ue z).
  { apply Z.div_le_lower_bound; lia. }
  pose proof (rne_shift_bounds (Z.abs z) (ue z)) as [Hb' _].
  unfold RN. rewrite Z.abs_mul.
  assert (Z.abs (Z.sgn z) = 1).
  { assert (z <> 0) by (intros ->; simpl in Hge; nia). destruct z; simpl; lia. }
  rewrite (Z.abs_eq (_ * _)) by nia.
  nia.
Qed.

Lemma repr_0 : rp 0.
Proof. apply Z.divide_0_r. Qed.

Lemma repr_opp z : rp z -> rp (- z).
Proof. unfold repr. rewrite ulpe_opp. apply Z.divide_opp_r. Qed.

Lemma repr_divide z k : rp z -> 0 <= k <= ue z -> (2 ^ k | z).
Proof.
  intros H Hk. eapply Z.divide_trans; [apply pow2_divide|exact H]. lia.
Qed.

(** A multiple of [2 ^ k] of magnitude at most [2 ^ (k + prec)] is
    representable. *)
Lemma repr_intro z k : 0 <= k -> (2 ^ k | z) -> Z.abs z <= 2 ^ (k + prec) -> rp z.
Proof.
  intros Hk Hd Hle. unfold repr.
  destruct (Z_lt_le_dec (Z.abs z) (2 ^ (k + prec))) as [Hlt|Hge].
  - eapply Z.divide_trans; [apply pow2_divide|exact Hd].
    split; [apply ulpe_nonneg|now apply ulpe_lt_pow].
  - assert (E : Z.abs z = 2 ^ (k + prec)) by lia.
    assert (Hu : ue z = k + 1).
    { unfold ulpe. rewrite E, Z.log2_pow2 by lia. lia. }
    rewrite Hu.
    apply Z.divide_abs_r. rewrite E. apply pow2_divide. lia.
Qed.

Lemma RN_repr z : rp (rn z).
Proof.
  apply (repr_intro _ (ue z)).
  - apply ulpe_nonneg.
  - apply RN_divide.
  - apply RN_abs_le.
Qed.

Lemma RN_id z : rp z -> rn z = z.
Proof.
  intros H. unfold RN.
  rewrite rne_shift_exact.
  - rewrite Z.mul_comm. apply Z.abs_sgn.
  - apply ulpe_nonneg.
  - now apply Z.divide_abs_r.
Qed.

(** [RN z] is a nearest multiple of the last place of [z]... *)
Lemma RN_nearest_multiple z g :
  (2 ^ ue z | g) -> Z.abs (rn z - z) <= Z.abs (g - z).
Proof.
  intros [b ->]. destruct (RN_divide z) as [a Ha].
  pose proof (RN_err z) as He. rewrite Ha in *.
  pose proof (pow2_gt0 (ue z) (ulpe_nonneg z)).
  destruct (Z.eq_dec a b) as [->|Hab]; [lia|].
  assert (2 ^ ue z <= Z.abs (a * 2 ^ ue z - b * 2 ^ ue z)) by nia.
  lia.
Qed.

(** ... and a nearest representable number. *)
Lemma RN_nearest z f : rp f -> Z.abs (rn z - z) <= Z.abs (f - z).
Proof.
  intros Hf.
  destruct (Z_le_gt_dec (ue z) 0) as [H0|H1].
  - pose proof (RN_err z) as He. pose proof (ulpe_nonneg z).
    assert (2 ^ ue z = 1) by (replace (ue z) with 0 by lia; reflexivity). lia.
  - pose proof (abs_ge_ulpe z ltac:(lia)) as HL.
    destruct (Z_le_gt_dec (2 ^ (ue z + prec - 1)) (Z.abs f)) as [Hbig|Hsmall].
    + apply RN_nearest_multiple.
      apply (repr_divide f); trivial. split; [apply ulpe_nonneg|].
      apply ulpe_ge_pow; [apply ulpe_nonneg|trivial].
    + pose proof (RN_nearest_multiple z (Z.sgn z * 2 ^ (ue z + prec - 1))) as Hn.
      assert (Hd : (2 ^ ue z | Z.sgn z * 2 ^ (ue z + prec - 1))).
      { apply Z.divide_mul_r. apply pow2_divide. pose proof (ulpe_nonneg z). lia. }
      specialize (Hn Hd).
      pose proof (pow2_gt0 (ue z + prec - 1) ltac:(lia)).
      destruct (Z.sgn_spec z) as [[? E]|[[? E]|[? E]]]; rewrite E in Hn; lia.
Qed.

(** ** Error-free transformations on exact values *)

(** The rounding error of a sum of two representable numbers is
    representable. *)
Lemma sum_error_repr a b : rp a -> rp b -> rp (a + b - rn (a + b)).
Proof.
  intros Ha Hb.
  set (k := Z.min (ue a) (ue b)).
  assert (Hk : 0 <= k) by (pose proof (ulpe_nonneg a); pose proof (ulpe_nonneg b); lia).
  assert (Hda : (2 ^ k | a)) by (apply repr_divide; trivial; lia).
  assert (Hdb : (2 ^ k | b)) by (apply repr_divide; trivial; lia).
  destruct (Z_lt_le_dec (ue (a + b)) k) as [Hlt|Hle].
  - rewrite RN_id; [rewrite Z.sub_diag; apply repr_0|].
    unfold repr. eapply Z.divide_trans; [apply pow2_divide|].
    + split; [apply ulpe_nonneg|apply Z.lt_le_incl, Hlt].
    + now apply Z.divide_add_r.
  - apply (repr_intro _ k); trivial.
    + apply Z.divide_sub_r; [now apply Z.divide_add_r|].
      eapply Z.divide_trans; [apply pow2_divide|apply RN_divide]. lia.
    + pose proof (RN_nearest (a + b) a Ha) as Na.
      pose proof (RN_nearest (a + b) b Hb) as Nb.
      pose proof (abs_lt_ulpe a). pose proof (abs_lt_ulpe b).
      destruct (Z.min_spec (ue a) (ue b)) as [[_ E]|[_ E]]; fold k in E;
        rewrite <- E in *; lia.
Qed.

(** When [b] does not reach above [a], the difference between the rounded
    sum and [a] is representable. *)
Lemma sum_minus_repr a b : rp a -> rp b -> ue b <= ue a -> rp (rn (a + b) - a).
Proof.
  intros Ha Hb Hab.
  set (c := ue (a + b)).
  pose proof (ulpe_nonneg a) as Ha0. pose proof (ulpe_nonneg b) as Hb0.
  pose proof (ulpe_nonneg (a + b)) as Hc0. fold c in Hc0.
  pose proof (abs_lt_ulpe a) as La. pose proof (abs_lt_ulpe b) as Lb.
  pose proof (RN_err (a + b)) as He. fold c in He.
  pose proof (RN_divide (a + b)) as Hd. fold c in Hd.
  assert (Hc : c <= ue a + 1).
  { apply ulpe_lt_pow; [lia|].
    replace (ue a + 1 + prec) with (ue a + prec + 1) by lia.
    rewrite pow2_succ by lia.
    pose proof (pow2_le (ue b + prec) (ue a + prec) ltac:(lia)). lia. }
  destruct (Z_le_gt_dec c (ue b)) as [Hcb|Hcb].
  - (* the sum is exact *)
    rewrite RN_id; [now replace (a + b - a) with b by ring|].
    unfold repr. fold c.
    apply Z.divide_add_r; apply repr_divide; trivial; lia.
  - destruct (Z_le_gt_dec c (ue a)) as [Hca|Hca].
    + apply (repr_intro _ c); trivial.
      * apply Z.divide_sub_r; trivial. apply repr_divide; trivial; lia.
      * pose proof (pow2_le (ue b + prec) (c - 1 + prec) ltac:(lia)).
        pose proof (pow2_succ (c - 1) ltac:(lia)) as E1.
        pose proof (pow2_succ (c - 1 + prec) ltac:(lia)) as E2.
        replace (c - 1 + 1) with c in E1 by lia.
        replace (c - 1 + prec + 1) with (c + prec) in E2 by lia.
        pose proof (pow2_le (c - 1) (c - 1 + prec) ltac:(lia)).
        lia.
    + assert (Ec : c = ue a + 1) by lia.
      apply (repr_intro _ (ue a)); trivial.
      * apply Z.divide_sub_r; [|apply repr_divide; trivial; lia].
        eapply Z.divide_trans; [apply pow2_divide|exact Hd]. lia.
      * rewrite Ec, pow2_succ in He by lia.
        destruct (Z.eq_dec (ue b) (ue a)) as [E|NE].
        -- assert (Hdb : (2 ^ ue a | b)) by (apply repr_divide; trivial; lia).
           destruct Hdb as [m Hm]. rewrite E in Lb.
           rewrite Z.pow_add_r in * by lia.
           pose proof (pow2_gt0 (ue a) Ha0). pose proof (pow2_gt0 prec ltac:(lia)).
           assert (Z.abs m < 2 ^ prec) by (subst b; rewrite Z.abs_mul in Lb; nia).
           assert (Z.abs b <= 2 ^ ue a * 2 ^ prec - 2 ^ ue a)
             by (subst b; rewrite Z.abs_mul; nia).
           lia.
        -- pose proof (pow2_le (ue b + prec) (ue a - 1 + prec) ltac:(lia)).
           pose proof (pow2_succ (ue a - 1 + prec) ltac:(lia)) as E2.
           replace (ue a - 1 + prec + 1) with (ue a + prec) in E2 by lia.
           pose proof (pow2_le (ue a) (ue a - 1 + prec) ltac:(lia)).
           lia.
Qed.

(** Dekker's [FastTwoSum] on exact values. *)
Lemma fast_two_sum_exact a b :
  rp a -> rp b -> ue b <= ue a ->
  let x := rn (a + b) in
  x + rn (b - rn (x - a)) = a + b.
Proof.
  intros Ha Hb Hab x.
  rewrite (RN_id (x - a)) by (now apply sum_minus_repr).
  replace (b - (x - a)) with (a + b - x) by ring.
  rewrite RN_id by (now apply sum_error_repr). ring.
Qed.

(** Knuth's [TwoSum] on exact values, for operands in any order. *)
Lemma two_sum_exact a b :
  rp a -> rp b ->
  let x := rn (a + b) in
  let bv := rn (x - a) in
  let av := rn (x - bv) in
  let br := rn (b - bv) in
  let ar := rn (a - av) in
  x + rn (ar + br) = a + b.
Proof.
  intros Ha Hb x bv av br ar.
  pose proof (sum_error_repr a b Ha Hb) as Herr. fold x in Herr.
  destruct (Z_le_gt_dec (ue b) (ue a)) as [Hab|Hab].
  - assert (Ebv : bv = x - a) by (apply RN_id; now apply sum_minus_repr).
    assert (Eav : av = a).
    { unfold av. rewrite Ebv. replace (x - (x - a)) with a by ring. now apply RN_id. }
    assert (Ear : ar = 0) by (unfold ar; rewrite Eav, Z.sub_diag; apply RN_0).
    assert (Ebr : br = a + b - x).
    { unfold br. rewrite Ebv. replace (b - (x - a)) with (a + b - x) by ring.
      now apply RN_id. }
    rewrite Ear, Ebr, Z.add_0_l, RN_id by trivial. ring.
  - destruct (Z.eq_dec x (a + b)) as [Ex|Nx].
    + assert (Ebv : bv = b).
      { unfold bv. rewrite Ex. replace (a + b - a) with b by ring. now apply RN_id. }
      assert (Eav : av = a).
      { unfold av. rewrite Ebv, Ex. replace (a + b - b) with a by ring. now apply RN_id. }
      unfold ar, br. rewrite Eav, Ebv, !Z.sub_diag, !RN_0. change (0 + 0) with 0. rewrite RN_0. lia.
    + (* the sum is rounded: it reaches above [a] *)
      pose proof (ulpe_nonneg a) as Ha0.
      assert (Hux : ue a < ue x).
      { assert (Hnr : ~ rp (a + b)) by (intros H; apply Nx, RN_id, H).
        assert (Hd : (2 ^ ue a | a + b)).
        { apply Z.divide_add_r; apply repr_divide; trivial; lia. }
        assert (Hbig : 2 ^ (ue a + prec) < Z.abs (a + b)).
        { destruct (Z_lt_le_dec (2 ^ (ue a + prec)) (Z.abs (a + b))); trivial.
          exfalso. apply Hnr. now apply (repr_intro _ (ue a)). }
        assert (Hc : ue a + 1 <= ue (a + b)).
        { apply ulpe_ge_pow; [lia|]. replace (ue a + 1 + prec - 1) with (ue a + prec) by lia.
          lia. }
        pose proof (RN_abs_ge (a + b) ltac:(lia)) as Hx. fold x in Hx.
        assert (ue a + 1 <= ue x); [|lia].
        apply ulpe_ge_pow; [lia|]. replace (ue a + 1 + prec - 1) with (ue a + prec) by lia.
        pose proof (pow2_le (ue a + prec) (ue (a + b) + prec - 1) ltac:(lia)). lia. }
      assert (Hx : rp x) by apply RN_repr.
      assert (Hna : rp (- a)) by now apply repr_opp.
      assert (Eav : av = x - bv).
      { apply RN_id. apply repr_opp in Hna.
        pose proof (sum_minus_repr x (- a) Hx (repr_opp a Ha)) as H.
        rewrite ulpe_opp in H. specialize (H ltac:(lia)).
        apply repr_opp in H.
        replace (x - bv) with (- (rn (x + - a) - x)); trivial.
        unfold bv. replace (x + - a) with (x - a) by ring. ring. }
      assert (Ear : ar = a - av).
      { apply RN_id. rewrite Eav.
        pose proof (sum_error_repr x (- a) Hx (repr_opp a Ha)) as H.
        apply repr_opp in H.
        replace (a - (x - bv)) with (- (x + - a - rn (x + - a))); trivial.
        unfold bv. replace (x + - a) with (x - a) by ring. ring. }
      assert (Ebr : br = b - bv).
      { apply RN_id.
        pose proof (sum_minus_repr b (- (a + b - x)) Hb (repr_opp _ Herr)) as H.
        rewrite ulpe_opp in H.
        assert (Hle : ue (a + b - x) <= ue b).
        { pose proof (RN_nearest (a + b) b Hb) as Nb. fold x in Nb.
          assert (ue (a + b - x) <= ue a); [|lia].
          apply ulpe_mono. lia. }
        specialize (H Hle). apply repr_opp in H.
        replace (b - bv) with (- (rn (b + - (a + b - x)) - b)); trivial.
        unfold bv. replace (b + - (a + b - x)) with (x - a) by ring. ring. }
      rewrite Ear, Ebr, Eav.
      replace (a - (x - bv) + (b - bv)) with (a + b - x) by ring.
      rewrite RN_id by trivial. ring.
Qed.

(** ** The operations of [spec_float] *)

Lemma digits2_pos_log2 m : Zpos (digits2_pos m) = Z.log2 (Zpos m) + 1.
Proof.
  assert (E : forall p, digits2_pos p = Pos.size p).
  { induction p; simpl; congruence. }
  rewrite E. destruct m; simpl; lia.
Qed.

Lemma pos_iter_xO m d : Zpos (Pos.iter xO m d) = Zpos m * 2 ^ Zpos d.
Proof.
  induction d as [|d IH] using Pos.peano_ind.
  - simpl. lia.
  - rewrite Pos.iter_succ, Pos2Z.inj_xO, IH, Pos2Z.inj_succ, Z.pow_succ_r by lia.
    ring.
Qed.

Lemma shl_align_spec mx ex e :
  snd (shl_align mx ex e) = Z.min ex e /\
  Zpos (fst (shl_align mx ex e)) = Zpos mx * 2 ^ (ex - Z.min ex e).
Proof.
  unfold shl_align. destruct (e - ex) as [|d|d] eqn:E; simpl fst; simpl snd.
  - replace (Z.min ex e) with ex by lia. rewrite Z.sub_diag. simpl. lia.
  - assert (Z.min ex e = ex) as -> by lia. rewrite Z.sub_diag. simpl. lia.
  - assert (Z.min ex e = e) as -> by lia. rewrite pos_iter_xO.
    split; trivial. f_equal. f_equal. lia.
Qed.

Lemma ulpe_scaled m k :
  0 <= k -> ulpe prec (Zpos m * 2 ^ k) = Z.max (Zpos (digits2_pos m) + k - prec) 0.
Proof.
  intros Hk. unfold ulpe.
  assert (0 < 2 ^ k) by (apply Z.pow_pos_nonneg; lia).
  rewrite Z.abs_eq by nia.
  rewrite Z.log2_mul_pow2, digits2_pos_log2 by lia. f_equal. lia.
Qed.

Lemma canonical_emin m e : canonical_mantissa prec emax m e = true -> emin' <= e.
Proof.
  unfold canonical_mantissa, fexp. intros H. apply Z.eqb_eq in H. lia.
Qed.

(** A canonical mantissa and exponent hold a representable value. *)
Lemma canonical_repr m e :
  canonical_mantissa prec emax m e = true ->
  repr prec (Zpos m * 2 ^ (e - emin')).
Proof.
  intros H. pose proof (canonical_emin _ _ H) as He.
  unfold canonical_mantissa, fexp in H. apply Z.eqb_eq in H.
  unfold repr. rewrite ulpe_scaled by lia.
  apply Z.divide_mul_r. apply pow2_divide. lia.
Qed.

Lemma binary_round_aux_canonical sx m e :
  canonical_mantissa prec emax m e = true ->
  binary_round_aux prec emax sx (Zpos m) e loc_Exact =
  if e <=? emax - prec then S754_finite sx m e else S754_infinity sx.
Proof.
  intros H. unfold canonical_mantissa in H. apply Z.eqb_eq in H.
  unfold binary_round_aux, shr_fexp.
  cbn [Zdigits2 shr_record_of_loc]. rewrite H, Z.sub_diag.
  cbn [shr shr_m loc_of_shr_record round_nearest_even Zdigits2 shr_record_of_loc].
  rewrite H, Z.sub_diag. cbn [shr shr_m]. reflexivity.
Qed.

Lemma binary_round_aux_shift sx mx ex :
  emin' <= ex ->
  0 < fexp' (Zpos (digits2_pos mx) + ex) - ex ->
  exists m' e',
    binary_round_aux prec emax sx (Zpos mx) ex loc_Exact =
      (if e' <=? emax - prec then S754_finite sx m' e' else S754_infinity sx)
    /\ canonical_mantissa prec emax m' e' = true
    /\ Zpos m' * 2 ^ (e' - emin') = rn (Zpos mx * 2 ^ (ex - emin')).
Proof.
  intros He Hn.
  set (d := Zpos (digits2_pos mx)) in *.
  assert (Hf : fexp' (d + ex) = d + ex - prec) by (unfold fexp in *; lia).
  set (n := fexp' (d + ex) - ex) in *.
  assert (En : n = d - prec) by lia.
  destruct n as [|p|p] eqn:Ep; try lia.
  (* the value that is rounded *)
  assert (Hrn : rn (Zpos mx * 2 ^ (ex - emin'))
                = rne_shift (Zpos mx) (Zpos p) * 2 ^ (ex + Zpos p - emin')).
  { unfold RN. assert (0 < 2 ^ (ex - emin')) by (apply Z.pow_pos_nonneg; lia).
    rewrite Z.sgn_pos, Z.abs_eq, ulpe_scaled by nia. fold d.
    replace (Z.max (d + (ex - emin') - prec) 0) with (Zpos p + (ex - emin')) by lia.
    rewrite rne_shift_scale by lia.
    replace (ex + Zpos p - emin') with (Zpos p + (ex - emin')) by lia. ring. }
  (* the shifted mantissa has exactly [prec] bits *)
  pose proof (digits2_pos_log2 mx) as Hd. fold d in Hd.
  pose proof (Z.log2_spec (Zpos mx) ltac:(lia)) as [Hlo Hhi].
  replace (Z.succ (Z.log2 (Zpos mx))) with d in Hhi by lia.
  replace (Z.log2 (Zpos mx)) with (d - 1) in Hlo by lia.
  assert (HP : 0 < 2 ^ Zpos p) by (apply Z.pow_pos_nonneg; lia).
  assert (Hq : 2 ^ (prec - 1) <= Zpos mx / 2 ^ Zpos p < 2 ^ prec).
  { split.
    - apply Z.div_le_lower_bound; trivial.
      rewrite <- Z.pow_add_r by lia. replace (Zpos p + (prec - 1)) with (d - 1) by lia.
      trivial.
    - apply Z.div_lt_upper_bound; trivial.
      rewrite <- Z.pow_add_r by lia. replace (Zpos p + prec) with d by lia. trivial. }
  pose proof (rne_shift_bounds (Zpos mx) (Zpos p)) as Hb.
  pose proof (pow2_gt0 (prec - 1) ltac:(lia)) as HP1.
  pose proof (pow2_succ (prec - 1) ltac:(lia)) as HP2.
  replace (prec - 1 + 1) with prec in HP2 by lia.
  set (m1 := rne_shift (Zpos mx) (Zpos p)) in *.
  unfold binary_round_aux, shr_fexp.
  cbn [Zdigits2 shr_record_of_loc]. fold d. fold n. rewrite Ep.
  cbn [shr].
  pose proof (shr_round (Zpos mx) p ltac:(lia)) as Hr. cbv zeta in Hr.
  rewrite Hr. fold m1.
  destruct m1 as [|m1p|m1p] eqn:Em1; try lia.
  destruct (Z_lt_le_dec (Zpos m1p) (2 ^ prec)) as [Hlt|Hge].
  - (* no carry out of the rounding *)
    assert (Hd1 : Zpos (digits2_pos m1p) = prec).
    { rewrite digits2_pos_log2.
      assert (Z.log2 (Zpos m1p) = prec - 1); [|lia].
      apply Z.log2_unique; [lia|]. replace (Z.succ (prec - 1)) with prec by lia. lia. }
    assert (Hc : canonical_mantissa prec emax m1p (ex + Zpos p) = true).
    { unfold canonical_mantissa. apply Z.eqb_eq. rewrite Hd1. unfold fexp in *. lia. }
    exists m1p, (ex + Zpos p). split; [|split; trivial].
    + pose proof Hc as Hc'. unfold canonical_mantissa in Hc'. apply Z.eqb_eq in Hc'.
      cbn [Zdigits2]. rewrite Hc', Z.sub_diag. cbn [shr shr_m]. reflexivity.
    + now rewrite Hrn.
  - (* the rounding carries into a new bit *)
    assert (E1 : Zpos m1p = 2 ^ prec) by lia.
    assert (Hd1 : Zpos (digits2_pos m1p) = prec + 1).
    { rewrite digits2_pos_log2, E1, Z.log2_pow2 by lia. lia. }
    assert (Hsh : fexp' (Zpos (digits2_pos m1p) + (ex + Zpos p)) - (ex + Zpos p) = 1).
    { rewrite Hd1. unfold fexp in *. lia. }
    assert (Hhalf : exists h, Zpos h = 2 ^ (prec - 1)).
    { destruct (2 ^ (prec - 1)) as [|h|h] eqn:Eh; try lia. now exists h. }
    destruct Hhalf as [h Hh].
    assert (Em : m1p = xO h) by (apply Pos2Z.inj; rewrite Pos2Z.inj_xO; lia).
    assert (Hdh : Zpos (digits2_pos h) = prec).
    { rewrite digits2_pos_log2, Hh, Z.log2_pow2 by lia. lia. }
    exists h, (ex + Zpos p + 1). split; [|split].
    + cbn [Zdigits2]. rewrite Hsh. subst m1p. cbn. reflexivity.
    + unfold canonical_mantissa. apply Z.eqb_eq. rewrite Hdh. unfold fexp in *. lia.
    + rewrite Hrn, Hh, E1.
      replace (ex + Zpos p + 1 - emin') with (ex + Zpos p - emin' + 1) by lia.
      rewrite pow2_succ by lia. lia.
Qed.

(** [binary_round] returns the value rounded by [RN], or overflows. *)
Lemma binary_round_spec sx mx ex :
  emin' <= ex ->
  exists m' e',
    binary_round prec emax sx mx ex =
      (if e' <=? emax - prec then S754_finite sx m' e' else S754_infinity sx)
    /\ canonical_mantissa prec emax m' e' = true
    /\ Zpos m' * 2 ^ (e' - emin') = rn (Zpos mx * 2 ^ (ex - emin')).
Proof.
  intros He. unfold binary_round.
  set (d := Zpos (digits2_pos mx)).
  destruct (shl_align_spec mx ex (fexp' (d + ex))) as [Es Em].
  destruct (shl_align mx ex (fexp' (d + ex))) as [mz ez]. cbn [fst snd] in Es, Em.
  destruct (Z_lt_le_dec (fexp' (d + ex)) ex) as [Hlt|Hge].
  - (* the mantissa is short: it is shifted left, nothing is rounded *)
    assert (Ez : ez = fexp' (d + ex)) by lia.
    assert (Hez : emin' <= ez) by (unfold fexp in *; lia).
    assert (Hc : canonical_mantissa prec emax mz ez = true).
    { unfold canonical_mantissa. apply Z.eqb_eq.
      rewrite digits2_pos_log2, Em, Z.log2_mul_pow2 by lia.
      pose proof (digits2_pos_log2 mx). fold d in H.
      replace (ex - Z.min ex (fexp' (d + ex)) + Z.log2 (Zpos mx) + 1 + ez) with (d + ex) by lia.
      lia. }
    exists mz, ez. split; [|split; trivial].
    + now apply binary_round_aux_canonical.
    + assert (Ev : Zpos mz * 2 ^ (ez - emin') = Zpos mx * 2 ^ (ex - emin')).
      { rewrite Em, <- Z.mul_assoc, <- Z.pow_add_r by lia. f_equal. f_equal. lia. }
      rewrite <- Ev. symmetry. apply RN_id; trivial. now apply canonical_repr.
  - assert (Ez : ez = ex) by lia.
    assert (Emz : mz = mx).
    { apply Pos2Z.inj. rewrite Em. replace (ex - Z.min ex (fexp' (d + ex))) with 0 by lia.
      simpl. lia. }
    clear Es Em. subst ez mz.
    destruct (Z.eq_dec (fexp' (d + ex)) ex) as [Heq|Hne].
    + assert (Hc : canonical_mantissa prec emax mx ex = true)
        by (unfold canonical_mantissa; now apply Z.eqb_eq).
      exists mx, ex. split; [|split; trivial].
      * now apply binary_round_aux_canonical.
      * symmetry. apply RN_id; trivial. now apply canonical_repr.
    + apply binary_round_aux_shift; trivial. fold d. lia.
Qed.

Lemma binary_normalize_spec m e :
  emin' <= e ->
  let r := binary_normalize prec emax m e false in
  valid_binary prec emax r = true /\
  (is_finite r = true -> val' r = rn (m * 2 ^ (e - emin'))).
Proof.
  intros He r. subst r. unfold binary_normalize.
  destruct m as [|p|p].
  - split; trivial.
  - destruct (binary_round_spec false p e He) as (m' & e' & -> & Hc & Hv).
    destruct (e' <=? emax - prec) eqn:Hb; split; trivial; try discriminate.
    cbn [valid_binary]. unfold bounded. now rewrite Hc, Hb.
  - destruct (binary_round_spec true p e He) as (m' & e' & -> & Hc & Hv).
    destruct (e' <=? emax - prec) eqn:Hb; split; trivial; try discriminate.
    + cbn [valid_binary]. unfold bounded. now rewrite Hc, Hb.
    + intros _. cbn [val cond_Zopp]. rewrite Hv.
      change (Z.neg p) with (- Z.pos p). rewrite Z.mul_opp_l, RN_opp. reflexivity.
Qed.

Lemma finite_valid_emin s m e :
  finite_valid prec emax (S754_finite s m e) = true -> emin' <= e.
Proof.
  unfold finite_valid. cbn [is_finite valid_binary andb]. unfold bounded.
  intros H. apply andb_prop in H as [H _]. now apply canonical_emin in H.
Qed.

(** The value of a finite number of the type is representable. *)
Lemma finite_valid_repr x : finite_valid prec emax x = true -> repr prec (val' x).
Proof.
  destruct x as [s|s| |s m e]; try discriminate; intros H.
  - apply repr_0.
  - unfold finite_valid in H. cbn [is_finite valid_binary andb] in H.
    unfold bounded in H. apply andb_prop in H as [H _].
    apply canonical_repr in H. cbn [val].
    destruct s; cbn [cond_Zopp]; trivial. now apply repr_opp.
Qed.

Lemma val_finite s m e :
  val' (S754_finite s m e) = cond_Zopp s (Zpos m * 2 ^ (e - emin')).
Proof. reflexivity. Qed.

Lemma cond_Zopp_mul s a b : cond_Zopp s a * b = cond_Zopp s (a * b).
Proof. destruct s; cbn [cond_Zopp]; ring. Qed.

Lemma shl_align_val s m e e' :
  emin' <= e' -> e' <= e ->
  cond_Zopp s (Zpos (fst (shl_align m e e'))) * 2 ^ (e' - emin')
  = cond_Zopp s (Zpos m * 2 ^ (e - emin')).
Proof.
  intros H1 H2. destruct (shl_align_spec m e e') as [_ Em]. rewrite Em.
  replace (Z.min e e') with e' by lia.
  rewrite cond_Zopp_mul, <- Z.mul_assoc, <- Z.pow_add_r by lia.
  do 3 f_equal. lia.
Qed.

(** Finite sums and differences are rounded by [RN]. *)
Lemma SFadd_spec a b :
  finite_valid prec emax a = true -> finite_valid prec emax b = true ->
  valid_binary prec emax (SFadd prec emax a b) = true /\
  (is_finite (SFadd prec emax a b) = true ->
   val' (SFadd prec emax a b) = rn (val' a + val' b)).
Proof.
  intros Ha Hb.
  pose proof (finite_valid_repr a Ha) as Ra.
  pose proof (finite_valid_repr b Hb) as Rb.
  destruct a as [sa|sa| |sa ma ea]; try discriminate;
    destruct b as [sb|sb| |sb mb eb]; try discriminate.
  - cbn [SFadd]. destruct sa, sb; split; trivial.
  - cbn [SFadd]. split.
    + unfold finite_valid in Hb. now apply andb_prop in Hb as [_ Hb].
    + intros _. change (val' (S754_zero sa)) with 0. rewrite Z.add_0_l.
      symmetry. now apply RN_id.
  - cbn [SFadd]. split.
    + unfold finite_valid in Ha. now apply andb_prop in Ha as [_ Ha].
    + intros _. change (val' (S754_zero sb)) with 0. rewrite Z.add_0_r.
      symmetry. now apply RN_id.
  - pose proof (finite_valid_emin _ _ _ Ha) as Hea.
    pose proof (finite_valid_emin _ _ _ Hb) as Heb.
    cbn [SFadd].
    set (ez := Z.min ea eb).
    destruct (binary_normalize_spec
                (cond_Zopp sa (Zpos (fst (shl_align ma ea ez)))
                 + cond_Zopp sb (Zpos (fst (shl_align mb eb ez)))) ez ltac:(lia))
      as [Hv Hr].
    split; trivial. intros Hf. rewrite (Hr Hf).
    rewrite Z.mul_add_distr_r, !shl_align_val by lia. reflexivity.
Qed.

Lemma SFsub_spec a b :
  finite_valid prec emax a = true -> finite_valid prec emax b = true ->
  valid_binary prec emax (SFsub prec emax a b) = true /\
  (is_finite (SFsub prec emax a b) = true ->
   val' (SFsub prec emax a b) = rn (val' a - val' b)).
Proof.
  intros Ha Hb.
  pose proof (finite_valid_repr a Ha) as Ra.
  pose proof (finite_valid_repr b Hb) as Rb.
  destruct a as [sa|sa| |sa ma ea]; try discriminate;
    destruct b as [sb|sb| |sb mb eb]; try discriminate.
  - cbn [SFsub]. destruct sa, sb; split; trivial.
  - cbn [SFsub]. split.
    + unfold finite_valid in Hb. now apply andb_prop in Hb as [_ Hb].
    + intros _. change (val' (S754_zero sa)) with 0. rewrite Z.sub_0_l.
      rewrite RN_id by (now apply repr_opp).
      cbn [val]. destruct sb; cbn [negb cond_Zopp]; ring.
  - cbn [SFsub]. split.
    + unfold finite_valid in Ha. now apply andb_prop in Ha as [_ Ha].
    + intros _. change (val' (S754_zero sb)) with 0. rewrite Z.sub_0_r.
      symmetry. now apply RN_id.
  - pose proof (finite_valid_emin _ _ _ Ha) as Hea.
    pose proof (finite_valid_emin _ _ _ Hb) as Heb.
    cbn [SFsub].
    set (ez := Z.min ea eb).
    destruct (binary_normalize_spec
                (cond_Zopp sa (Zpos (fst (shl_align ma ea ez)))
                 - cond_Zopp sb (Zpos (fst (shl_align mb eb ez)))) ez ltac:(lia))
      as [Hv Hr].
    split; trivial. intros Hf. rewrite (Hr Hf).
    rewrite Z.mul_sub_distr_r, !shl_align_val by lia. reflexivity.
Qed.

(** An infinity or a NaN among the operands shows in the result. *)
Lemma SFadd_finite_inv a b :
  is_finite (SFadd prec emax a b) = true -> is_finite a = true /\ is_finite b = true.
Proof.
  destruct a as [sa|sa| |sa ma ea]; destruct b as [sb|sb| |sb mb eb];
    cbn [SFadd is_finite]; try (intros; split; trivial; discriminate);
    destruct sa, sb; cbn [is_finite]; intros; split; trivial; discriminate.
Qed.

Lemma SFsub_finite_inv a b :
  is_finite (SFsub prec emax a b) = true -> is_finite a = true /\ is_finite b = true.
Proof.
  destruct a as [sa|sa| |sa ma ea]; destruct b as [sb|sb| |sb mb eb];
    cbn [SFsub is_finite]; try (intros; split; trivial; discriminate);
    destruct sa, sb; cbn [is_finite negb]; intros; split; trivial; discriminate.
Qed.

Lemma finite_valid_intro x :
  is_finite x = true -> valid_binary prec emax x = true ->
  finite_valid prec emax x = true.
Proof. unfold finite_valid. now intros -> ->. Qed.

Lemma fadd_finite a b :
  fv a = true -> fv b = true -> is_finite (add a b) = true ->
  fv (add a b) = true /\ val' (add a b) = rn (val' a + val' b).
Proof.
  intros Ha Hb Hf. destruct (SFadd_spec a b Ha Hb) as [Hv Hr].
  split; [now apply finite_valid_intro|now apply Hr].
Qed.

Lemma fsub_finite a b :
  fv a = true -> fv b = true -> is_finite (sub a b) = true ->
  fv (sub a b) = true /\ val' (sub a b) = rn (val' a - val' b).
Proof.
  intros Ha Hb Hf. destruct (SFsub_spec a b Ha Hb) as [Hv Hr].
  split; [now apply finite_valid_intro|now apply Hr].
Qed.

Lemma fv_is_finite x : fv x = true -> is_finite x = true.
Proof. unfold finite_valid. intros H. now apply andb_prop in H. Qed.

(** [PlusTail]: when the tail is finite, no intermediate operation has
    overflowed and the tail is the exact rounding error of the sum. *)
Lemma PlusTail_exact a b :
  fv a = true -> fv b = true ->
  is_finite (PlusTail prec emax a b (add a b)) = true ->
  fv (add a b) = true /\ fv (PlusTail prec emax a b (add a b)) = true /\
  val' a + val' b = val' (add a b) + val' (PlusTail prec emax a b (add a b)).
Proof.
  intros Ha Hb. unfold PlusTail. cbv zeta.
  set (x := add a b).
  set (bv := sub x a). set (av := sub x bv).
  set (br := sub b bv). set (ar := sub a av).
  intros Hf.
  destruct (SFadd_finite_inv _ _ Hf) as [Far Fbr].
  destruct (SFsub_finite_inv _ _ Far) as [_ Fav].
  destruct (SFsub_finite_inv _ _ Fav) as [Fx Fbv].
  destruct (fadd_finite a b Ha Hb Fx) as [Vx Ex]. fold x in Vx, Ex.
  destruct (fsub_finite x a Vx Ha Fbv) as [Vbv Ebv]. fold bv in Vbv, Ebv.
  destruct (fsub_finite x bv Vx Vbv Fav) as [Vav Eav]. fold av in Vav, Eav.
  destruct (fsub_finite b bv Hb Vbv Fbr) as [Vbr Ebr]. fold br in Vbr, Ebr.
  destruct (fsub_finite a av Ha Vav Far) as [Var Ear]. fold ar in Var, Ear.
  destruct (fadd_finite ar br Var Vbr Hf) as [Vt Et].
  repeat split; trivial.
  rewrite Et, Ear, Ebr, Eav, Ebv, Ex. symmetry.
  apply two_sum_exact; trivial; now apply finite_valid_repr.
Qed.

(** [FastPlusTail], for a first operand that reaches at least as high as
    the second. *)
Lemma FastPlusTail_exact a b :
  fv a = true -> fv b = true ->
  Z.abs (val' b) <= Z.abs (val' a) ->
  is_finite (FastPlusTail prec emax a b (add a b)) = true ->
  fv (add a b) = true /\ fv (FastPlusTail prec emax a b (add a b)) = true /\
  val' a + val' b = val' (add a b) + val' (FastPlusTail prec emax a b (add a b)).
Proof.
  intros Ha Hb Hab. unfold FastPlusTail. cbv zeta.
  set (x := add a b). set (bv := sub x a).
  intros Hf.
  destruct (SFsub_finite_inv _ _ Hf) as [_ Fbv].
  destruct (SFsub_finite_inv _ _ Fbv) as [Fx _].
  destruct (fadd_finite a b Ha Hb Fx) as [Vx Ex]. fold x in Vx, Ex.
  destruct (fsub_finite x a Vx Ha Fbv) as [Vbv Ebv]. fold bv in Vbv, Ebv.
  destruct (fsub_finite b bv Hb Vbv Hf) as [Vt Et].
  repeat split; trivial.
  rewrite Et, Ebv, Ex. symmetry.
  apply fast_two_sum_exact; trivial; try now apply finite_valid_repr.
  now apply ulpe_mono.
Qed.

(** Components that are compared equal to zero are zeros. *)
Lemma feq_zero_inv v : feq zero v = true -> exists s, v = S754_zero s.
Proof.
  destruct v as [s|s| |s m e].
  - now exists s.
  - destruct s; discriminate.
  - discriminate.
  - destruct s; discriminate.
Qed.

Lemma keep_cases v : keep v = [v] \/ (keep v = [] /\ exists s, v = S754_zero s).
Proof.
  unfold keep, fne. destruct (SFeqb zero v) eqn:E.
  - right. split; [reflexivity|apply feq_zero_inv, E].
  - left. reflexivity.
Qed.

Lemma sum_val_cons x e : sum_val prec emax (x :: e) = val' x + sum_val prec emax e.
Proof. reflexivity. Qed.

Lemma sum_val_app e f :
  sum_val prec emax (e ++ f) = sum_val prec emax e + sum_val prec emax f.
Proof.
  induction e as [|x e IH]; [reflexivity|].
  rewrite <- app_comm_cons, !sum_val_cons, IH. ring.
Qed.

Lemma keep_sum v : sum_val prec emax (keep v) = val' v.
Proof.
  destruct (keep_cases v) as [->|[-> [s ->]]]; cbn; lia.
Qed.

Lemma keep_finite v l :
  forallb is_finite (keep v ++ l) = true ->
  is_finite v = true /\ forallb is_finite l = true.
Proof.
  destruct (keep_cases v) as [->|[-> [s ->]]]; cbn [app forallb].
  - intros H. now apply andb_prop in H.
  - intros H. now split.
Qed.

Lemma keep_length v : (length (keep v) <= 1)%nat.
Proof. unfold keep. destruct (fne zero v); simpl; lia. Qed.

(** ** Magnitudes of canonical numbers *)

Lemma fv_canonical s m e :
  fv (S754_finite s m e) = true -> canonical_mantissa prec emax m e = true.
Proof.
  unfold finite_valid. cbn [is_finite valid_binary andb]. unfold bounded.
  intros H. now apply andb_prop in H.
Qed.

Lemma abs_val_finite s m e :
  Z.abs (val' (S754_finite s m e)) = Zpos m * 2 ^ (e - emin prec emax).
Proof.
  cbn [val]. pose proof (Z.pow_nonneg 2 (e - emin prec emax) ltac:(lia)).
  destruct s; cbn [cond_Zopp]; [rewrite Z.abs_opp|]; apply Z.abs_eq; nia.
Qed.

Lemma canonical_lt m1 e1 m2 e2 :
  canonical_mantissa prec emax m1 e1 = true ->
  canonical_mantissa prec emax m2 e2 = true ->
  e1 < e2 ->
  Zpos m1 * 2 ^ (e1 - emin prec emax) < Zpos m2 * 2 ^ (e2 - emin prec emax).
Proof.
  intros H1 H2 Hlt.
  pose proof (canonical_emin _ _ H1) as He1.
  unfold canonical_mantissa, fexp in H1, H2.
  apply Z.eqb_eq in H1. apply Z.eqb_eq in H2.
  rewrite digits2_pos_log2 in H1, H2.
  pose proof (Z.log2_spec (Zpos m1) ltac:(lia)) as [_ Hhi].
  pose proof (Z.log2_spec (Zpos m2) ltac:(lia)) as [Hlo _].
  assert (E2 : Z.log2 (Zpos m2) = prec - 1) by lia. rewrite E2 in Hlo.
  assert (Hm1 : Zpos m1 < 2 ^ prec).
  { eapply Z.lt_le_trans; [exact Hhi|]. apply pow2_le. pose proof (Z.log2_nonneg (Zpos m1)). lia. }
  set (k1 := e1 - emin prec emax) in *. set (k2 := e2 - emin prec emax) in *.
  assert (Hk : 0 <= k1 < k2) by (unfold k1, k2; lia).
  pose proof (pow2_gt0 k1 ltac:(lia)).
  pose proof (pow2_gt0 (prec - 1) ltac:(lia)).
  assert (E : 2 ^ k2 = 2 ^ (k2 - k1 - 1) * (2 * 2 ^ k1)).
  { rewrite <- pow2_succ, <- Z.pow_add_r by lia. f_equal. lia. }
  assert (Ep : 2 ^ prec = 2 * 2 ^ (prec - 1)).
  { rewrite <- pow2_succ by lia. f_equal. lia. }
  pose proof (pow2_gt0 (k2 - k1 - 1) ltac:(lia)).
  rewrite E. nia.
Qed.

(** The comparator of the merge orders finite numbers by magnitude. *)
Lemma flt_abs_spec a b :
  fv a = true -> fv b = true ->
  flt (fabs b) (fabs a) = (Z.abs (val' b) <? Z.abs (val' a)).
Proof.
  intros Ha Hb. unfold flt, fabs, SFltb.
  destruct a as [sa|sa| |sa ma ea]; try discriminate;
    destruct b as [sb|sb| |sb mb eb]; try discriminate.
  - reflexivity.
  - cbn [SFabs SFcompare]. rewrite abs_val_finite. cbn [val Z.abs].
    symmetry. apply Z.ltb_ge.
    pose proof (Z.pow_nonneg 2 (eb - emin prec emax) ltac:(lia)). nia.
  - cbn [SFabs SFcompare]. rewrite abs_val_finite. cbn [val Z.abs].
    symmetry. apply Z.ltb_lt.
    pose proof (finite_valid_emin _ _ _ Ha).
    pose proof (pow2_gt0 (ea - emin prec emax) ltac:(lia)). nia.
  - pose proof (fv_canonical _ _ _ Ha) as Ca. pose proof (fv_canonical _ _ _ Hb) as Cb.
    pose proof (finite_valid_emin _ _ _ Ha) as Hea.
    cbn [SFabs SFcompare]. rewrite !abs_val_finite.
    destruct (Z.compare_spec eb ea) as [E|L|G].
    + subst eb. fold (Pos.compare mb ma).
      pose proof (pow2_gt0 (ea - emin prec emax) ltac:(lia)).
      destruct (Pos.compare_spec mb ma) as [E|L|G]; symmetry.
      * subst. apply Z.ltb_irrefl.
      * apply Z.ltb_lt. nia.
      * apply Z.ltb_ge. nia.
    + symmetry. apply Z.ltb_lt. now apply canonical_lt.
    + symmetry. apply Z.ltb_ge. apply Z.lt_le_incl. now apply canonical_lt.
Qed.

Lemma ctz_pos_nonneg m : 0 <= ctz_pos m.
Proof. induction m; cbn [ctz_pos]; lia. Qed.

Lemma ctz_pos_divide m : (2 ^ ctz_pos m | Zpos m).
Proof.
  induction m as [m IH|m IH|].
  - exists (Zpos m~1). change (ctz_pos m~1) with 0. rewrite Z.pow_0_r. ring.
  - destruct IH as [q Hq]. exists q.
    change (ctz_pos m~0) with (1 + ctz_pos m).
    pose proof (ctz_pos_nonneg m).
    rewrite Pos2Z.inj_xO, Hq, Z.pow_add_r, Z.pow_1_r by lia. ring.
  - exists 1. reflexivity.
Qed.

(** A finite number lies strictly below the bit after its leading bit,
    and is a multiple of its last bit. *)
Lemma abs_val_lt_msb x :
  finite_nonzero prec emax x = true -> Z.abs (val' x) < 2 ^ (expo' (msb x) + 1).
Proof.
  destruct x as [s|s| |s m e]; try discriminate. intros H.
  assert (Hf : fv (S754_finite s m e) = true) by exact H.
  pose proof (finite_valid_emin _ _ _ Hf) as He.
  rewrite abs_val_finite. unfold expo in *. cbn [msb].
  rewrite digits2_pos_log2.
  pose proof (Z.log2_spec (Zpos m) ltac:(lia)) as [_ Hhi].
  pose proof (Z.log2_nonneg (Zpos m)).
  replace (e + (Z.log2 (Zpos m) + 1) - 1 - emin prec emax + 1)
    with (Z.succ (Z.log2 (Zpos m)) + (e - emin prec emax)) by lia.
  rewrite Z.pow_add_r by lia.
  pose proof (pow2_gt0 (e - emin prec emax) ltac:(lia)). nia.
Qed.

Lemma val_divide_lsb x :
  finite_nonzero prec emax x = true -> (2 ^ expo' (lsb x) | val' x).
Proof.
  destruct x as [s|s| |s m e]; try discriminate. intros H.
  assert (Hf : fv (S754_finite s m e) = true) by exact H.
  pose proof (finite_valid_emin _ _ _ Hf) as He.
  pose proof (ctz_pos_nonneg m).
  unfold expo in *. cbn [lsb val].
  replace (e + ctz_pos m - emin prec emax) with (ctz_pos m + (e - emin prec emax)) by lia.
  rewrite Z.pow_add_r by lia.
  assert (D : (2 ^ ctz_pos m * 2 ^ (e - emin prec emax) | Zpos m * 2 ^ (e - emin prec emax))).
  { apply Z.mul_divide_mono_r, ctz_pos_divide. }
  destruct s; cbn [cond_Zopp]; trivial. now apply Z.divide_opp_r.
Qed.

Lemma val_nonzero x : finite_nonzero prec emax x = true -> val' x <> 0.
Proof.
  destruct x as [s|s| |s m e]; try discriminate. intros H.
  assert (Hf : fv (S754_finite s m e) = true) by exact H.
  pose proof (finite_valid_emin _ _ _ Hf) as He.
  pose proof (abs_val_finite s m e) as E.
  pose proof (pow2_gt0 (e - emin prec emax) ltac:(lia)). nia.
Qed.

Lemma expo_lsb_nonneg x : finite_nonzero prec emax x = true -> 0 <= expo' (lsb x).
Proof.
  destruct x as [s|s| |s m e]; try discriminate. intros H.
  assert (Hf : fv (S754_finite s m e) = true) by exact H.
  pose proof (finite_valid_emin _ _ _ Hf) as He.
  pose proof (ctz_pos_nonneg m). unfold expo in *. cbn [lsb]. lia.
Qed.

Lemma abs_val_ge_lsb x :
  finite_nonzero prec emax x = true -> 2 ^ expo' (lsb x) <= Z.abs (val' x).
Proof.
  intros H. pose proof (val_divide_lsb x H) as [q Hq].
  pose proof (val_nonzero x H). pose proof (pow2_gt0 _ (expo_lsb_nonneg x H)).
  rewrite Hq in *. rewrite Z.abs_mul.
  assert (q <> 0) by (intros ->; lia).
  rewrite (Z.abs_eq (2 ^ _)) by lia. assert (1 <= Z.abs q) by lia. nia.
Qed.

Lemma finite_nonzero_fv x : finite_nonzero prec emax x = true -> fv x = true.
Proof. destruct x; try discriminate. intros H; exact H. Qed.

Lemma merge_nil_r e : merge e [] = e.
Proof. now destruct e. Qed.

Lemma merge_cons a e b f :
  merge (a :: e) (b :: f) =
  if flt (fabs b) (fabs a) then b :: merge (a :: e) f else a :: merge e (b :: f).
Proof. reflexivity. Qed.

Lemma merge_sum e f : sumv (merge e f) = sumv e + sumv f.
Proof.
  revert f. induction e as [|a e IHe]; intros f; [reflexivity|].
  induction f as [|b f IHf]; [rewrite merge_nil_r; cbn; lia|].
  rewrite merge_cons. destruct (flt _ _).
  - rewrite sum_val_cons, IHf, !sum_val_cons. ring.
  - rewrite sum_val_cons, IHe, !sum_val_cons. ring.
Qed.

Lemma merge_length e f : length (merge e f) = (length e + length f)%nat.
Proof.
  revert f. induction e as [|a e IHe]; intros f; [reflexivity|].
  induction f as [|b f IHf]; [rewrite merge_nil_r; cbn; lia|].
  rewrite merge_cons. destruct (flt _ _); cbn [length].
  - rewrite IHf. cbn [length]. lia.
  - rewrite IHe. cbn [length]. lia.
Qed.

Lemma merge_forallb (P : spec_float -> bool) e f :
  forallb P e = true -> forallb P f = true -> forallb P (merge e f) = true.
Proof.
  revert f. induction e as [|a e IHe]; intros f He Hf; [exact Hf|].
  induction f as [|b f IHf]; [now rewrite merge_nil_r|].
  rewrite merge_cons.
  cbn [forallb] in He, Hf. apply andb_prop in He as [Ha He], Hf as [Hb Hf].
  destruct (flt _ _); cbn [forallb]; apply andb_true_intro; split; trivial.
  - apply IHf; trivial.
  - apply IHe; trivial. cbn [forallb]. now rewrite Hb, Hf.
Qed.

Lemma merge_head_sorted e f :
  forallb fv e = true -> forallb fv f = true ->
  head_sorted prec emax e -> head_sorted prec emax f -> head_sorted prec emax (merge e f).
Proof.
  intros He Hf Se Sf.
  destruct e as [|a e]; [exact Sf|].
  destruct f as [|b f]; [now rewrite merge_nil_r|].
  cbn [forallb] in He, Hf. apply andb_prop in He as [Ha He], Hf as [Hb Hf].
  rewrite merge_cons, (flt_abs_spec a b Ha Hb).
  destruct (Z.ltb_spec (Z.abs (val' b)) (Z.abs (val' a))) as [L|L].
  - destruct f as [|b' f]; [rewrite merge_nil_r; cbn [head_sorted]; lia|].
    rewrite merge_cons. cbn [head_sorted] in Sf.
    destruct (flt _ _); cbn [head_sorted]; lia.
  - destruct e as [|a' e]; [cbn [merge head_sorted]; lia|].
    rewrite merge_cons. cbn [head_sorted] in Se.
    destruct (flt _ _); cbn [head_sorted]; lia.
Qed.

(** Stored components that are finite account exactly for the running
    sum and for the input that is left. *)
Lemma sum_loop_exact hs : forall Q,
  fv Q = true -> forallb fv hs = true ->
  forallb is_finite (sum_loop prec emax Q hs) = true ->
  sumv (sum_loop prec emax Q hs) = val' Q + sumv hs.
Proof.
  induction hs as [|hg hs IH]; intros Q HQ Hhs Hf.
  - cbn [sum_loop]. rewrite keep_sum. cbn. lia.
  - cbn [sum_loop] in *. cbv zeta in *.
    cbn [forallb] in Hhs. apply andb_prop in Hhs as [Hg Hhs].
    apply keep_finite in Hf as [Fhh Hf].
    destruct (PlusTail_exact Q hg HQ Hg Fhh) as (VQ & _ & E).
    rewrite sum_val_app, keep_sum, (IH _ VQ Hhs Hf), sum_val_cons.
    fold (fadd prec emax Q hg). lia.
Qed.

Lemma sum_loop_length hs : forall Q,
  (length (sum_loop prec emax Q hs) <= length hs + 1)%nat.
Proof.
  induction hs as [|hg hs IH]; intros Q; cbn [sum_loop length].
  - apply keep_length.
  - cbv zeta. rewrite length_app. specialize (IH (fadd prec emax Q hg)).
    pose proof (keep_length (PlusTail prec emax Q hg (fadd prec emax Q hg))). lia.
Qed.

Lemma ExpansionSum_length e f :
  (length (ExpansionSum prec emax e f) <= length e + length f)%nat.
Proof.
  unfold ExpansionSum. pose proof (merge_length e f) as Hl.
  destruct f as [|b f]; [lia|]. destruct e as [|a e]; [cbn; lia|].
  destruct (merge (a :: e) (b :: f)) as [|h0 [|h1 hs]]; cbn [length] in *; try lia.
  cbv zeta. rewrite length_app.
  pose proof (sum_loop_length hs (fadd prec emax h1 h0)).
  pose proof (keep_length (FastPlusTail prec emax h1 h0 (fadd prec emax h1 h0))). lia.
Qed.

Lemma ExpansionSum_exact e f :
  forallb fv e = true -> forallb fv f = true ->
  head_sorted prec emax e -> head_sorted prec emax f ->
  forallb is_finite (ExpansionSum prec emax e f) = true ->
  sumv (ExpansionSum prec emax e f) = sumv e + sumv f.
Proof.
  intros He Hf Se Sf. unfold ExpansionSum.
  pose proof (merge_sum e f) as Hs.
  pose proof (merge_forallb fv e f He Hf) as Hv.
  pose proof (merge_head_sorted e f He Hf Se Sf) as Hh.
  destruct f as [|b f]; [cbn; lia|]. destruct e as [|a e]; [cbn; lia|].
  destruct (merge (a :: e) (b :: f)) as [|h0 [|h1 hs]]; [intros _; exact Hs..|].
  cbv zeta. intros Hfin.
  cbn [forallb] in Hv. apply andb_prop in Hv as [V0 Hv]. apply andb_prop in Hv as [V1 Hv].
  cbn [head_sorted] in Hh.
  apply keep_finite in Hfin as [Fhh Hfin].
  destruct (FastPlusTail_exact h1 h0 V1 V0 Hh Fhh) as (VQ & _ & E).
  rewrite sum_val_app, keep_sum, (sum_loop_exact hs _ VQ Hv Hfin).
  rewrite <- Hs, !sum_val_cons. fold (fadd prec emax h1 h0). lia.
Qed.

(** A valid expansion has finite components, the first two in order. *)
Lemma valid_expansion_fv e : valid_expansion prec emax e = true -> forallb fv e = true.
Proof.
  unfold valid_expansion. intros H. apply andb_prop in H as [H _].
  induction e as [|x e IH]; trivial.
  cbn [forallb] in *. apply andb_prop in H as [Hx H].
  rewrite (finite_nonzero_fv x Hx). now apply IH.
Qed.

Lemma nonoverlapping_lt x y :
  finite_nonzero prec emax x = true -> finite_nonzero prec emax y = true ->
  (msb x <? lsb y) = true ->
  Z.abs (val' x) < 2 ^ expo' (lsb y).
Proof.
  intros Hx Hy Hlt. apply Z.ltb_lt in Hlt.
  eapply Z.lt_le_trans; [apply (abs_val_lt_msb x Hx)|].
  apply pow2_le. pose proof (abs_val_lt_msb x Hx) as B.
  unfold expo in *. split; [|lia].
  destruct (Z_lt_le_dec (msb x - emin prec emax + 1) 0) as [N|]; [|lia].
  rewrite Z.pow_neg_r in B by lia. lia.
Qed.

Lemma valid_expansion_head_sorted e :
  valid_expansion prec emax e = true -> head_sorted prec emax e.
Proof.
  unfold valid_expansion. intros H. apply andb_prop in H as [Hf Hn].
  destruct e as [|x [|y e]]; cbn [head_sorted]; trivial.
  cbn [forallb] in Hf. apply andb_prop in Hf as [Hx Hf]. apply andb_prop in Hf as [Hy _].
  cbn [nonoverlapping] in Hn. apply andb_prop in Hn as [Hlt _].
  pose proof (nonoverlapping_lt x y Hx Hy Hlt).
  pose proof (abs_val_ge_lsb y Hy). lia.
Qed.

(** * The most significant component of a valid expansion *)

Lemma ctz_lt_digits m : ctz_pos m < Zpos (digits2_pos m).
Proof.
  induction m as [m IH|m IH|]; cbn [ctz_pos digits2_pos]; lia.
Qed.

Lemma nonoverlapping_snoc_inv e u y :
  nonoverlapping (e ++ [u; y]) = true ->
  nonoverlapping (e ++ [u]) = true /\ (msb u <? lsb y) = true.
Proof.
  induction e as [|x e IH].
  - cbn. intros H. apply andb_prop in H as [H _]. now split.
  - destruct e as [|z e].
    + cbn. intros H. apply andb_prop in H as [H1 H2].
      apply andb_prop in H2 as [H2 _]. rewrite H1. now split.
    + change (nonoverlapping ((x :: z :: e) ++ [u; y]))
        with ((msb x <? lsb z) && nonoverlapping ((z :: e) ++ [u; y])).
      change (nonoverlapping ((x :: z :: e) ++ [u]))
        with ((msb x <? lsb z) && nonoverlapping ((z :: e) ++ [u])).
      intros H. apply andb_prop in H as [H1 H2].
      destruct (IH H2) as [H3 H4]. rewrite H1, H3. now split.
Qed.

Lemma valid_expansion_snoc_inv e u y :
  valid_expansion prec emax (e ++ [u; y]) = true ->
  valid_expansion prec emax (e ++ [u]) = true /\ (msb u <? lsb y) = true
  /\ finite_nonzero prec emax y = true.
Proof.
  unfold valid_expansion. intros H. apply andb_prop in H as [Hf Hn].
  apply nonoverlapping_snoc_inv in Hn as [Hn Hlt].
  rewrite forallb_app in Hf. apply andb_prop in Hf as [Hf1 Hf2].
  cbn [forallb] in Hf2. apply andb_prop in Hf2 as [Hu Hf2].
  apply andb_prop in Hf2 as [Hy _].
  rewrite forallb_app, Hf1, Hn. cbn [forallb]. rewrite Hu. now repeat split.
Qed.

Lemma valid_expansion_last e y :
  valid_expansion prec emax (e ++ [y]) = true -> finite_nonzero prec emax y = true.
Proof.
  unfold valid_expansion. intros H. apply andb_prop in H as [Hf _].
  rewrite forallb_app in Hf. apply andb_prop in Hf as [_ Hf].
  cbn [forallb] in Hf. now apply andb_prop in Hf as [Hf _].
Qed.

(** Everything below the last component of a valid expansion sums to less
    than the last place of that component. *)
Lemma below_last_bound e : forall y,
  valid_expansion prec emax (e ++ [y]) = true ->
  Z.abs (sumv e) < 2 ^ expo' (lsb y).
Proof.
  induction e as [|u e IH] using rev_ind; intros y Hv.
  - cbn. apply pow2_gt0. apply expo_lsb_nonneg. now apply (valid_expansion_last []).
  - rewrite <- app_assoc in Hv. cbn [app] in Hv.
    apply valid_expansion_snoc_inv in Hv as (Hv & Hlt & Hy).
    pose proof (valid_expansion_last _ _ Hv) as Hu.
    specialize (IH u Hv).
    rewrite sum_val_app, sum_val_cons. change (sumv []) with 0. rewrite Z.add_0_r.
    pose proof (abs_val_lt_msb u Hu) as Bu.
    pose proof (val_divide_lsb u Hu) as [q Hq].
    pose proof (expo_lsb_nonneg u Hu) as H0.
    apply Z.ltb_lt in Hlt.
    assert (Hlm : expo' (lsb u) < expo' (msb u) + 1).
    { destruct u as [s|s| |s m e']; try discriminate.
      pose proof (ctz_lt_digits m). unfold expo. cbn [lsb msb]. lia. }
    pose proof (pow2_le (expo' (msb u) + 1) (expo' (lsb y)) ltac:(unfold expo in *; lia)) as Hle.
    assert (E : 2 ^ (expo' (msb u) + 1)
                = 2 ^ (expo' (msb u) + 1 - expo' (lsb u)) * 2 ^ expo' (lsb u)).
    { rewrite <- Z.pow_add_r by lia. f_equal. lia. }
    pose proof (pow2_gt0 (expo' (lsb u)) H0).
    pose proof (pow2_gt0 (expo' (msb u) + 1 - expo' (lsb u)) ltac:(lia)).
    set (P := 2 ^ expo' (lsb u)) in *.
    set (R := 2 ^ (expo' (msb u) + 1 - expo' (lsb u))) in *.
    assert (Z.abs (val' u) <= (R - 1) * P).
    { rewrite Hq, E in *. rewrite Z.abs_mul, (Z.abs_eq P) in * by lia.
      assert (Z.abs q < R) by nia. nia. }
    lia.
Qed.

(** The sign of the most significant component is the sign of the sum. *)
Lemma mostSignificant_sign e :
  valid_expansion prec emax e = true ->
  fsign (mostSignificant e) = Some (Z.sgn (sumv e)).
Proof.
  intros Hv. unfold mostSignificant.
  destruct e as [|t e0 _] using rev_ind; [reflexivity|].
  rewrite last_last.
  pose proof (below_last_bound e0 t Hv) as B.
  pose proof (valid_expansion_last _ _ Hv) as Ht.
  pose proof (abs_val_ge_lsb t Ht) as G.
  rewrite sum_val_app, sum_val_cons. change (sumv []) with 0. rewrite Z.add_0_r.
  destruct t as [s|s| |s m e']; try discriminate.
  cbn [fsign]. f_equal.
  pose proof (abs_val_finite s m e') as A. rewrite A in G.
  cbn [val] in *.
  destruct s; cbn [cond_Zopp] in *; symmetry.
  - apply Z.sgn_neg. lia.
  - apply Z.sgn_pos. lia.
Qed.

(** * The claims on the expansion arithmetic *)

(** C8 (amended): for finite [a] and [b], when the tail that
    [PlusTail a b (a + b)] computes is finite (no intermediate difference
    has overflowed), the rounded sum is finite too, the identity
    [a + b = x + tail] holds exactly, and [Plus a b] has at most two
    components whose exact sum is [a + b].  Nothing is asked of the order
    of the operands. *)
Theorem PlusTail_exact_when_tail_finite a b :
  fv a = true -> fv b = true ->
  is_finite (PlusTail prec emax a b (add a b)) = true ->
  is_finite (add a b) = true
  /\ val' a + val' b = val' (add a b) + val' (PlusTail prec emax a b (add a b))
  /\ (length (Plus prec emax a b) <= 2)%nat
  /\ sumv (Plus prec emax a b) = val' a + val' b.
Proof.
  intros Ha Hb Hf.
  destruct (PlusTail_exact a b Ha Hb Hf) as (Hx & _ & E).
  split; [now apply fv_is_finite|]. split; [exact E|].
  change (Plus prec emax a b)
    with (keep (PlusTail prec emax a b (add a b)) ++ keep (add a b)).
  split.
  - rewrite length_app.
    pose proof (keep_length (PlusTail prec emax a b (add a b))).
    pose proof (keep_length (add a b)). lia.
  - rewrite sum_val_app, !keep_sum. lia.
Qed.

(** X24: for valid non-overlapping expansions [e] and [f], strongly so
    or not, when no component of [ExpansionSum e f] has overflowed, the
    output has at most [length e + length f] components and its exact
    sum is the sum of [e] plus the sum of [f]: no information is lost,
    even when the output overlaps. *)
Theorem ExpansionSum_valid_inputs e f :
  valid_expansion prec emax e = true ->
  valid_expansion prec emax f = true ->
  forallb is_finite (ExpansionSum prec emax e f) = true ->
  (length (ExpansionSum prec emax e f) <= length e + length f)%nat
  /\ sumv (ExpansionSum prec emax e f) = sumv e + sumv f.
Proof.
  intros He Hf Hfin. split; [apply ExpansionSum_length|].
  apply ExpansionSum_exact; auto using valid_expansion_fv,
    valid_expansion_head_sorted.
Qed.

Lemma unit_inv_pos : 0 < unit_inv prec emax.
Proof.
  unfold unit_inv, emin. apply pow2_gt0. lia.
Qed.

Lemma exact_eval_mostSignificant use_fma q :
  exact_eval prec emax use_fma q
  = mostSignificant (exact_expansion prec emax use_fma q).
Proof.
  destruct q as [pa pb pc|pa pb pc pd|pa pb pc pd|pa pb pc pd pe];
    cbv beta iota delta [exact_eval exact_expansion].
  - exact (eq_refl (mostSignificant
             (exact_orient2d_expansion prec emax use_fma pa pb pc))).
  - exact (eq_refl (mostSignificant
             (exact_incircle_expansion prec emax use_fma pa pb pc pd))).
  - exact (eq_refl (mostSignificant
             (exact_orient3d_expansion prec emax use_fma pa pb pc pd))).
  - exact (eq_refl (mostSignificant
             (exact_insphere_expansion prec emax use_fma pa pb pc pd pe))).
Qed.


(** * Further properties of the expansion arithmetic *)

Lemma val_fneg x : val' (fneg x) = - val' x.
Proof.
  destruct x as [s|s| |s m e]; try reflexivity.
  unfold fneg. cbn [SFopp val]. destruct s; cbn [negb cond_Zopp]; lia.
Qed.

Lemma fv_fneg x : fv (fneg x) = fv x.
Proof. now destruct x as [s|s| |s m e]. Qed.

(** [MinusTail]: when the tail is finite, it is the exact rounding error
    of the difference. *)
Lemma MinusTail_exact a b :
  fv a = true -> fv b = true ->
  is_finite (MinusTail prec emax a b (sub a b)) = true ->
  fv (sub a b) = true /\ fv (MinusTail prec emax a b (sub a b)) = true /\
  val' a - val' b = val' (sub a b) + val' (MinusTail prec emax a b (sub a b)).
Proof.
  intros Ha Hb. unfold MinusTail. cbv zeta.
  set (x := sub a b).
  set (bv := sub a x). set (av := add x bv).
  set (br := sub bv b). set (ar := sub a av).
  intros Hf.
  destruct (SFadd_finite_inv _ _ Hf) as [Far Fbr].
  destruct (SFsub_finite_inv _ _ Far) as [_ Fav].
  destruct (SFadd_finite_inv _ _ Fav) as [Fx Fbv].
  destruct (fsub_finite a b Ha Hb Fx) as [Vx Ex]. fold x in Vx, Ex.
  destruct (fsub_finite a x Ha Vx Fbv) as [Vbv Ebv]. fold bv in Vbv, Ebv.
  destruct (fadd_finite x bv Vx Vbv Fav) as [Vav Eav]. fold av in Vav, Eav.
  destruct (fsub_finite bv b Vbv Hb Fbr) as [Vbr Ebr]. fold br in Vbr, Ebr.
  destruct (fsub_finite a av Ha Vav Far) as [Var Ear]. fold ar in Var, Ear.
  destruct (fadd_finite ar br Var Vbr Hf) as [Vt Et].
  repeat split; trivial.
  rewrite Et, Ear, Ebr, Eav, Ebv, Ex.
  pose proof (two_sum_exact (val' a) (- val' b)
                (finite_valid_repr a Ha)
                (repr_opp (val' b) (finite_valid_repr b Hb))) as H.
  cbv zeta in H.
  replace (val' a + - val' b) with (val' a - val' b) in H by lia.
  replace (rn (val' a - val' b) - val' a)
    with (- (val' a - rn (val' a - val' b))) in H by lia.
  rewrite RN_opp in H.
  replace (rn (val' a - val' b) - - rn (val' a - rn (val' a - val' b)))
    with (rn (val' a - val' b) + rn (val' a - rn (val' a - val' b))) in H by lia.
  replace (- val' b - - rn (val' a - rn (val' a - val' b)))
    with (rn (val' a - rn (val' a - val' b)) - val' b) in H by lia.
  lia.
Qed.

(** The sum of two finite numbers is finite or an infinity, never a NaN. *)
Lemma binary_normalize_shape m e :
  emin' <= e ->
  is_finite (binary_normalize prec emax m e false) = true
  \/ exists s, binary_normalize prec emax m e false = S754_infinity s.
Proof.
  intros He. destruct m as [|p|p]; cbn [binary_normalize].
  - now left.
  - destruct (binary_round_spec false p e He) as (m' & e' & -> & _).
    destruct (e' <=? emax - prec); [now left|right; eauto].
  - destruct (binary_round_spec true p e He) as (m' & e' & -> & _).
    destruct (e' <=? emax - prec); [now left|right; eauto].
Qed.

Lemma fadd_shape a b :
  fv a = true -> fv b = true ->
  is_finite (add a b) = true \/ exists s, add a b = S754_infinity s.
Proof.
  intros Ha Hb. unfold fadd.
  destruct a as [sa|sa| |sa ma ea]; try discriminate;
    destruct b as [sb|sb| |sb mb eb]; try discriminate; cbn [SFadd].
  - left. now destruct sa, sb.
  - now left.
  - now left.
  - apply binary_normalize_shape.
    pose proof (finite_valid_emin _ _ _ Ha). pose proof (finite_valid_emin _ _ _ Hb).
    lia.
Qed.

(** X1: [FastPlusTail] is the exact rounding error when the first operand
    is at least as large in magnitude as the second. *)
Theorem FastPlusTail_is_rounding_error a b :
  fv a = true -> fv b = true ->
  Z.abs (val' b) <= Z.abs (val' a) ->
  is_finite (FastPlusTail prec emax a b (add a b)) = true ->
  is_finite (add a b) = true
  /\ val' a + val' b
     = val' (add a b) + val' (FastPlusTail prec emax a b (add a b)).
Proof.
  intros Ha Hb Hab Hf.
  destruct (FastPlusTail_exact a b Ha Hb Hab Hf) as (Hx & _ & E).
  split; [now apply fv_is_finite|exact E].
Qed.

(** X2: [MinusTail] is the exact rounding error of a difference, whenever
    the tail it computes is finite. *)
Theorem MinusTail_is_rounding_error a b :
  fv a = true -> fv b = true ->
  is_finite (MinusTail prec emax a b (sub a b)) = true ->
  is_finite (sub a b) = true
  /\ val' a - val' b
     = val' (sub a b) + val' (MinusTail prec emax a b (sub a b)).
Proof.
  intros Ha Hb Hf.
  destruct (MinusTail_exact a b Ha Hb Hf) as (Hx & _ & E).
  split; [now apply fv_is_finite|exact E].
Qed.

(** X3: [Minus a b] is an expansion of at most two components, none of
    them a zero, whose exact sum is [a - b], whenever the tail is finite. *)
Theorem Minus_is_exact a b :
  fv a = true -> fv b = true ->
  forallb is_finite (Minus prec emax a b) = true ->
  (length (Minus prec emax a b) <= 2)%nat
  /\ sumv (Minus prec emax a b) = val' a - val' b.
Proof.
  intros Ha Hb Hf.
  change (Minus prec emax a b)
    with (keep (PlusTail prec emax a (fneg b) (add a (fneg b)))
          ++ keep (add a (fneg b))) in *.
  apply keep_finite in Hf as [Ht _].
  assert (Hb' : fv (fneg b) = true) by now rewrite fv_fneg.
  destruct (PlusTail_exact a (fneg b) Ha Hb' Ht) as (_ & _ & E).
  rewrite val_fneg in E.
  split.
  - rewrite length_app.
    pose proof (keep_length (PlusTail prec emax a (fneg b) (add a (fneg b)))).
    pose proof (keep_length (add a (fneg b))). lia.
  - rewrite sum_val_app, !keep_sum. lia.
Qed.

(** X4: when the rounded sum of two finite numbers overflows, [PlusTail]
    returns a NaN: an overflow never yields a finite tail. *)
Theorem PlusTail_of_overflow_is_nan a b :
  fv a = true -> fv b = true ->
  is_finite (add a b) = false ->
  PlusTail prec emax a b (add a b) = S754_nan.
Proof.
  intros Ha Hb Hx.
  destruct (fadd_shape a b Ha Hb) as [H|[s H]]; [congruence|].
  unfold PlusTail. cbv zeta. rewrite H.
  destruct a as [sa|sa| |sa ma ea]; try discriminate;
    destruct s; reflexivity.
Qed.

(** X5: [mostSignificant] of the empty expansion is [0]; of a valid
    non-overlapping expansion it is a component whose sign is the sign
    of the exact sum of the expansion. *)
Theorem mostSignificant_has_sign_of_sum e :
  valid_expansion prec emax e = true ->
  (e = [] -> mostSignificant e = zero)
  /\ fsign (mostSignificant e) = Some (Z.sgn (sumv e))
  /\ (sumv e = 0 <-> e = []).
Proof.
  intros Hv. split; [now intros ->|].
  pose proof (mostSignificant_sign e Hv) as Hs.
  split; [exact Hs|]. split.
  - intros H0. rewrite H0 in Hs. cbn in Hs.
    destruct e as [|t e0 _] using rev_ind; [reflexivity|exfalso].
    pose proof (valid_expansion_last _ _ Hv) as Hn.
    unfold mostSignificant in Hs. rewrite last_last in Hs.
    destruct t as [s|s| |s m e]; try discriminate.
    cbn in Hs. now destruct s.
  - now intros ->.
Qed.

(** ** No producer stores a zero *)

Lemma keep_no_zero v : no_zero (keep v) = true.
Proof.
  unfold keep. destruct (fne zero v) eqn:E; [|reflexivity].
  unfold no_zero. cbn [forallb]. now rewrite E.
Qed.

Lemma no_zero_app e f :
  no_zero (e ++ f) = no_zero e && no_zero f.
Proof. apply forallb_app. Qed.

Lemma sum_loop_no_zero hs : forall Q, no_zero (sum_loop prec emax Q hs) = true.
Proof.
  induction hs as [|hg hs IH]; intros Q; cbn [sum_loop].
  - apply keep_no_zero.
  - now rewrite no_zero_app, keep_no_zero, IH.
Qed.

Lemma ExpansionSum_no_zero e f :
  no_zero e = true -> no_zero f = true ->
  no_zero (ExpansionSum prec emax e f) = true.
Proof.
  intros He Hf. unfold ExpansionSum.
  destruct f as [|b f]; [exact He|]. destruct e as [|a e]; [exact Hf|].
  pose proof (merge_length (a :: e) (b :: f)) as Hl.
  destruct (merge (a :: e) (b :: f)) as [|h0 [|h1 hs]];
    cbn [length] in Hl; try lia.
  now rewrite no_zero_app, keep_no_zero, sum_loop_no_zero.
Qed.

Lemma ExpansionSum_no_zero_nonempty e f :
  e <> [] -> f <> [] -> no_zero (ExpansionSum prec emax e f) = true.
Proof.
  intros He Hf. unfold ExpansionSum.
  destruct f as [|b f]; [contradiction|]. destruct e as [|a e]; [contradiction|].
  pose proof (merge_length (a :: e) (b :: f)) as Hl.
  destruct (merge (a :: e) (b :: f)) as [|h0 [|h1 hs]];
    cbn [length] in Hl; try lia.
  now rewrite no_zero_app, keep_no_zero, sum_loop_no_zero.
Qed.

Lemma scale_loop_no_zero use_fma b bSplit es : forall Q,
  no_zero (scale_loop prec emax use_fma b bSplit Q es) = true.
Proof.
  induction es as [|ei es IH]; intros Q; cbn [scale_loop].
  - apply keep_no_zero.
  - now rewrite !no_zero_app, !keep_no_zero, IH.
Qed.

Lemma ScaleExpansion_no_zero use_fma e b :
  no_zero (ScaleExpansion prec emax use_fma e b) = true.
Proof.
  destruct e as [|e0 es]; cbn [ScaleExpansion]; [reflexivity|].
  destruct (feq zero b); [reflexivity|].
  now rewrite no_zero_app, keep_no_zero, scale_loop_no_zero.
Qed.

Lemma MakeExpansion_no_zero value tail :
  no_zero (MakeExpansion value tail) = true.
Proof.
  change (MakeExpansion value tail) with (keep tail ++ keep value).
  now rewrite no_zero_app, !keep_no_zero.
Qed.

Lemma TwoTwoDiff_no_zero use_fma ax by_ ay bx :
  no_zero (TwoTwoDiff prec emax use_fma ax by_ ay bx) = true.
Proof.
  unfold TwoTwoDiff. cbv zeta.
  now rewrite !no_zero_app, !keep_no_zero.
Qed.

Lemma fne_zero_fneg v : fne zero (fneg v) = fne zero v.
Proof. destruct v as [[]|[]| |[] m e]; reflexivity. Qed.

Lemma negate_no_zero e : no_zero (negate e) = no_zero e.
Proof.
  unfold no_zero, negate. induction e as [|x e IH]; [reflexivity|].
  cbn [map forallb]. now rewrite fne_zero_fneg, IH.
Qed.

Lemma eadd_no_zero e f :
  no_zero e = true -> no_zero f = true -> no_zero (eadd prec emax e f) = true.
Proof. apply ExpansionSum_no_zero. Qed.

Lemma esub_no_zero e f :
  no_zero e = true -> no_zero f = true -> no_zero (esub prec emax e f) = true.
Proof.
  intros He Hf. apply ExpansionSum_no_zero; [exact He|].
  now rewrite negate_no_zero.
Qed.

Lemma escale_no_zero use_fma e b :
  no_zero (escale prec emax use_fma e b) = true.
Proof. apply ScaleExpansion_no_zero. Qed.

(** One step through the chain of [let] of an evaluator: the new
    expansion has no zero component. *)
Ltac no_zero_step :=
  pull_let;
  match goal with
  | x := _ |- _ =>
      first [ assert (no_zero x = true)
                by (unfold x;
                    auto using eadd_no_zero, esub_no_zero, escale_no_zero,
                      TwoTwoDiff_no_zero)
            | idtac ];
      clearbody x
  end.

Lemma exact_expansion_no_zero use_fma q :
  no_zero (exact_expansion prec emax use_fma q) = true.
Proof.
  destruct q as [pa pb pc|pa pb pc pd|pa pb pc pd|pa pb pc pd pe];
    cbv beta iota delta [exact_expansion].
  - cbv beta delta [exact_orient2d_expansion]. repeat no_zero_step.
    auto using eadd_no_zero, esub_no_zero, escale_no_zero.
  - cbv beta delta [exact_incircle_expansion]. repeat no_zero_step.
    auto using eadd_no_zero, esub_no_zero, escale_no_zero.
  - cbv beta delta [exact_orient3d_expansion]. repeat no_zero_step.
    auto using eadd_no_zero, esub_no_zero, escale_no_zero.
  - cbv beta delta [exact_insphere_expansion]. repeat no_zero_step.
    auto using eadd_no_zero, esub_no_zero, escale_no_zero.
Qed.

Lemma mostSignificant_no_zero e :
  no_zero e = true -> (feq zero (mostSignificant e) = true <-> e = []).
Proof.
  intros Hn. unfold mostSignificant.
  destruct e as [|t e0 _] using rev_ind; [now split|].
  rewrite last_last. rewrite no_zero_app in Hn.
  apply andb_prop in Hn as [_ Hn]. unfold no_zero in Hn. cbn [forallb] in Hn.
  apply andb_prop in Hn as [Hn _]. unfold fne in Hn. unfold feq.
  split.
  - intros H. rewrite H in Hn. discriminate.
  - intros H. now destruct e0.
Qed.

(** X6: no function that builds an expansion stores a zero component:
    [MakeExpansion], [TwoTwoDiff] and [ScaleExpansion] never do, and
    [ExpansionSum] does not when both operands are non-empty or have no
    zero component themselves. *)
Theorem producers_store_no_zero :
  (forall value tail, no_zero (MakeExpansion value tail) = true)
  /\ (forall use_fma ax by_ ay bx,
        no_zero (TwoTwoDiff prec emax use_fma ax by_ ay bx) = true)
  /\ (forall use_fma e b,
        no_zero (ScaleExpansion prec emax use_fma e b) = true)
  /\ (forall e f, e <> [] -> f <> [] ->
        no_zero (ExpansionSum prec emax e f) = true)
  /\ (forall e f, no_zero e = true -> no_zero f = true ->
        no_zero (ExpansionSum prec emax e f) = true).
Proof.
  repeat split; intros.
  - apply MakeExpansion_no_zero.
  - apply TwoTwoDiff_no_zero.
  - apply ScaleExpansion_no_zero.
  - now apply ExpansionSum_no_zero_nonempty.
  - now apply ExpansionSum_no_zero.
Qed.

(** X7: an exact evaluator returns a zero exactly when the expansion it
    has built is empty: a non-empty one ends with a component that is
    not zero. *)
Theorem exact_eval_zero_iff_empty use_fma q :
  feq zero (exact_eval prec emax use_fma q) = true
  <-> exact_expansion prec emax use_fma q = [].
Proof.
  rewrite exact_eval_mostSignificant.
  apply mostSignificant_no_zero, exact_expansion_no_zero.
Qed.

(** ** Negation and difference of expansions *)

Lemma sum_val_negate e : sumv (negate e) = - sumv e.
Proof.
  unfold negate. induction e as [|x e IH]; [reflexivity|].
  cbn [map]. rewrite !sum_val_cons, IH, val_fneg. ring.
Qed.

Lemma finite_nonzero_fneg x :
  finite_nonzero prec emax (fneg x) = finite_nonzero prec emax x.
Proof. now destruct x as [s|s| |s m e]. Qed.

Lemma msb_fneg x : msb (fneg x) = msb x.
Proof. now destruct x as [s|s| |s m e]. Qed.

Lemma lsb_fneg x : lsb (fneg x) = lsb x.
Proof. now destruct x as [s|s| |s m e]. Qed.

Lemma nonoverlapping_negate e : nonoverlapping (negate e) = nonoverlapping e.
Proof.
  unfold negate. induction e as [|x [|y e] IH]; try reflexivity.
  cbn [map nonoverlapping] in *. now rewrite IH, msb_fneg, lsb_fneg.
Qed.

Lemma valid_expansion_negate e :
  valid_expansion prec emax (negate e) = valid_expansion prec emax e.
Proof.
  unfold valid_expansion. rewrite nonoverlapping_negate. f_equal.
  unfold negate. induction e as [|x e IH]; [reflexivity|].
  cbn [map forallb]. now rewrite finite_nonzero_fneg, IH.
Qed.

Lemma fneg_involutive x : fneg (fneg x) = x.
Proof. destruct x as [[]|[]| |[] m e]; reflexivity. Qed.

(** X8: [negate] is exact: it keeps the number of components and the
    validity of the expansion, the exact sum changes sign, and negating
    twice gives the expansion back. *)
Theorem negate_is_exact e :
  length (negate e) = length e
  /\ sumv (negate e) = - sumv e
  /\ valid_expansion prec emax (negate e) = valid_expansion prec emax e
  /\ negate (negate e) = e.
Proof.
  split; [apply length_map|]. split; [apply sum_val_negate|].
  split; [apply valid_expansion_negate|].
  unfold negate. rewrite map_map. rewrite <- (map_id e) at 2.
  apply map_ext. apply fneg_involutive.
Qed.

(** X9: the difference of two valid non-overlapping expansions
    ([operator-], that is [e + (-f)]) has at most [n + m] components and,
    when none of them has overflowed, its exact sum is the sum of [e]
    minus the sum of [f]. *)
Theorem esub_is_exact e f :
  valid_expansion prec emax e = true ->
  valid_expansion prec emax f = true ->
  forallb is_finite (esub prec emax e f) = true ->
  (length (esub prec emax e f) <= length e + length f)%nat
  /\ sumv (esub prec emax e f) = sumv e - sumv f.
Proof.
  intros He Hf Hfin. unfold esub, eadd in *.
  assert (Hf' : valid_expansion prec emax (negate f) = true)
    by now rewrite valid_expansion_negate.
  split.
  - pose proof (ExpansionSum_length e (negate f)) as H.
    unfold negate in H at 2. rewrite length_map in H. exact H.
  - rewrite ExpansionSum_exact; auto using valid_expansion_fv,
      valid_expansion_head_sorted.
    rewrite sum_val_negate. ring.
Qed.

(** ** [std::merge] *)

Lemma merge_permutation e : forall f, Permutation (merge e f) (e ++ f).
Proof.
  induction e as [|a e IHe]; intros f; [reflexivity|].
  induction f as [|b f IHf].
  - rewrite merge_nil_r, app_nil_r. reflexivity.
  - rewrite merge_cons. destruct (flt (fabs b) (fabs a)).
    + rewrite IHf. apply Permutation_middle.
    + cbn [app]. apply perm_skip. apply IHe.
Qed.

Lemma abs_sorted_cons x l :
  abs_sorted prec emax (x :: l)
  <-> head_ge prec emax (Z.abs (val' x)) l /\ abs_sorted prec emax l.
Proof. destruct l as [|y l]; cbn [abs_sorted head_ge]; tauto. Qed.

Lemma merge_head_ge lo e f :
  head_ge prec emax lo e -> head_ge prec emax lo f ->
  head_ge prec emax lo (merge e f).
Proof.
  destruct e as [|a e]; [trivial|]. destruct f as [|b f]; [trivial|].
  rewrite merge_cons. now destruct (flt (fabs b) (fabs a)).
Qed.

Lemma merge_abs_sorted e : forall f,
  forallb fv e = true -> forallb fv f = true ->
  abs_sorted prec emax e -> abs_sorted prec emax f ->
  abs_sorted prec emax (merge e f).
Proof.
  induction e as [|a e IHe]; intros f He Hf Se Sf; [exact Sf|].
  induction f as [|b f IHf]; [now rewrite merge_nil_r|].
  rewrite merge_cons.
  pose proof He as He'. pose proof Hf as Hf'.
  cbn [forallb] in He', Hf'.
  apply andb_prop in He' as [Ha He']. apply andb_prop in Hf' as [Hb Hf'].
  rewrite (flt_abs_spec a b Ha Hb).
  apply abs_sorted_cons in Se as Se'. destruct Se' as [Ge Se'].
  apply abs_sorted_cons in Sf as Sf'. destruct Sf' as [Gf Sf'].
  destruct (Z.ltb_spec (Z.abs (val' b)) (Z.abs (val' a))) as [Hlt|Hge].
  - apply abs_sorted_cons. split.
    + apply merge_head_ge; [cbn [head_ge]; lia|exact Gf].
    + now apply IHf.
  - apply abs_sorted_cons. split.
    + apply merge_head_ge; [exact Ge|cbn [head_ge]; lia].
    + now apply IHe.
Qed.

(** X10: the merge step of [ExpansionSum] ([std::merge] with the comparator
    on magnitudes) returns a permutation of the components of the two
    operands; when both operands are finite and sorted by increasing
    magnitude, so is the result. *)
Theorem merge_sorted_permutation e f :
  Permutation (merge e f) (e ++ f)
  /\ (forallb fv e = true -> forallb fv f = true ->
      abs_sorted prec emax e -> abs_sorted prec emax f ->
      abs_sorted prec emax (merge e f)).
Proof.
  split; [apply merge_permutation|apply merge_abs_sorted].
Qed.

(** ** The sign of a rounded difference *)

Lemma RN_sgn z : Z.sgn (rn z) = Z.sgn z.
Proof.
  destruct (Z.eq_dec z 0) as [->|Hz]; [reflexivity|].
  pose proof (ulpe_nonneg z) as Hu.
  pose proof (pow2_gt0 (ue z) Hu) as HP.
  pose proof (rne_shift_bounds (Z.abs z) (ue z)) as [Hlo _].
  assert (Hq : 0 <= Z.abs z / 2 ^ ue z) by (apply Z.div_pos; lia).
  assert (Hk : 0 < rne_shift (Z.abs z) (ue z) * 2 ^ ue z).
  { destruct (Z.eq_dec (ue z) 0) as [E0|N0].
    - rewrite rne_shift_exact; [lia|lia|].
      rewrite E0. apply Z.divide_1_l.
    - pose proof (RN_abs_ge z ltac:(lia)) as Hge.
      pose proof (pow2_gt0 (ue z + prec - 1) ltac:(lia)) as HP'.
      assert (0 <= rne_shift (Z.abs z) (ue z) * 2 ^ ue z) by nia.
      destruct (Z.eq_dec (rne_shift (Z.abs z) (ue z) * 2 ^ ue z) 0) as [E|N];
        [|lia].
      unfold RN in Hge. rewrite E, Z.mul_0_r in Hge. cbn in Hge. lia. }
  unfold RN. rewrite Z.sgn_mul, (Z.sgn_pos _ Hk), Z.mul_1_r.
  clear. now destruct z.
Qed.

Lemma fsign_val x : fv x = true -> fsign x = Some (Z.sgn (val' x)).
Proof.
  destruct x as [s|s| |s m e]; try discriminate; [reflexivity|].
  intros H. pose proof (finite_valid_emin _ _ _ H) as He.
  pose proof (pow2_gt0 (e - emin') ltac:(lia)) as HP.
  cbn [fsign val]. f_equal.
  destruct s; cbn [cond_Zopp]; [rewrite Z.sgn_opp|]; rewrite Z.sgn_pos; lia.
Qed.

Lemma fsub_sign a b :
  fv a = true -> fv b = true -> is_finite (sub a b) = true ->
  fsign (sub a b) = Some (Z.sgn (val' a - val' b)).
Proof.
  intros Ha Hb Hf. destruct (fsub_finite a b Ha Hb Hf) as [Hv E].
  now rewrite (fsign_val _ Hv), E, RN_sgn.
Qed.

(** A finite floating-point difference has the sign of the exact
    difference: it is a zero only when the operands are equal, however
    close they are (a subtraction does not underflow to zero). *)
Theorem fsub_has_sign_of_difference a b :
  fv a = true -> fv b = true -> is_finite (sub a b) = true ->
  fsign (sub a b) = Some (Z.sgn (val' a - val' b))
  /\ (feq zero (sub a b) = true <-> val' a = val' b).
Proof.
  intros Ha Hb Hf. pose proof (fsub_sign a b Ha Hb Hf) as Hs.
  split; [exact Hs|]. destruct (sub a b) as [s|s| |s m e]; try discriminate.
  - cbn in Hs. split; [intros _|reflexivity].
    injection Hs as Hs. symmetry in Hs. apply Z.sgn_null_iff in Hs. lia.
  - cbn [fsign] in Hs. split.
    + unfold feq, zero. cbn. destruct s; discriminate.
    + intros E. rewrite E, Z.sub_diag in Hs. cbn in Hs. destruct s; discriminate.
Qed.

(** ** Products and their rounding errors *)

Lemma digits2_pos_mul mx my :
  Zpos (digits2_pos mx) + Zpos (digits2_pos my) - 1
  <= Zpos (digits2_pos (mx * my))
  <= Zpos (digits2_pos mx) + Zpos (digits2_pos my).
Proof.
  rewrite !digits2_pos_log2, Pos2Z.inj_mul.
  pose proof (Z.log2_mul_below (Zpos mx) (Zpos my) ltac:(lia) ltac:(lia)).
  pose proof (Z.log2_mul_above (Zpos mx) (Zpos my) ltac:(lia) ltac:(lia)).
  lia.
Qed.

(** The product of two canonical mantissas is never too short. *)
Lemma product_shift mx ex my ey :
  canonical_mantissa prec emax mx ex = true ->
  canonical_mantissa prec emax my ey = true ->
  emin' <= ex + ey ->
  ex + ey <= fexp' (Zpos (digits2_pos (mx * my)) + (ex + ey)).
Proof.
  unfold canonical_mantissa, fexp, emin. intros Hx Hy He.
  apply Z.eqb_eq in Hx, Hy.
  pose proof (digits2_pos_mul mx my) as [Hd _].
  assert (1 <= Zpos (digits2_pos mx)) by lia.
  assert (1 <= Zpos (digits2_pos my)) by lia.
  lia.
Qed.

Lemma binary_round_aux_spec sx m e :
  emin' <= e -> e <= fexp' (Zpos (digits2_pos m) + e) ->
  exists m' e',
    binary_round_aux prec emax sx (Zpos m) e loc_Exact =
      (if e' <=? emax - prec then S754_finite sx m' e' else S754_infinity sx)
    /\ canonical_mantissa prec emax m' e' = true
    /\ Zpos m' * 2 ^ (e' - emin') = rn (Zpos m * 2 ^ (e - emin')).
Proof.
  intros He Hs.
  destruct (Z.eq_dec (fexp' (Zpos (digits2_pos m) + e)) e) as [Heq|Hne].
  - assert (Hc : canonical_mantissa prec emax m e = true)
      by (unfold canonical_mantissa; now apply Z.eqb_eq).
    exists m, e. split; [|split; trivial].
    + now apply binary_round_aux_canonical.
    + symmetry. apply RN_id; trivial. now apply canonical_repr.
  - apply binary_round_aux_shift; trivial. lia.
Qed.

Lemma unit_inv_exp : 0 <= - emin'.
Proof. unfold emin. lia. Qed.

Lemma exact_product_value a b :
  fv a = true -> fv b = true -> product_fits prec emax a b = true ->
  exact_product prec emax a b * unit_inv prec emax = val' a * val' b.
Proof.
  intros Ha Hb Hp.
  destruct a as [sa|sa| |sa ma ea]; try discriminate;
    destruct b as [sb|sb| |sb mb eb]; try discriminate;
    cbn [exact_product val]; try lia.
  cbn [product_fits] in Hp. apply Z.leb_le in Hp.
  pose proof (finite_valid_emin _ _ _ Ha) as Hea.
  pose proof (finite_valid_emin _ _ _ Hb) as Heb.
  pose proof unit_inv_exp as Hu.
  assert (E : 2 ^ (ea + eb - emin') * 2 ^ (- emin')
              = 2 ^ (ea - emin') * 2 ^ (eb - emin')).
  { rewrite <- !Z.pow_add_r by lia. f_equal. lia. }
  unfold unit_inv. rewrite Pos2Z.inj_mul.
  set (A := 2 ^ (ea - emin')) in *. set (B := 2 ^ (eb - emin')) in *.
  set (C := 2 ^ (ea + eb - emin')) in *. set (U := 2 ^ (- emin')) in *.
  assert (E' : Zpos ma * Zpos mb * C * U = Zpos ma * A * (Zpos mb * B)).
  { transitivity (Zpos ma * Zpos mb * (C * U)); [ring|rewrite E; ring]. }
  destruct sa, sb; cbn [xorb cond_Zopp]; lia.
Qed.

Lemma fmul_spec a b :
  fv a = true -> fv b = true -> product_fits prec emax a b = true ->
  valid_binary prec emax (fmul prec emax a b) = true
  /\ (is_finite (fmul prec emax a b) = true
      \/ exists s, fmul prec emax a b = S754_infinity s)
  /\ (is_finite (fmul prec emax a b) = true ->
      val' (fmul prec emax a b) = rn (exact_product prec emax a b)).
Proof.
  intros Ha Hb Hp. unfold fmul.
  destruct a as [sa|sa| |sa ma ea]; try discriminate;
    destruct b as [sb|sb| |sb mb eb]; try discriminate;
    cbn [SFmul exact_product];
    try (split; [reflexivity|split; [now left|reflexivity]]).
  cbn [product_fits] in Hp. apply Z.leb_le in Hp.
  pose proof (fv_canonical _ _ _ Ha) as Ca.
  pose proof (fv_canonical _ _ _ Hb) as Cb.
  destruct (binary_round_aux_spec (xorb sa sb) (ma * mb) (ea + eb) Hp
              (product_shift _ _ _ _ Ca Cb Hp)) as (m' & e' & -> & Hc & Hv).
  destruct (e' <=? emax - prec) eqn:Hb'.
  - split; [cbn [valid_binary]; unfold bounded; now rewrite Hc, Hb'|].
    split; [now left|]. intros _. cbn [val]. rewrite Hv.
    destruct (xorb sa sb); cbn [cond_Zopp]; [now rewrite RN_opp|reflexivity].
  - split; [reflexivity|]. split; [right; eauto|discriminate].
Qed.

Lemma canonical_mantissa_lt m e :
  canonical_mantissa prec emax m e = true -> Zpos m < 2 ^ prec.
Proof.
  unfold canonical_mantissa, fexp. intros H. apply Z.eqb_eq in H.
  pose proof (digits2_pos_log2 m) as Hd.
  pose proof (Z.log2_spec (Zpos m) ltac:(lia)) as [_ Hhi].
  pose proof (pow2_le (Z.succ (Z.log2 (Zpos m))) prec
                ltac:(pose proof (Z.log2_nonneg (Zpos m)); lia)).
  lia.
Qed.

(** The rounding error of a product that does not underflow fits in one
    number of the type. *)
Lemma product_error_repr M k :
  0 <= k -> Z.abs M < 2 ^ (prec + prec) ->
  rp (M * 2 ^ k - rn (M * 2 ^ k)).
Proof.
  intros Hk HM. set (P := M * 2 ^ k).
  pose proof (pow2_gt0 k Hk) as HP.
  pose proof (ulpe_nonneg P) as Hu.
  assert (Hd : (2 ^ k | P)) by (exists M; reflexivity).
  destruct (Z_le_gt_dec (ue P) k) as [Hle|Hgt].
  - assert (HrP : rp P).
    { unfold repr. eapply Z.divide_trans; [apply pow2_divide|exact Hd]. lia. }
    rewrite (RN_id P HrP), Z.sub_diag. apply repr_0.
  - apply (repr_intro _ k); trivial.
    + apply Z.divide_sub_r; trivial.
      eapply Z.divide_trans; [apply pow2_divide|apply RN_divide]. lia.
    + assert (HabsP : Z.abs P < 2 ^ (prec + k + prec)).
      { unfold P. rewrite Z.abs_mul, (Z.abs_eq (2 ^ k)) by lia.
        replace (prec + k + prec) with (prec + prec + k) by lia.
        rewrite Z.pow_add_r by lia.
        apply Z.mul_lt_mono_pos_r; trivial. }
      pose proof (ulpe_lt_pow P (prec + k) ltac:(lia) HabsP) as Hue.
      pose proof (RN_err P) as He.
      pose proof (pow2_le (ue P) (prec + k) ltac:(lia)) as Hpw.
      replace (k + prec) with (prec + k) by lia.
      replace (P - rn P) with (- (rn P - P)) by ring. rewrite Z.abs_opp. lia.
Qed.

Lemma exact_product_error_repr a b :
  fv a = true -> fv b = true -> product_fits prec emax a b = true ->
  rp (exact_product prec emax a b - rn (exact_product prec emax a b)).
Proof.
  intros Ha Hb Hp.
  destruct a as [sa|sa| |sa ma ea]; try discriminate;
    destruct b as [sb|sb| |sb mb eb]; try discriminate;
    cbn [exact_product]; try apply repr_0.
  cbn [product_fits] in Hp. apply Z.leb_le in Hp.
  pose proof (canonical_mantissa_lt _ _ (fv_canonical _ _ _ Ha)) as La.
  pose proof (canonical_mantissa_lt _ _ (fv_canonical _ _ _ Hb)) as Lb.
  assert (HM : Z.abs (Zpos (ma * mb)) < 2 ^ (prec + prec)).
  { rewrite Pos2Z.inj_mul, Z.pow_add_r, Z.abs_eq by lia.
    apply Z.mul_lt_mono_nonneg; lia. }
  pose proof (product_error_repr (Zpos (ma * mb)) (ea + eb - emin')
                ltac:(lia) HM) as H.
  destruct (xorb sa sb); cbn [cond_Zopp]; trivial.
  rewrite RN_opp.
  replace (- (Zpos (ma * mb) * 2 ^ (ea + eb - emin'))
           - - rn (Zpos (ma * mb) * 2 ^ (ea + eb - emin')))
    with (- (Zpos (ma * mb) * 2 ^ (ea + eb - emin')
             - rn (Zpos (ma * mb) * 2 ^ (ea + eb - emin')))) by ring.
  now apply repr_opp.
Qed.

(** [fma] on finite numbers rounds the exact value of [a * b + z]. *)
Lemma fma_spec a b z :
  fv a = true -> fv b = true -> fv z = true ->
  product_fits prec emax a b = true ->
  valid_binary prec emax (fma prec emax a b z) = true
  /\ (is_finite (fma prec emax a b z) = true ->
      val' (fma prec emax a b z) = rn (exact_product prec emax a b + val' z)).
Proof.
  intros Ha Hb Hz Hp.
  assert (Hzero : forall s,
            valid_binary prec emax (fadd prec emax (S754_zero s) z) = true
            /\ (is_finite (fadd prec emax (S754_zero s) z) = true ->
                val' (fadd prec emax (S754_zero s) z) = rn (0 + val' z))).
  { intros s. apply (SFadd_spec (S754_zero s) z); trivial. }
  destruct a as [sa|sa| |sa ma ea]; try discriminate;
    destruct b as [sb|sb| |sb mb eb]; try discriminate;
    cbn [fma exact_product]; try apply Hzero.
  cbn [product_fits] in Hp. apply Z.leb_le in Hp.
  pose proof (fv_canonical _ _ _ Ha) as Ca.
  pose proof (fv_canonical _ _ _ Hb) as Cb.
  destruct z as [sz|sz| |sz mz ez]; try discriminate.
  - destruct (binary_round_aux_spec (xorb sa sb) (ma * mb) (ea + eb) Hp
                (product_shift _ _ _ _ Ca Cb Hp)) as (m' & e' & -> & Hc & Hv).
    change (val' (S754_zero sz)) with 0. rewrite Z.add_0_r.
    destruct (e' <=? emax - prec) eqn:Hb'.
    + split; [cbn [valid_binary]; unfold bounded; now rewrite Hc, Hb'|].
      intros _. cbn [val]. rewrite Hv.
      destruct (xorb sa sb); cbn [cond_Zopp]; [now rewrite RN_opp|reflexivity].
    + split; [reflexivity|discriminate].
  - pose proof (finite_valid_emin _ _ _ Hz) as Hez.
    cbv zeta. set (e := Z.min (ea + eb) ez).
    destruct (binary_normalize_spec
                (cond_Zopp (xorb sa sb) (Zpos (fst (shl_align (ma * mb) (ea + eb) e)))
                 + cond_Zopp sz (Zpos (fst (shl_align mz ez e)))) e ltac:(lia))
      as [Hv Hr].
    split; trivial. intros Hf. rewrite (Hr Hf).
    rewrite Z.mul_add_distr_r, !shl_align_val by lia. reflexivity.
Qed.

(** [MultTail] with [fma]: the exact rounding error of the product. *)
Lemma MultTail_fma_exact a b :
  fv a = true -> fv b = true -> product_fits prec emax a b = true ->
  is_finite (MultTail prec emax true a b (fmul prec emax a b)) = true ->
  fv (fmul prec emax a b) = true
  /\ fv (MultTail prec emax true a b (fmul prec emax a b)) = true
  /\ val' (fmul prec emax a b)
     + val' (MultTail prec emax true a b (fmul prec emax a b))
     = exact_product prec emax a b.
Proof.
  intros Ha Hb Hp. unfold MultTail.
  destruct (fmul_spec a b Ha Hb Hp) as (Vp & Sp & Ep).
  destruct Sp as [Fp|[s Ip]].
  - intros Hf. specialize (Ep Fp).
    assert (Hfp : fv (fmul prec emax a b) = true)
      by now apply finite_valid_intro.
    assert (Hn : fv (fneg (fmul prec emax a b)) = true) by now rewrite fv_fneg.
    destruct (fma_spec a b _ Ha Hb Hn Hp) as [Vt Et].
    specialize (Et Hf). rewrite val_fneg, Ep in Et.
    split; trivial. split; [now apply finite_valid_intro|].
    rewrite Et, Ep.
    replace (exact_product prec emax a b + - rn (exact_product prec emax a b))
      with (exact_product prec emax a b - rn (exact_product prec emax a b))
      by ring.
    rewrite (RN_id (exact_product prec emax a b
                    - rn (exact_product prec emax a b)))
      by now apply exact_product_error_repr.
    ring.
  - rewrite Ip.
    destruct a as [sa|sa| |sa ma ea]; try discriminate;
      destruct b as [sb|sb| |sb mb eb]; try discriminate;
      cbn [fma fneg SFopp is_finite]; discriminate.
Qed.

Lemma PlusTail_finite_inv a b x :
  is_finite (PlusTail prec emax a b x) = true ->
  is_finite a = true /\ is_finite b = true.
Proof.
  unfold PlusTail. cbv zeta. intros H.
  apply SFadd_finite_inv in H as [Ha Hb].
  apply SFsub_finite_inv in Ha as [Ha _].
  apply SFsub_finite_inv in Hb as [Hb _]. now split.
Qed.

Lemma MinusTail_finite_inv a b x :
  is_finite (MinusTail prec emax a b x) = true ->
  is_finite a = true /\ is_finite b = true.
Proof.
  unfold MinusTail. cbv zeta. intros H.
  apply SFadd_finite_inv in H as [Ha Hb].
  apply SFsub_finite_inv in Ha as [Ha _].
  apply SFsub_finite_inv in Hb as [_ Hb]. now split.
Qed.

Lemma keep_finite_last v :
  forallb is_finite (keep v) = true -> is_finite v = true.
Proof.
  intros H. rewrite <- (app_nil_r (keep v)) in H. now apply keep_finite in H.
Qed.

Lemma Mult_fma_sum a b :
  fv a = true -> fv b = true -> product_fits prec emax a b = true ->
  forallb is_finite (Mult prec emax true a b) = true ->
  (length (Mult prec emax true a b) <= 2)%nat
  /\ sumv (Mult prec emax true a b) * unit_inv prec emax = val' a * val' b.
Proof.
  intros Ha Hb Hp Hf.
  change (Mult prec emax true a b)
    with (keep (MultTail prec emax true a b (fmul prec emax a b))
          ++ keep (fmul prec emax a b)) in *.
  apply keep_finite in Hf as [Ht _].
  destruct (MultTail_fma_exact a b Ha Hb Hp Ht) as (_ & _ & E).
  split.
  - rewrite length_app.
    pose proof (keep_length (MultTail prec emax true a b (fmul prec emax a b))).
    pose proof (keep_length (fmul prec emax a b)). lia.
  - rewrite sum_val_app, !keep_sum, <- (exact_product_value a b Ha Hb Hp).
    f_equal. lia.
Qed.

(** X11: with [fma], and when the product cannot underflow and its tail is
    finite, [Mult a b] is an expansion of at most two components whose
    exact sum is the product [a * b]. *)
Theorem Mult_fma_is_exact a b :
  fv a = true -> fv b = true -> product_fits prec emax a b = true ->
  forallb is_finite (Mult prec emax true a b) = true ->
  (length (Mult prec emax true a b) <= 2)%nat
  /\ sumv (Mult prec emax true a b) * unit_inv prec emax = val' a * val' b.
Proof. apply Mult_fma_sum. Qed.

Lemma TwoTwoDiff_fma_sum ax by_ ay bx :
  fv ax = true -> fv by_ = true -> fv ay = true -> fv bx = true ->
  product_fits prec emax ax by_ = true ->
  product_fits prec emax bx ay = true ->
  forallb is_finite (TwoTwoDiff prec emax true ax by_ ay bx) = true ->
  sumv (TwoTwoDiff prec emax true ax by_ ay bx) * unit_inv prec emax
  = val' ax * val' by_ - val' ay * val' bx.
Proof.
  intros Hax Hby Hay Hbx Hp1 Hp2. unfold TwoTwoDiff. cbv zeta.
  set (axby1 := fmul prec emax ax by_).
  set (axby0 := MultTail prec emax true ax by_ axby1).
  set (bxay1 := fmul prec emax bx ay).
  set (bxay0 := MultTail prec emax true bx ay bxay1).
  set (i0 := sub axby0 bxay0).
  set (x0 := MinusTail prec emax axby0 bxay0 i0).
  set (j := add axby1 i0).
  set (t0 := PlusTail prec emax axby1 i0 j).
  set (i1 := sub t0 bxay1).
  set (x1 := MinusTail prec emax t0 bxay1 i1).
  set (x3 := add j i1).
  set (x2 := PlusTail prec emax j i1 x3).
  intros Hf.
  apply keep_finite in Hf as [F0 Hf]. apply keep_finite in Hf as [F1 Hf].
  apply keep_finite in Hf as [F2 Hf]. apply keep_finite_last in Hf as F3.
  destruct (MinusTail_finite_inv _ _ _ F0) as [Fa0 Fb0].
  destruct (MultTail_fma_exact ax by_ Hax Hby Hp1 Fa0) as (V1 & V0 & E1).
  destruct (MultTail_fma_exact bx ay Hbx Hay Hp2 Fb0) as (W1 & W0 & E2).
  fold axby1 in V1, V0, E1. fold axby0 in V0, E1.
  fold bxay1 in W1, W0, E2. fold bxay0 in W0, E2.
  destruct (MinusTail_exact axby0 bxay0 V0 W0 F0) as (Vi0 & _ & Ei0).
  fold i0 in Vi0, Ei0. fold x0 in Ei0.
  destruct (MinusTail_finite_inv _ _ _ F1) as [Ft0 _].
  destruct (PlusTail_exact axby1 i0 V1 Vi0 Ft0) as (Vj & Vt0 & Ej).
  fold j in Vj, Vt0, Ej. fold t0 in Vt0, Ej.
  destruct (MinusTail_exact t0 bxay1 Vt0 W1 F1) as (Vi1 & _ & Ei1).
  fold i1 in Vi1, Ei1. fold x1 in Ei1.
  destruct (PlusTail_exact j i1 Vj Vi1 F2) as (_ & _ & Ex).
  fold x3 in Ex. fold x2 in Ex.
  rewrite !sum_val_app, !keep_sum.
  rewrite <- (exact_product_value ax by_ Hax Hby Hp1).
  replace (val' ay * val' bx) with (val' bx * val' ay) by ring.
  rewrite <- (exact_product_value bx ay Hbx Hay Hp2).
  rewrite <- Z.mul_sub_distr_r. f_equal. lia.
Qed.

(** X12: with [fma], when neither product can underflow and every
    component is finite, [TwoTwoDiff ax by ay bx] is an expansion whose
    exact sum is the determinant [ax * by - ay * bx]. *)
Theorem TwoTwoDiff_fma_is_exact ax by_ ay bx :
  fv ax = true -> fv by_ = true -> fv ay = true -> fv bx = true ->
  product_fits prec emax ax by_ = true ->
  product_fits prec emax bx ay = true ->
  forallb is_finite (TwoTwoDiff prec emax true ax by_ ay bx) = true ->
  sumv (TwoTwoDiff prec emax true ax by_ ay bx) * unit_inv prec emax
  = val' ax * val' by_ - val' ay * val' bx.
Proof. apply TwoTwoDiff_fma_sum. Qed.

(** ** The zero-checking variant of [TwoTwoDiff] *)

Lemma feq_zero_val v : feq zero v = true -> val' v = 0.
Proof. intros H. apply feq_zero_inv in H as [s ->]. reflexivity. Qed.

Lemma product_fits_comm a b :
  product_fits prec emax a b = product_fits prec emax b a.
Proof.
  destruct a as [sa|sa| |sa ma ea]; destruct b as [sb|sb| |sb mb eb];
    try reflexivity.
  cbn [product_fits]. now rewrite Z.add_comm.
Qed.

(** X19: with [fma], when no product can underflow and every component
    is finite, the expansion returned by [TwoTwoDiffZeroCheck ax by ay bx]
    sums to the determinant [ax * by - ay * bx] whenever [ax] is not zero
    or [ay] is zero, and to [ay * bx], the opposite of the determinant,
    when [ax] is zero and [ay] is not. *)
Theorem TwoTwoDiffZeroCheck_fma_value ax by_ ay bx :
  fv ax = true -> fv by_ = true -> fv ay = true -> fv bx = true ->
  product_fits prec emax ax by_ = true ->
  product_fits prec emax bx ay = true ->
  forallb is_finite (TwoTwoDiffZeroCheck prec emax true ax by_ ay bx) = true ->
  sumv (TwoTwoDiffZeroCheck prec emax true ax by_ ay bx) * unit_inv prec emax
  = if feq zero ax && negb (feq zero ay)
    then val' ay * val' bx
    else val' ax * val' by_ - val' ay * val' bx.
Proof.
  intros Hax Hby Hay Hbx Hp1 Hp2. unfold TwoTwoDiffZeroCheck.
  destruct (feq zero ax) eqn:Zx; destruct (feq zero ay) eqn:Zy;
    cbn [andb negb]; intros Hf.
  - rewrite (feq_zero_val _ Zx), (feq_zero_val _ Zy). reflexivity.
  - rewrite product_fits_comm in Hp2.
    now destruct (Mult_fma_sum ay bx Hay Hbx Hp2 Hf) as [_ ->].
  - destruct (Mult_fma_sum ax by_ Hax Hby Hp1 Hf) as [_ ->].
    rewrite (feq_zero_val _ Zy). ring.
  - now apply TwoTwoDiff_fma_sum.
Qed.

(** ** The second stage of [orient2d] when the tails vanish *)

Lemma exact_difference a c :
  fv a = true -> fv c = true ->
  feq zero (MinusTail prec emax a c (sub a c)) = true ->
  fv (sub a c) = true /\ val' (sub a c) = val' a - val' c.
Proof.
  intros Ha Hc Hz. pose proof (feq_zero_val _ Hz) as Hv.
  assert (Hf : is_finite (MinusTail prec emax a c (sub a c)) = true).
  { apply feq_zero_inv in Hz as [s ->]. reflexivity. }
  destruct (MinusTail_exact a c Ha Hc Hf) as (Hx & _ & E).
  split; [exact Hx|lia].
Qed.

(** X20: with [fma], when the coordinates are finite, every tail of the
    four coordinate subtractions of [orient2d] is zero, the two products
    cannot underflow and the components are finite, the exact sum of the
    expansion of the second stage is the determinant of the input. *)
Theorem orient2d_stage2_exact_when_tails_vanish pa pb pc :
  forallb fv [X2 pa; Y2 pa; X2 pb; Y2 pb; X2 pc; Y2 pc] = true ->
  forallb (feq zero) (orient2d_tails prec emax pa pb pc) = true ->
  product_fits prec emax (sub (X2 pa) (X2 pc)) (sub (Y2 pb) (Y2 pc)) = true ->
  product_fits prec emax (sub (X2 pb) (X2 pc)) (sub (Y2 pa) (Y2 pc)) = true ->
  forallb is_finite (orient2d_stage2 prec emax true pa pb pc) = true ->
  represents_det prec emax (Orient2d pa pb pc)
    (sumv (orient2d_stage2 prec emax true pa pb pc)).
Proof.
  intros Hc Ht Hp1 Hp2 Hf.
  cbn [forallb] in Hc.
  repeat (apply andb_prop in Hc as [? Hc]).
  unfold orient2d_tails in Ht. cbn [forallb] in Ht.
  repeat (apply andb_prop in Ht as [? Ht]).
  destruct (exact_difference (X2 pa) (X2 pc)) as [Vacx Eacx]; trivial.
  destruct (exact_difference (X2 pb) (X2 pc)) as [Vbcx Ebcx]; trivial.
  destruct (exact_difference (Y2 pa) (Y2 pc)) as [Vacy Eacy]; trivial.
  destruct (exact_difference (Y2 pb) (Y2 pc)) as [Vbcy Ebcy]; trivial.
  unfold represents_det. cbn [degree det]. change (2 - 1) with 1.
  rewrite Z.pow_1_r. unfold orient2d_stage2 in *.
  rewrite (TwoTwoDiff_fma_sum _ _ _ _ Vacx Vbcy Vacy Vbcx Hp1 Hp2 Hf).
  unfold det_orient2d. cbv zeta. rewrite Eacx, Ebcx, Eacy, Ebcy. reflexivity.
Qed.

(** ** [exact::orient2d] with [fma] *)

Lemma valid_expansion_finite e :
  valid_expansion prec emax e = true -> forallb is_finite e = true.
Proof.
  intros H. apply valid_expansion_fv in H.
  induction e as [|x e IH]; [reflexivity|].
  cbn [forallb] in *. apply andb_prop in H as [Hx H].
  now rewrite (fv_is_finite _ Hx), IH.
Qed.

Lemma eadd_valid_sum e f :
  valid_expansion prec emax e = true ->
  valid_expansion prec emax f = true ->
  valid_expansion prec emax (eadd prec emax e f) = true ->
  sumv (eadd prec emax e f) = sumv e + sumv f.
Proof.
  intros He Hf Hs. unfold eadd in *.
  apply ExpansionSum_exact; auto using valid_expansion_fv,
    valid_expansion_head_sorted, valid_expansion_finite.
Qed.

(** X21: with [fma], when the coordinates are finite, none of the six
    products of coordinates can underflow and each of the five
    expansions that [exact::orient2d] builds is a valid non-overlapping
    expansion, the value it returns has the sign of the exact
    determinant of the input; it is a zero exactly when the three points
    are collinear. *)
Theorem exact_orient2d_fma_sign pa pb pc :
  forallb fv [X2 pa; Y2 pa; X2 pb; Y2 pb; X2 pc; Y2 pc] = true ->
  forallb (fun p => product_fits prec emax (fst p) (snd p))
          (exact_orient2d_products pa pb pc) = true ->
  forallb (valid_expansion prec emax)
          (exact_orient2d_parts prec emax true pa pb pc) = true ->
  sumv (exact_orient2d_expansion prec emax true pa pb pc) * unit_inv prec emax
  = det_orient2d prec emax pa pb pc
  /\ fsign (exact_orient2d prec emax true pa pb pc)
     = Some (Z.sgn (det_orient2d prec emax pa pb pc)).
Proof.
  intros Hc Hp Hv.
  cbn [forallb] in Hc. repeat (apply andb_prop in Hc as [? Hc]).
  unfold exact_orient2d_products in Hp. cbn [forallb fst snd] in Hp.
  repeat (apply andb_prop in Hp as [? Hp]).
  unfold exact_orient2d_parts in Hv. cbv zeta in Hv. cbn [forallb] in Hv.
  apply andb_prop in Hv as [Va Hv]. apply andb_prop in Hv as [Vb Hv].
  apply andb_prop in Hv as [Vc Hv]. apply andb_prop in Hv as [Vab Hv].
  apply andb_prop in Hv as [Vw _].
  assert (Es : sumv (exact_orient2d_expansion prec emax true pa pb pc)
               * unit_inv prec emax = det_orient2d prec emax pa pb pc).
  { unfold exact_orient2d_expansion. cbv zeta.
    rewrite (eadd_valid_sum _ _ Vab Vc Vw), (eadd_valid_sum _ _ Va Vb Vab).
    rewrite !Z.mul_add_distr_r.
    rewrite !TwoTwoDiff_fma_sum; auto using valid_expansion_finite.
    unfold det_orient2d. cbv zeta.
    generalize (unit_inv prec emax).
    repeat match goal with
           | |- context [val' ?t] => generalize (val' t)
           end.
    intros; ring. }
  split; [exact Es|].
  assert (Vw' : valid_expansion prec emax
                 (exact_orient2d_expansion prec emax true pa pb pc) = true)
    by exact Vw.
  unfold exact_orient2d. rewrite (mostSignificant_sign _ Vw').
  rewrite <- Es. f_equal.
  rewrite Z.sgn_mul, (Z.sgn_pos _ unit_inv_pos). symmetry. apply Z.mul_1_r.
Qed.

(** ** The last stage of [adaptive::orient2d] with [fma] *)

Lemma orient2d_final_sum pa pb pc :
  forallb fv [X2 pa; Y2 pa; X2 pb; Y2 pb; X2 pc; Y2 pc] = true ->
  forallb is_finite (orient2d_tails prec emax pa pb pc) = true ->
  forallb (fun p => product_fits prec emax (fst p) (snd p))
          (orient2d_final_products prec emax pa pb pc) = true ->
  forallb (valid_expansion prec emax)
          (orient2d_final_parts prec emax true pa pb pc) = true ->
  sumv (orient2d_final prec emax true pa pb pc) * unit_inv prec emax
  = det_orient2d prec emax pa pb pc
  /\ fsign (mostSignificant (orient2d_final prec emax true pa pb pc))
     = Some (Z.sgn (det_orient2d prec emax pa pb pc)).
Proof.
  intros Hc Ht Hp Hv.
  cbn [forallb] in Hc. repeat (apply andb_prop in Hc as [? Hc]).
  unfold orient2d_tails in Ht. cbn [forallb] in Ht.
  repeat (apply andb_prop in Ht as [? Ht]).
  destruct (MinusTail_exact (X2 pa) (X2 pc)) as (Vacx & Tacx & Eacx); trivial.
  destruct (MinusTail_exact (X2 pb) (X2 pc)) as (Vbcx & Tbcx & Ebcx); trivial.
  destruct (MinusTail_exact (Y2 pa) (Y2 pc)) as (Vacy & Tacy & Eacy); trivial.
  destruct (MinusTail_exact (Y2 pb) (Y2 pc)) as (Vbcy & Tbcy & Ebcy); trivial.
  unfold orient2d_final_products in Hp. cbv zeta in Hp.
  cbn [forallb fst snd] in Hp. repeat (apply andb_prop in Hp as [? Hp]).
  unfold orient2d_final_parts in Hv. cbv zeta in Hv. cbn [forallb] in Hv.
  apply andb_prop in Hv as [VB Hv]. apply andb_prop in Hv as [V1 Hv].
  apply andb_prop in Hv as [V2 Hv]. apply andb_prop in Hv as [V3 Hv].
  apply andb_prop in Hv as [VB1 Hv]. apply andb_prop in Hv as [VB12 Hv].
  apply andb_prop in Hv as [VD _].
  assert (Es : sumv (orient2d_final prec emax true pa pb pc)
               * unit_inv prec emax = det_orient2d prec emax pa pb pc).
  { unfold orient2d_final. cbv zeta.
    rewrite (eadd_valid_sum _ _ VB12 V3 VD), (eadd_valid_sum _ _ VB1 V2 VB12),
      (eadd_valid_sum _ _ VB V1 VB1).
    rewrite !Z.mul_add_distr_r.
    rewrite !TwoTwoDiff_fma_sum; auto using valid_expansion_finite.
    unfold det_orient2d. cbv zeta. rewrite Eacx, Ebcx, Eacy, Ebcy.
    generalize (unit_inv prec emax).
    repeat match goal with
           | |- context [val' ?t] => generalize (val' t)
           end.
    intros; ring. }
  split; [exact Es|].
  assert (VD' : valid_expansion prec emax
                  (orient2d_final prec emax true pa pb pc) = true)
    by exact VD.
  rewrite (mostSignificant_sign _ VD'), <- Es. f_equal.
  rewrite Z.sgn_mul, (Z.sgn_pos _ unit_inv_pos). symmetry. apply Z.mul_1_r.
Qed.

(** * [ExpansionSum] on strongly non-overlapping expansions *)

Local Abbreviation fnz := (finite_nonzero prec emax).
Local Abbreviation lo := (low_bit prec emax).
Local Abbreviation hi := (top_bit prec emax).

(** ** The bits of a finite number *)

Lemma ctz_pos_odd m : exists q, Zpos m = (2 * q + 1) * 2 ^ ctz_pos m.
Proof.
  induction m as [m IH|m IH|].
  - exists (Zpos m). change (ctz_pos m~1) with 0. rewrite Z.pow_0_r. lia.
  - destruct IH as [q Hq]. exists q.
    change (ctz_pos m~0) with (1 + ctz_pos m).
    pose proof (ctz_pos_nonneg m).
    rewrite Pos2Z.inj_xO, Hq, Z.pow_add_r, Z.pow_1_r by lia. ring.
  - exists 0. reflexivity.
Qed.

Lemma odd_not_divide q k : 1 <= k -> ~ (2 ^ k | 2 * q + 1).
Proof.
  intros Hk [r Hr].
  replace k with (k - 1 + 1) in Hr by lia.
  rewrite pow2_succ in Hr by lia. lia.
Qed.

Lemma fnz_emin s m e : fnz (S754_finite s m e) = true -> emin' <= e.
Proof. intros H. now apply (finite_valid_emin s m e). Qed.

Lemma expo_lsb_le_msb x : fnz x = true -> expo' (lsb x) <= expo' (msb x).
Proof.
  destruct x as [s|s| |s m e]; try discriminate. intros _.
  pose proof (ctz_lt_digits m). unfold expo. cbn [lsb msb]. lia.
Qed.

(** A number has at most [prec] significant bits. *)
Lemma width_bound x : fnz x = true -> expo' (msb x) + 1 <= expo' (lsb x) + prec.
Proof.
  destruct x as [s|s| |s m e]; try discriminate. intros H.
  pose proof (fv_canonical s m e H) as C.
  unfold canonical_mantissa, fexp in C. apply Z.eqb_eq in C.
  pose proof (ctz_pos_nonneg m). unfold expo. cbn [lsb msb]. lia.
Qed.

Lemma low_bit_pos x : fnz x = true -> 0 < lo x.
Proof. intros H. apply pow2_gt0. now apply expo_lsb_nonneg. Qed.

Lemma low_bit_divide x : fnz x = true -> (lo x | val' x).
Proof. apply val_divide_lsb. Qed.

Lemma abs_lt_top_bit x : fnz x = true -> Z.abs (val' x) < hi x.
Proof. apply abs_val_lt_msb. Qed.

Lemma low_bit_le_abs x : fnz x = true -> lo x <= Z.abs (val' x).
Proof. apply abs_val_ge_lsb. Qed.

Lemma top_bit_le_abs x : fnz x = true -> hi x <= 2 * Z.abs (val' x).
Proof.
  destruct x as [s|s| |s m e]; try discriminate. intros H.
  pose proof (fnz_emin s m e H) as He.
  rewrite abs_val_finite. unfold top_bit, expo. cbn [msb].
  rewrite digits2_pos_log2.
  pose proof (Z.log2_spec (Zpos m) ltac:(lia)) as [Hlo _].
  pose proof (Z.log2_nonneg (Zpos m)).
  replace (e + (Z.log2 (Zpos m) + 1) - 1 - emin prec emax + 1)
    with (Z.log2 (Zpos m) + 1 + (e - emin prec emax)) by lia.
  rewrite Z.pow_add_r, pow2_succ by lia.
  pose proof (pow2_gt0 (e - emin prec emax) ltac:(lia)). nia.
Qed.

(** The last significant bit is the largest power of two that divides
    the value. *)
Lemma lsb_max x c :
  fnz x = true -> 0 <= c -> (2 ^ c | val' x) -> c <= expo' (lsb x).
Proof.
  destruct x as [s|s| |s m e]; try discriminate. intros H Hc D.
  pose proof (fnz_emin s m e H) as He.
  pose proof (ctz_pos_nonneg m) as Hz.
  destruct (Z_le_gt_dec c (expo' (lsb (S754_finite s m e)))) as [|G]; trivial.
  exfalso. unfold expo in G. cbn [lsb] in G.
  assert (D' : (2 ^ c | Zpos m * 2 ^ (e - emin'))).
  { cbn [val] in D. destruct s; cbn [cond_Zopp] in D; trivial.
    destruct D as [r Hr]. exists (- r). lia. }
  destruct (ctz_pos_odd m) as [q Hq]. rewrite Hq in D'.
  set (k := ctz_pos m + (e - emin')) in *.
  assert (Ek : (2 * q + 1) * 2 ^ ctz_pos m * 2 ^ (e - emin') = (2 * q + 1) * 2 ^ k).
  { unfold k. rewrite Z.pow_add_r by lia. ring. }
  rewrite Ek in D'.
  assert (Ec : 2 ^ c = 2 ^ (c - k) * 2 ^ k).
  { rewrite <- Z.pow_add_r by (unfold k; lia). f_equal. lia. }
  rewrite Ec in D'.
  apply Z.mul_divide_cancel_r in D'.
  - apply (odd_not_divide q (c - k)); [unfold k; lia|exact D'].
  - pose proof (pow2_gt0 k ltac:(unfold k; lia)). lia.
Qed.

Lemma one_bit_val x :
  fnz x = true -> one_bit x = true -> Z.abs (val' x) = lo x /\ hi x = 2 * lo x.
Proof.
  intros H O. apply Z.eqb_eq in O.
  pose proof (expo_lsb_nonneg x H) as H0.
  assert (E : hi x = 2 * lo x).
  { unfold top_bit, low_bit, expo in *. rewrite O. now rewrite pow2_succ. }
  split; trivial.
  pose proof (abs_lt_top_bit x H) as B. pose proof (low_bit_le_abs x H) as G.
  pose proof (low_bit_divide x H) as [q Hq]. pose proof (low_bit_pos x H).
  rewrite E in B. rewrite Hq in *. rewrite Z.abs_mul, (Z.abs_eq (lo x)) in * by lia.
  assert (Z.abs q = 1) by nia. nia.
Qed.

Lemma top_bit_low_bit x :
  fnz x = true -> 2 * lo x <= hi x /\ hi x <= 2 ^ prec * lo x /\ (lo x | hi x).
Proof.
  intros H. pose proof (expo_lsb_nonneg x H) as H0.
  pose proof (expo_lsb_le_msb x H) as H1. pose proof (width_bound x H) as H2.
  unfold top_bit, low_bit. repeat split.
  - rewrite <- pow2_succ by lia. apply pow2_le. lia.
  - rewrite <- Z.pow_add_r by lia. apply pow2_le. lia.
  - apply pow2_divide. lia.
Qed.

Lemma abs_le_top_minus_low x : fnz x = true -> Z.abs (val' x) <= hi x - lo x.
Proof.
  intros H. destruct (top_bit_low_bit x H) as (_ & _ & [r Hr]).
  pose proof (abs_lt_top_bit x H) as B. pose proof (low_bit_divide x H) as [q Hq].
  pose proof (low_bit_pos x H). rewrite Hr, Hq in *.
  rewrite Z.abs_mul, (Z.abs_eq (lo x)) in * by lia.
  assert (Z.abs q < r) by nia. nia.
Qed.

(** Two components in order. *)
Lemma top_le_low x y :
  fnz x = true -> fnz y = true -> (msb x <? lsb y) = true -> hi x <= lo y.
Proof.
  intros Hx Hy Hlt. apply Z.ltb_lt in Hlt.
  pose proof (expo_lsb_nonneg x Hx). pose proof (expo_lsb_le_msb x Hx).
  apply pow2_le. unfold expo in *. lia.
Qed.

Lemma top_le_low_apart x y :
  fnz x = true -> fnz y = true -> (msb x + 1 <? lsb y) = true -> 2 * hi x <= lo y.
Proof.
  intros Hx Hy Hlt. apply Z.ltb_lt in Hlt.
  pose proof (expo_lsb_nonneg x Hx). pose proof (expo_lsb_le_msb x Hx).
  unfold top_bit, low_bit. rewrite <- pow2_succ by lia.
  apply pow2_le. unfold expo in *. lia.
Qed.

Lemma top_eq_low_touch x y :
  fnz x = true -> fnz y = true -> msb x + 1 = lsb y -> hi x = lo y.
Proof.
  intros Hx Hy E. unfold top_bit, low_bit, expo. f_equal. lia.
Qed.

(** A value below [2 ^ c] has its bits below [c]; a non-zero multiple of
    [2 ^ c] has them from [c] on: the two do not overlap. *)
Lemma below_above_nonoverlapping x y c :
  fnz x = true -> fnz y = true -> 0 <= c ->
  Z.abs (val' x) < 2 ^ c -> (2 ^ c | val' y) -> (msb x <? lsb y) = true.
Proof.
  intros Hx Hy Hc B D. apply Z.ltb_lt.
  pose proof (lsb_max y c Hy Hc D) as M.
  pose proof (top_bit_le_abs x Hx) as T. unfold top_bit in T.
  pose proof (expo_lsb_nonneg x Hx). pose proof (expo_lsb_le_msb x Hx).
  assert (expo' (msb x) < c); [|unfold expo in *; lia].
  destruct (Z_lt_le_dec (expo' (msb x)) c) as [|G]; trivial. exfalso.
  pose proof (pow2_le c (expo' (msb x)) ltac:(lia)).
  rewrite pow2_succ in T by lia. lia.
Qed.

(** ** The rounding error of a sum that stays below a bit position *)

Lemma repr_pow2 k : 0 <= k -> rp (2 ^ k).
Proof.
  intros Hk. apply (repr_intro _ k); trivial.
  - apply Z.divide_refl.
  - pose proof (pow2_gt0 k Hk). rewrite Z.abs_eq by lia.
    apply pow2_le. lia.
Qed.

Lemma round_error_small s n :
  0 <= n -> Z.abs s < 2 ^ (n + prec) -> 2 * Z.abs (s - rn s) <= 2 ^ n.
Proof.
  intros Hn B. pose proof (ulpe_lt_pow s n Hn B) as U.
  pose proof (RN_err s) as R. pose proof (ulpe_nonneg s).
  pose proof (pow2_le (ue s) n ltac:(lia)).
  replace (Z.abs (s - rn s)) with (Z.abs (rn s - s)) by lia. lia.
Qed.

Lemma round_error_lt s n :
  0 <= n -> Z.abs s < 2 ^ (n + prec) + 2 ^ n -> Z.abs (s - rn s) < 2 ^ n.
Proof.
  intros Hn B. pose proof (pow2_gt0 n Hn) as Pn.
  destruct (Z_lt_le_dec (Z.abs s) (2 ^ (n + prec))) as [L|G].
  - pose proof (round_error_small s n Hn L). lia.
  - pose proof (repr_pow2 (n + prec) ltac:(lia)) as Rp.
    destruct (Z_lt_le_dec s 0) as [Neg|Pos].
    + pose proof (RN_nearest s (- 2 ^ (n + prec)) (repr_opp _ Rp)). lia.
    + pose proof (RN_nearest s (2 ^ (n + prec)) Rp). lia.
Qed.

(** ** The sum that the loop rounds when it takes a component of one
    expansion, seen from the next component [m] of the other one *)

Lemma top_bit_mono g m :
  fnz g = true -> fnz m = true -> Z.abs (val' g) <= Z.abs (val' m) ->
  expo' (msb g) <= expo' (msb m).
Proof.
  intros Hg Hm Hle.
  pose proof (top_bit_le_abs g Hg) as T. pose proof (abs_lt_top_bit m Hm) as B.
  unfold top_bit in *.
  pose proof (expo_lsb_nonneg g Hg). pose proof (expo_lsb_le_msb g Hg).
  pose proof (expo_lsb_nonneg m Hm). pose proof (expo_lsb_le_msb m Hm).
  destruct (Z_le_gt_dec (expo' (msb g)) (expo' (msb m))) as [|G]; trivial.
  exfalso.
  pose proof (pow2_le (expo' (msb m) + 1) (expo' (msb g)) ltac:(lia)).
  rewrite (pow2_succ (expo' (msb g))) in T by lia. lia.
Qed.

Lemma core_sum_bound g m E F H :
  4 <= prec -> fnz g = true -> fnz m = true ->
  Z.abs (val' g) <= Z.abs (val' m) ->
  Z.abs F < lo g -> (one_bit g = false -> 2 * Z.abs F < lo g) ->
  4 * Z.abs F < 3 * lo g ->
  Z.abs E < lo m -> (one_bit m = false -> 2 * Z.abs E < lo m) ->
  Z.abs H < lo m ->
  Z.abs (E + (F + val' g) - H) < 2 ^ (expo' (lsb m) + prec) + lo m.
Proof.
  intros Hp Hg Hm Hle F1 F2 F3 E1 E2 H1.
  pose proof (top_bit_mono g m Hg Hm Hle) as Mono.
  pose proof (width_bound m Hm) as Wm. pose proof (width_bound g Hg) as Wg.
  pose proof (expo_lsb_nonneg m Hm) as Nm. pose proof (expo_lsb_nonneg g Hg) as Ng.
  pose proof (expo_lsb_le_msb g Hg) as LMg. pose proof (expo_lsb_le_msb m Hm) as LMm.
  pose proof (low_bit_pos m Hm) as Pm. pose proof (low_bit_pos g Hg) as Pg.
  pose proof (abs_lt_top_bit g Hg) as Bg.
  pose proof (abs_le_top_minus_low g Hg) as Bg'.
  destruct (top_bit_low_bit g Hg) as (TLg & _ & _).
  set (nu := expo' (lsb m)) in *.
  set (T := 2 ^ (nu + prec)).
  assert (ET : T = 2 ^ prec * lo m).
  { unfold T, low_bit. fold nu. rewrite Z.pow_add_r by lia. ring. }
  assert (P8 : 16 <= 2 ^ prec).
  { change 16 with (2 ^ 4). apply pow2_le. lia. }
  assert (P16 : 16 * lo m <= T) by nia.
  clear ET P8.
  destruct (Z_le_gt_dec (expo' (msb g) + 1) (nu + prec - 1)) as [A|B].
  - (* the component ends below the first bit of the window of [m] *)
    assert (2 * hi g <= T).
    { unfold top_bit, T. rewrite <- pow2_succ by lia. apply pow2_le. lia. }
    lia.
  - assert (Ea : expo' (msb g) + 1 = nu + prec) by lia.
    assert (Eh : hi g = T) by (unfold top_bit, T; now rewrite Ea).
    assert (Om : one_bit m = false).
    { unfold one_bit. apply Z.eqb_neq. unfold nu in *. unfold expo in *. lia. }
    specialize (E2 Om).
    destruct (one_bit g) eqn:Og.
    + destruct (one_bit_val g Hg Og) as [Vg Hg2]. lia.
    + specialize (F2 eq_refl).
      assert (lo m <= lo g).
      { unfold low_bit. fold nu. apply pow2_le. unfold nu in *. unfold expo in *. lia. }
      lia.
Qed.

(** The error of that sum is below the last bit of [m]. *)
Lemma core_error_bound g m E F H :
  4 <= prec -> fnz g = true -> fnz m = true ->
  Z.abs (val' g) <= Z.abs (val' m) ->
  below prec emax F [g] -> below prec emax E [m] ->
  Z.abs H < lo m ->
  let s := E + (F + val' g) - H in
  Z.abs (s - rn s) < lo m.
Proof.
  intros Hp Hg Hm Hle (F1 & F2 & F3 & _) (E1 & E2 & _ & _) H1 s.
  apply round_error_lt; [now apply expo_lsb_nonneg|].
  now apply core_sum_bound.
Qed.

(** ** Strongly non-overlapping lists *)

Local Abbreviation sno := strongly_nonoverlapping.

Lemma sno_inv x y r :
  sno (x :: y :: r) = true ->
  (msb x <? lsb y) = true
  /\ ((msb x + 1 <? lsb y) = true
      \/ (msb x + 1 = lsb y /\ one_bit x = true /\ one_bit y = true
          /\ match r with
             | z :: _ => (msb y + 1 <? lsb z) = true
             | [] => True
             end))
  /\ sno (y :: r) = true.
Proof.
  cbn [strongly_nonoverlapping]. intros H.
  apply andb_prop in H as [H H3]. apply andb_prop in H as [H1 H2].
  split; [exact H1|]. split; [|exact H3].
  destruct (msb x + 1 <? lsb y) eqn:E; [now left|right].
  cbn [orb] in H2. apply andb_prop in H2 as [H2 Hz]. apply andb_prop in H2 as [Ox Oy].
  apply Z.ltb_lt in H1. apply Z.ltb_ge in E.
  repeat split; trivial; [lia|]. destruct r; trivial.
Qed.

Lemma sno_tail x r : sno (x :: r) = true -> sno r = true.
Proof.
  destruct r as [|y r]; [reflexivity|]. intros H. now apply sno_inv in H.
Qed.

Lemma sno_nonoverlapping e : sno e = true -> nonoverlapping e = true.
Proof.
  induction e as [|x e IH]; [reflexivity|]. intros H.
  destruct e as [|y r]; [reflexivity|].
  destruct (sno_inv x y r H) as (H1 & _ & H3).
  cbn [nonoverlapping]. rewrite H1. now apply IH.
Qed.

Lemma strongly_valid_valid e :
  strongly_valid prec emax e = true -> valid_expansion prec emax e = true.
Proof.
  unfold strongly_valid, valid_expansion. intros H.
  apply andb_prop in H as [H1 H2]. rewrite H1. now apply sno_nonoverlapping.
Qed.

(** ** The sum of the components already added, seen from those left *)

Lemma below_zero er : forallb fnz er = true -> below prec emax 0 er.
Proof.
  destruct er as [|x r]; [easy|]. cbn [forallb]. intros H.
  apply andb_prop in H as [Hx _]. pose proof (low_bit_pos x Hx).
  cbn [below]. change (Z.abs 0) with 0. repeat split; try lia.
  destruct r; [trivial|lia].
Qed.

Lemma below_head X x r : below prec emax X (x :: r) -> below prec emax X [x].
Proof. intros (H1 & H2 & H3 & _). now repeat split. Qed.

Lemma below_step X x r :
  fnz x = true -> forallb fnz r = true -> sno (x :: r) = true ->
  below prec emax X (x :: r) -> below prec emax (X + val' x) r.
Proof.
  intros Hx Hr Hs (B1 & B2 & B3 & B4).
  destruct r as [|y r]; [exact I|].
  cbn [forallb] in Hr. apply andb_prop in Hr as [Hy Hr].
  destruct (sno_inv x y r Hs) as (N & D & _).
  pose proof (abs_le_top_minus_low x Hx) as Bx.
  pose proof (top_le_low x y Hx Hy N) as TL.
  pose proof (low_bit_pos x Hx). pose proof (low_bit_pos y Hy).
  assert (Bs : Z.abs (X + val' x) < hi x) by lia.
  destruct D as [D|(Et & Ox & Oy & Hz)].
  - pose proof (top_le_low_apart x y Hx Hy D) as TL2.
    cbn [below]. repeat split; try lia.
    destruct r as [|z r]; trivial. lia.
  - specialize (B4 Et). destruct (one_bit_val x Hx Ox) as [Vx Tx].
    cbn [below]. repeat split; try lia.
    + rewrite Oy. discriminate.
    + destruct r as [|z r]; trivial. apply Z.ltb_lt in Hz. lia.
Qed.

Lemma bit_below_step b x r :
  fnz x = true -> forallb fnz r = true -> nonoverlapping (x :: r) = true ->
  bit_below prec emax b (x :: r) -> bit_below prec emax b r.
Proof.
  intros Hx Hr Hn Hb. destruct r as [|y r]; [exact I|].
  cbn [nonoverlapping] in Hn. apply andb_prop in Hn as [Hn _].
  apply Z.ltb_lt in Hn. pose proof (expo_lsb_le_msb x Hx).
  cbn [bit_below] in *. unfold expo in *. lia.
Qed.

Lemma bit_below_divide b x r :
  fnz x = true -> 0 <= b -> bit_below prec emax b (x :: r) -> (2 ^ b | val' x).
Proof.
  intros Hx Hb Hle. cbn [bit_below] in Hle.
  eapply Z.divide_trans; [|apply (low_bit_divide x Hx)].
  apply pow2_divide. lia.
Qed.

(** ** One step of the loop on exact values *)

Lemma RN_multiple s b : 0 <= b -> (2 ^ b | s) -> (2 ^ b | rn s).
Proof.
  intros Hb D. destruct (Z_le_gt_dec (ue s) b) as [L|G].
  - rewrite RN_id; trivial. unfold repr.
    eapply Z.divide_trans; [|exact D]. apply pow2_divide.
    split; [apply ulpe_nonneg|exact L].
  - eapply Z.divide_trans; [|apply RN_divide]. apply pow2_divide. lia.
Qed.

Lemma multiple_below h b c :
  0 <= b <= c -> (2 ^ b | h) -> Z.abs h < 2 ^ c -> Z.abs h <= 2 ^ c - 2 ^ b.
Proof.
  intros Hbc [k Hk] B. pose proof (pow2_gt0 b ltac:(lia)) as Pb.
  assert (E : 2 ^ c = 2 ^ (c - b) * 2 ^ b).
  { rewrite <- Z.pow_add_r by lia. f_equal. lia. }
  pose proof (pow2_gt0 (c - b) ltac:(lia)).
  rewrite E, Hk in *. rewrite Z.abs_mul, (Z.abs_eq (2 ^ b)) in * by lia.
  assert (Z.abs k < 2 ^ (c - b)) by nia. nia.
Qed.

Lemma inexact_above s b : 0 <= b -> (2 ^ b | s) -> s - rn s <> 0 -> b < ue s.
Proof.
  intros Hb D N. destruct (Z_lt_le_dec b (ue s)) as [|G]; trivial.
  exfalso. apply N. rewrite RN_id; [lia|]. unfold repr.
  eapply Z.divide_trans; [|exact D]. apply pow2_divide.
  split; [apply ulpe_nonneg|exact G].
Qed.

Lemma sum_step g xr yr q X Y H b :
  4 <= prec -> fnz g = true -> forallb fnz xr = true -> forallb fnz yr = true ->
  sno (g :: xr) = true ->
  below prec emax X (g :: xr) -> below prec emax Y yr ->
  match yr with
  | [] => True
  | y :: _ => Z.abs (val' g) <= Z.abs (val' y)
  end ->
  q = X + Y - H -> 0 <= b -> Z.abs H < 2 ^ b -> (2 ^ b | q) -> rp q ->
  bit_below prec emax b (g :: xr) -> bit_below prec emax b yr ->
  let s := q + val' g in
  let h := s - rn s in
  exists b', b <= b' /\ (2 ^ b | h) /\ Z.abs h < 2 ^ b' /\ (h = 0 -> b' = b)
             /\ Z.abs (H + h) < 2 ^ b' /\ (2 ^ b' | rn s)
             /\ bit_below prec emax b' xr /\ bit_below prec emax b' yr.
Proof.
  intros Hp Hg Hxr Hyr Hs BX BY Hle Eq Hb HH Dq Rq Bx By s h.
  pose proof (bit_below_divide b g xr Hg Hb Bx) as Dg.
  assert (Ds : (2 ^ b | s)) by (now apply Z.divide_add_r).
  pose proof (RN_multiple s b Hb Ds) as Dr.
  assert (Dh : (2 ^ b | h)) by (now apply Z.divide_sub_r).
  pose proof (sno_nonoverlapping _ Hs) as Hn.
  pose proof (bit_below_step b g xr Hg Hxr Hn Bx) as Bx'.
  pose proof (pow2_gt0 b Hb) as Pb.
  destruct (Z.eq_dec h 0) as [E0|N0].
  - exists b. split; [lia|]. split; [exact Dh|].
    split; [rewrite E0; change (Z.abs 0) with 0; lia|]. split; [trivial|].
    split; [rewrite E0, Z.add_0_r; exact HH|]. split; [exact Dr|].
    split; [exact Bx'|exact By].
  - pose proof (inexact_above s b Hb Ds N0) as Hue.
    pose proof (RN_err s) as Rerr.
    pose proof (pow2_gt0 (ue s) ltac:(lia)) as Pu.
    assert (B0 : Z.abs h < 2 ^ ue s).
    { unfold h. replace (Z.abs (s - rn s)) with (Z.abs (rn s - s)) by lia. lia. }
    set (cx := match xr with [] => ue s | y :: _ => expo' (lsb y) end).
    set (cy := match yr with [] => ue s | y :: _ => expo' (lsb y) end).
    assert (Hcx : b <= cx /\ Z.abs h < 2 ^ cx).
    { unfold cx. destruct xr as [|y xr']; [split; [lia|exact B0]|].
      cbn [bit_below] in Bx'. split; trivial.
      cbn [forallb] in Hxr. apply andb_prop in Hxr as [Hy _].
      cbn [nonoverlapping] in Hn. apply andb_prop in Hn as [Hn _].
      pose proof (top_le_low g y Hg Hy Hn) as TL. unfold low_bit in TL.
      pose proof (abs_lt_top_bit g Hg).
      pose proof (RN_nearest s q Rq) as Near.
      unfold h. replace (Z.abs (s - rn s)) with (Z.abs (rn s - s)) by lia.
      unfold s in *. lia. }
    assert (Hcy : b <= cy /\ Z.abs h < 2 ^ cy).
    { unfold cy. destruct yr as [|m yr']; [split; [lia|exact B0]|].
      cbn [bit_below] in By. split; trivial.
      cbn [forallb] in Hyr. apply andb_prop in Hyr as [Hm _].
      pose proof (pow2_le b (expo' (lsb m)) ltac:(lia)) as Pl.
      pose proof (core_error_bound g m Y X H Hp Hg Hm Hle
                    (below_head _ _ _ BX) (below_head _ _ _ BY)) as C.
      unfold low_bit in C. cbv zeta in C. specialize (C ltac:(lia)).
      unfold h, s. rewrite Eq.
      replace (X + Y - H + val' g) with (Y + (X + val' g) - H) by ring.
      exact C. }
    destruct Hcx as [Lx Ux]. destruct Hcy as [Ly Uy].
    set (b' := Z.min (ue s) (Z.min cx cy)).
    assert (Hb' : b <= b' /\ b' <= ue s /\ b' <= cx /\ b' <= cy) by (unfold b'; lia).
    assert (Uh : Z.abs h < 2 ^ b').
    { unfold b'. destruct (Z.min_spec (ue s) (Z.min cx cy)) as [[_ ->]|[_ ->]]; trivial.
      destruct (Z.min_spec cx cy) as [[_ ->]|[_ ->]]; trivial. }
    exists b'. repeat split; trivial; try lia.
    + pose proof (multiple_below h b b' ltac:(lia) Dh Uh). lia.
    + eapply Z.divide_trans; [|apply RN_divide]. apply pow2_divide. lia.
    + destruct xr as [|y xr']; [exact I|]. cbn [bit_below]. unfold cx in Hb'. lia.
    + destruct yr as [|y yr']; [exact I|]. cbn [bit_below]. unfold cy in Hb'. lia.
Qed.

(** ** The state of the loop after one more component *)

Lemma state_step er fr er' fr' g q b :
  4 <= prec ->
  forallb fnz er = true -> forallb fnz fr = true ->
  sno er = true -> sno fr = true ->
  sum_state prec emax q b er fr -> rp q ->
  (er = g :: er' /\ fr' = fr
   /\ match fr with
      | [] => True
      | y :: _ => Z.abs (val' g) <= Z.abs (val' y)
      end)
  \/ (fr = g :: fr' /\ er' = er
      /\ match er with
         | [] => True
         | x :: _ => Z.abs (val' g) < Z.abs (val' x)
         end) ->
  let s := q + val' g in
  let h := s - rn s in
  forallb fnz er' = true /\ forallb fnz fr' = true
  /\ sno er' = true /\ sno fr' = true /\ fnz g = true
  /\ exists b', b <= b' /\ (2 ^ b | h) /\ Z.abs h < 2 ^ b' /\ (h = 0 -> b' = b)
                /\ sum_state prec emax (rn s) b' er' fr'.
Proof.
  intros Hp He Hf Se Sf (X & Y & H & Eq & HH & BX & BY & Hb & Dq & Be & Bf) Rq Pick s h.
  destruct Pick as [(-> & -> & Hle)|(-> & -> & Hlt)].
  - cbn [forallb] in He. apply andb_prop in He as [Hg He].
    pose proof (sno_tail _ _ Se) as Se'.
    repeat split; trivial.
    destruct (sum_step g er' fr q X Y H b Hp Hg He Hf Se BX BY Hle Eq Hb HH Dq Rq Be Bf)
      as (b' & L & Dh & Uh & Z0 & UH & Dr & Be' & Bf').
    exists b'. repeat split; trivial.
    exists (X + val' g), Y, (H + h). repeat split; trivial; try lia.
    now apply below_step.
  - cbn [forallb] in Hf. apply andb_prop in Hf as [Hg Hf].
    pose proof (sno_tail _ _ Sf) as Sf'.
    repeat split; trivial.
    assert (Hle : match er with
                  | [] => True
                  | x :: _ => Z.abs (val' g) <= Z.abs (val' x)
                  end) by (destruct er; [exact I|lia]).
    assert (Eq' : q = Y + X - H) by lia.
    destruct (sum_step g fr' er q Y X H b Hp Hg Hf He Sf BY BX Hle Eq' Hb HH Dq Rq Bf Be)
      as (b' & L & Dh & Uh & Z0 & UH & Dr & Bf' & Be').
    exists b'. repeat split; trivial.
    exists X, (Y + val' g), (H + h). repeat split; trivial; try lia.
    now apply below_step.
Qed.

(** ** The merge, one component at a time *)

Lemma fnz_all_fv e : forallb fnz e = true -> forallb fv e = true.
Proof.
  induction e as [|x e IH]; [reflexivity|]. cbn [forallb]. intros H.
  apply andb_prop in H as [Hx He]. now rewrite (finite_nonzero_fv x Hx), IH.
Qed.

Lemma merge_pick er fr :
  forallb fv er = true -> forallb fv fr = true -> er <> [] \/ fr <> [] ->
  exists g er' fr',
    merge er fr = g :: merge er' fr'
    /\ ((er = g :: er' /\ fr' = fr
         /\ match fr with
            | [] => True
            | y :: _ => Z.abs (val' g) <= Z.abs (val' y)
            end)
        \/ (fr = g :: fr' /\ er' = er
            /\ match er with
               | [] => True
               | x :: _ => Z.abs (val' g) < Z.abs (val' x)
               end)).
Proof.
  intros He Hf Hne.
  destruct er as [|a e]; [destruct fr as [|b f]|].
  - now destruct Hne.
  - exists b, [], f. split; [reflexivity|]. right. now repeat split.
  - destruct fr as [|b f].
    + exists a, e, []. split; [now rewrite !merge_nil_r|]. left. now repeat split.
    + cbn [forallb] in He, Hf.
      apply andb_prop in He as [Ha _]. apply andb_prop in Hf as [Hb _].
      rewrite merge_cons, (flt_abs_spec a b Ha Hb).
      destruct (Z.ltb_spec (Z.abs (val' b)) (Z.abs (val' a))) as [L|G].
      * exists b, (a :: e), f. split; [reflexivity|]. right. now repeat split.
      * exists a, e, (b :: f). split; [reflexivity|]. left. now repeat split.
Qed.

(** ** The components stored by the loop *)

Lemma keep_fnz v : fv v = true -> keep v = [v] -> fnz v = true.
Proof.
  unfold keep, fne. intros Hv.
  destruct v as [s|s| |s m e]; try discriminate.
  intros _. unfold finite_valid in Hv. cbn [is_finite andb] in Hv. exact Hv.
Qed.

Lemma keep_app_valid hh R b b' :
  fv hh = true -> 0 <= b' ->
  (2 ^ b | val' hh) -> Z.abs (val' hh) < 2 ^ b' -> (val' hh = 0 -> b' = b) ->
  forallb fnz R = true -> nonoverlapping R = true -> head_div prec emax b' R ->
  forallb fnz (keep hh ++ R) = true
  /\ nonoverlapping (keep hh ++ R) = true
  /\ head_div prec emax b (keep hh ++ R).
Proof.
  intros Hv Hb' D U Z0 HR NR DR.
  destruct (keep_cases hh) as [E|[E [s Ez]]]; rewrite E; cbn [app].
  - pose proof (keep_fnz hh Hv E) as Hh.
    cbn [forallb head_div]. rewrite Hh, HR. repeat split; trivial.
    destruct R as [|r R']; [reflexivity|].
    cbn [forallb] in HR. apply andb_prop in HR as [Hr _].
    cbn [head_div] in DR.
    change (nonoverlapping (hh :: r :: R'))
      with ((msb hh <? lsb r) && nonoverlapping (r :: R')).
    now rewrite (below_above_nonoverlapping hh r b' Hh Hr Hb' U DR), NR.
  - subst hh. rewrite <- (Z0 eq_refl). now repeat split.
Qed.

(** The components that the loop stores from a state on are finite,
    non-zero and non-overlapping, and they have no bit below [b]. *)
Lemma sum_loop_merge_valid n : forall er fr,
  (length er + length fr = n)%nat ->
  forall Q b,
  4 <= prec -> fv Q = true ->
  forallb fnz er = true -> forallb fnz fr = true ->
  sno er = true -> sno fr = true ->
  sum_state prec emax (val' Q) b er fr ->
  forallb is_finite (sum_loop prec emax Q (merge er fr)) = true ->
  forallb fnz (sum_loop prec emax Q (merge er fr)) = true
  /\ nonoverlapping (sum_loop prec emax Q (merge er fr)) = true
  /\ head_div prec emax b (sum_loop prec emax Q (merge er fr)).
Proof.
  induction n as [|n IH]; intros er fr Hlen Q b Hp HQ He Hf Se Sf St Hfin.
  - destruct er; [|discriminate]. destruct fr; [|discriminate].
    cbn [merge sum_loop] in *.
    destruct St as (X & Y & H & _ & _ & _ & _ & Hb & Dq & _ & _).
    destruct (keep_cases Q) as [E|[E _]]; rewrite E; [|now repeat split].
    cbn [forallb nonoverlapping head_div]. rewrite (keep_fnz Q HQ E). now repeat split.
  - assert (Hne : er <> [] \/ fr <> []).
    { destruct er; [right; destruct fr; [discriminate|discriminate]|left; discriminate]. }
    destruct (merge_pick er fr (fnz_all_fv _ He) (fnz_all_fv _ Hf) Hne)
      as (g & er' & fr' & Em & Pick).
    rewrite Em in *. cbn [sum_loop] in *. cbv zeta in *.
    pose proof (finite_valid_repr Q HQ) as Rq.
    destruct (state_step er fr er' fr' g (val' Q) b Hp He Hf Se Sf St Rq Pick)
      as (He' & Hf' & Se' & Sf' & Hg & b' & L & Dh & Uh & Z0 & St').
    apply keep_finite in Hfin as [Fhh Hfin].
    pose proof (finite_nonzero_fv g Hg) as Vg.
    destruct (PlusTail_exact Q g HQ Vg Fhh) as (VQn & Vhh & E).
    destruct (fadd_finite Q g HQ Vg (fv_is_finite _ VQn)) as [_ EQn].
    fold (fadd prec emax Q g) in *.
    rewrite <- EQn in St', Dh, Uh, Z0.
    replace (val' Q + val' g - val' (add Q g))
      with (val' (PlusTail prec emax Q g (add Q g))) in Dh, Uh, Z0 by lia.
    assert (Hlen' : (length er' + length fr' = n)%nat).
    { destruct Pick as [(-> & -> & _)|(-> & -> & _)]; cbn [length] in Hlen; lia. }
    destruct (IH er' fr' Hlen' (add Q g) b' Hp VQn He' Hf' Se' Sf' St' Hfin)
      as (A1 & A2 & A3).
    destruct St' as (_ & _ & _ & _ & _ & _ & _ & Hb' & _).
    now apply (keep_app_valid _ _ b b').
Qed.

(** The output of [ExpansionSum] on strongly non-overlapping operands is
    a valid non-overlapping expansion. *)
Lemma ExpansionSum_valid e f :
  4 <= prec ->
  strongly_valid prec emax e = true -> strongly_valid prec emax f = true ->
  forallb is_finite (ExpansionSum prec emax e f) = true ->
  valid_expansion prec emax (ExpansionSum prec emax e f) = true.
Proof.
  intros Hp Ve Vf.
  pose proof (strongly_valid_valid e Ve) as Ve'.
  pose proof (strongly_valid_valid f Vf) as Vf'.
  unfold strongly_valid in Ve, Vf.
  apply andb_prop in Ve as [He Se]. apply andb_prop in Vf as [Hf Sf].
  pose proof (merge_head_sorted e f (fnz_all_fv _ He) (fnz_all_fv _ Hf)
                (valid_expansion_head_sorted e Ve')
                (valid_expansion_head_sorted f Vf')) as Hh.
  unfold ExpansionSum.
  destruct f as [|b0 f0]; [intros _; exact Ve'|].
  destruct e as [|a0 e0]; [intros _; exact Vf'|].
  destruct (merge_pick (a0 :: e0) (b0 :: f0) (fnz_all_fv _ He) (fnz_all_fv _ Hf)
              ltac:(left; discriminate)) as (g0 & e1 & f1 & Em & Pick).
  (* the state after the first component *)
  assert (S0 : forallb fnz e1 = true /\ forallb fnz f1 = true
               /\ sno e1 = true /\ sno f1 = true /\ fnz g0 = true
               /\ (e1 <> [] \/ f1 <> [])
               /\ sum_state prec emax (val' g0) 0 e1 f1).
  { destruct Pick as [(E1 & E2 & _)|(E1 & E2 & _)].
    - injection E1 as <- <-. subst f1.
      cbn [forallb] in He. apply andb_prop in He as [Hg He1].
      repeat split; trivial; [now apply (sno_tail a0)|right; discriminate|].
      exists (val' a0), 0, 0.
      split; [lia|]. split; [reflexivity|].
      split.
      { change (val' a0) with (0 + val' a0). apply below_step; trivial.
        apply below_zero. cbn [forallb]. now rewrite Hg. }
      split; [now apply below_zero|]. split; [lia|].
      split; [apply Z.divide_1_l|]. split.
      * destruct e0 as [|x e0']; [exact I|]. cbn [forallb] in He1.
        apply andb_prop in He1 as [Hx _]. cbn [bit_below]. now apply expo_lsb_nonneg.
      * cbn [forallb] in Hf. apply andb_prop in Hf as [Hb _].
        cbn [bit_below]. now apply expo_lsb_nonneg.
    - injection E1 as <- <-. subst e1.
      cbn [forallb] in Hf. apply andb_prop in Hf as [Hg Hf1].
      repeat split; trivial; [now apply (sno_tail b0)|left; discriminate|].
      exists 0, (val' b0), 0.
      split; [lia|]. split; [reflexivity|].
      split; [now apply below_zero|]. split.
      { change (val' b0) with (0 + val' b0). apply below_step; trivial.
        apply below_zero. cbn [forallb]. now rewrite Hg. }
      split; [lia|].
      split; [apply Z.divide_1_l|]. split.
      * cbn [forallb] in He. apply andb_prop in He as [Ha _].
        cbn [bit_below]. now apply expo_lsb_nonneg.
      * destruct f0 as [|x f0']; [exact I|]. cbn [forallb] in Hf1.
        apply andb_prop in Hf1 as [Hx _]. cbn [bit_below]. now apply expo_lsb_nonneg. }
  destruct S0 as (He1 & Hf1 & Se1 & Sf1 & Hg0 & Hne & St).
  destruct (merge_pick e1 f1 (fnz_all_fv _ He1) (fnz_all_fv _ Hf1) Hne)
    as (g1 & e2 & f2 & Em' & Pick').
  rewrite Em, Em' in *. cbv zeta. intros Hfin.
  cbn [head_sorted] in Hh.
  pose proof (finite_nonzero_fv g0 Hg0) as V0.
  pose proof (finite_valid_repr g0 V0) as R0.
  destruct (state_step e1 f1 e2 f2 g1 (val' g0) 0 Hp He1 Hf1 Se1 Sf1 St R0 Pick')
    as (He2 & Hf2 & Se2 & Sf2 & Hg1 & b' & L & Dh & Uh & Z0 & St').
  pose proof (finite_nonzero_fv g1 Hg1) as V1.
  apply keep_finite in Hfin as [Fhh Hfin].
  destruct (FastPlusTail_exact g1 g0 V1 V0 Hh Fhh) as (VQn & Vhh & E).
  destruct (fadd_finite g1 g0 V1 V0 (fv_is_finite _ VQn)) as [_ EQn].
  fold (fadd prec emax g1 g0) in *.
  rewrite (Z.add_comm (val' g0) (val' g1)), <- EQn in St', Dh, Uh, Z0.
  replace (val' g1 + val' g0 - val' (add g1 g0))
    with (val' (FastPlusTail prec emax g1 g0 (add g1 g0))) in Dh, Uh, Z0 by lia.
  destruct (sum_loop_merge_valid _ e2 f2 eq_refl (add g1 g0) b' Hp VQn
              He2 Hf2 Se2 Sf2 St' Hfin) as (A1 & A2 & A3).
  destruct St' as (_ & _ & _ & _ & _ & _ & _ & Hb' & _).
  destruct (keep_app_valid _ _ 0 b' Vhh Hb' Dh Uh Z0 A1 A2 A3) as (B1 & B2 & _).
  unfold valid_expansion. now rewrite B1, B2.
Qed.

(** C3 (amended): for strongly non-overlapping expansions [e] and [f]
    (finite non-zero components in increasing magnitude, non-overlapping,
    two components that touch being powers of two of which the larger
    does not touch the next one), in a format of four bits of precision
    at least, when no component of [ExpansionSum e f] has overflowed, the
    output has at most [length e + length f] components, it is a valid
    non-overlapping expansion, and its exact sum is the sum of [e] plus
    the sum of [f]. *)
Theorem ExpansionSum_strongly_nonoverlapping e f :
  4 <= prec ->
  strongly_valid prec emax e = true ->
  strongly_valid prec emax f = true ->
  forallb is_finite (ExpansionSum prec emax e f) = true ->
  (length (ExpansionSum prec emax e f) <= length e + length f)%nat
  /\ valid_expansion prec emax (ExpansionSum prec emax e f) = true
  /\ sumv (ExpansionSum prec emax e f) = sumv e + sumv f.
Proof.
  intros Hp Ve Vf Hfin. split; [apply ExpansionSum_length|].
  split; [now apply ExpansionSum_valid|].
  pose proof (strongly_valid_valid e Ve) as Ve'.
  pose proof (strongly_valid_valid f Vf) as Vf'.
  apply ExpansionSum_exact; auto using valid_expansion_fv,
    valid_expansion_head_sorted.
Qed.
End Correctness.

(** ** Instances in double precision *)

(** C8, as stated, fails: [a = -3 * 2^970] and [b = DBL_MAX] are finite
    and so is their rounded sum, but [x - a] overflows inside [PlusTail],
    which returns a NaN. *)
Lemma PlusTail_overflow_counterexample :
  let a := Double.dbl (-3) 970 in
  let b := Double.dbl_max in
  let x := fadd Double.prec Double.emax a b in
  finite_valid Double.prec Double.emax a = true
  /\ finite_valid Double.prec Double.emax b = true
  /\ finite_valid Double.prec Double.emax x = true
  /\ PlusTail Double.prec Double.emax a b x = S754_nan.
Proof. vm_compute. repeat split. Qed.

Lemma PlusTail_exact_witness :
  let a := Double.dbl 1 0 in
  let b := Double.dbl 1 (-60) in
  let x := fadd Double.prec Double.emax a b in
  is_finite x = true
  /\ val Double.prec Double.emax a + val Double.prec Double.emax b
     = val Double.prec Double.emax x
       + val Double.prec Double.emax (PlusTail Double.prec Double.emax a b x)
  /\ (length (Plus Double.prec Double.emax a b) <= 2)%nat
  /\ sum_val Double.prec Double.emax (Plus Double.prec Double.emax a b)
     = val Double.prec Double.emax a + val Double.prec Double.emax b.
Proof.
  intros a b x.
  apply (PlusTail_exact_when_tail_finite Double.prec Double.emax);
    first [ unfold Double.prec, Double.emax; lia | vm_compute; reflexivity ].
Defined.

(** C3, as stated, fails: both inputs are valid non-overlapping
    expansions (not strongly so: in each of them the first component
    touches the second one, which is not a power of two), and the output
    [24; -256; -256] is not. *)
Lemma ExpansionSum_overlap_counterexample :
  let e := [Double.dbl (-0x18) 0; Double.dbl (-0x3ffffffffffffe0) 0;
            Double.dbl (-0x1c00000000000000) 0] in
  let f := [Double.dbl (-0x10) 0; Double.dbl (-0xe0) 0;
            Double.dbl 0x1fffffffffffff00 0] in
  valid_expansion Double.prec Double.emax e = true
  /\ valid_expansion Double.prec Double.emax f = true
  /\ strongly_valid Double.prec Double.emax e = false
  /\ strongly_valid Double.prec Double.emax f = false
  /\ ExpansionSum Double.prec Double.emax e f
     = [Double.dbl 24 0; Double.dbl (-256) 0; Double.dbl (-256) 0]
  /\ valid_expansion Double.prec Double.emax
       (ExpansionSum Double.prec Double.emax e f) = false.
Proof. vm_compute. repeat split. Qed.

Lemma ExpansionSum_strongly_nonoverlapping_witness :
  let e := [Double.dbl 1 0; Double.dbl 1 1; Double.dbl 3 60] in
  let f := [Double.dbl 1 (-60); Double.dbl 5 57] in
  (length (ExpansionSum Double.prec Double.emax e f) <= length e + length f)%nat
  /\ valid_expansion Double.prec Double.emax
       (ExpansionSum Double.prec Double.emax e f) = true
  /\ sum_val Double.prec Double.emax (ExpansionSum Double.prec Double.emax e f)
     = sum_val Double.prec Double.emax e + sum_val Double.prec Double.emax f.
Proof.
  intros e f.
  apply (ExpansionSum_strongly_nonoverlapping Double.prec Double.emax);
    first [ unfold Double.prec, Double.emax; lia | vm_compute; reflexivity ].
Defined.

Lemma ExpansionSum_valid_inputs_witness :
  let e := [Double.dbl 1 0; Double.dbl 1 60] in
  let f := [Double.dbl 1 (-60); Double.dbl 3 120] in
  (length (ExpansionSum Double.prec Double.emax e f) <= length e + length f)%nat
  /\ sum_val Double.prec Double.emax (ExpansionSum Double.prec Double.emax e f)
     = sum_val Double.prec Double.emax e + sum_val Double.prec Double.emax f.
Proof.
  intros e f.
  apply (ExpansionSum_valid_inputs Double.prec Double.emax);
    first [ unfold Double.prec, Double.emax; lia | vm_compute; reflexivity ].
Defined.



(** ** Instances of the further properties in double precision *)

Lemma FastPlusTail_witness :
  let a := Double.dbl 1 0 in
  let b := Double.dbl 1 (-60) in
  let x := fadd Double.prec Double.emax a b in
  is_finite x = true
  /\ val Double.prec Double.emax a + val Double.prec Double.emax b
     = val Double.prec Double.emax x
       + val Double.prec Double.emax
           (FastPlusTail Double.prec Double.emax a b x).
Proof.
  intros a b x.
  apply (FastPlusTail_is_rounding_error Double.prec Double.emax);
    first [ unfold Double.prec, Double.emax; lia
          | vm_compute; reflexivity
          | vm_compute; discriminate ].
Defined.

Lemma MinusTail_witness :
  let a := Double.dbl 1 0 in
  let b := Double.dbl 1 (-60) in
  let x := fsub Double.prec Double.emax a b in
  is_finite x = true
  /\ val Double.prec Double.emax a - val Double.prec Double.emax b
     = val Double.prec Double.emax x
       + val Double.prec Double.emax
           (MinusTail Double.prec Double.emax a b x).
Proof.
  intros a b x.
  apply (MinusTail_is_rounding_error Double.prec Double.emax);
    first [ unfold Double.prec, Double.emax; lia | vm_compute; reflexivity ].
Defined.

Lemma Minus_witness :
  let a := Double.dbl 1 0 in
  let b := Double.dbl 1 (-60) in
  (length (Minus Double.prec Double.emax a b) <= 2)%nat
  /\ sum_val Double.prec Double.emax (Minus Double.prec Double.emax a b)
     = val Double.prec Double.emax a - val Double.prec Double.emax b.
Proof.
  intros a b.
  apply (Minus_is_exact Double.prec Double.emax);
    first [ unfold Double.prec, Double.emax; lia | vm_compute; reflexivity ].
Defined.

Lemma PlusTail_of_overflow_witness :
  PlusTail Double.prec Double.emax Double.dbl_max Double.dbl_max
    (fadd Double.prec Double.emax Double.dbl_max Double.dbl_max)
  = S754_nan.
Proof.
  apply (PlusTail_of_overflow_is_nan Double.prec Double.emax);
    first [ unfold Double.prec, Double.emax; lia | vm_compute; reflexivity ].
Defined.

Lemma mostSignificant_witness :
  let e := [Double.dbl (-1) (-60); Double.dbl 1 0] in
  (e = [] -> mostSignificant e = zero)
  /\ fsign (mostSignificant e) = Some (Z.sgn (sum_val Double.prec Double.emax e))
  /\ (sum_val Double.prec Double.emax e = 0 <-> e = []).
Proof.
  intros e.
  apply (mostSignificant_has_sign_of_sum Double.prec Double.emax).
  vm_compute; reflexivity.
Defined.

Lemma esub_witness :
  let e := [Double.dbl 1 0; Double.dbl 1 60] in
  let f := [Double.dbl 1 (-60); Double.dbl 3 120] in
  (length (esub Double.prec Double.emax e f) <= length e + length f)%nat
  /\ sum_val Double.prec Double.emax (esub Double.prec Double.emax e f)
     = sum_val Double.prec Double.emax e - sum_val Double.prec Double.emax f.
Proof.
  intros e f.
  apply (esub_is_exact Double.prec Double.emax);
    first [ unfold Double.prec, Double.emax; lia | vm_compute; reflexivity ].
Defined.

Lemma merge_witness :
  let e := [Double.dbl 1 0; Double.dbl 1 60] in
  let f := [Double.dbl 1 (-60); Double.dbl 3 120] in
  Permutation (merge e f) (e ++ f)
  /\ abs_sorted Double.prec Double.emax (merge e f).
Proof.
  intros e f.
  destruct (merge_sorted_permutation Double.prec Double.emax
              ltac:(unfold Double.prec; lia)
              ltac:(unfold Double.prec, Double.emax; lia) e f) as [P S].
  split; [exact P|].
  apply S; vm_compute; intuition discriminate.
Defined.

Lemma Mult_fma_witness :
  let a := Double.dbl 4503599627370497 0 in
  let b := Double.dbl 4503599627370499 (-30) in
  (length (Mult Double.prec Double.emax true a b) <= 2)%nat
  /\ sum_val Double.prec Double.emax (Mult Double.prec Double.emax true a b)
     * unit_inv Double.prec Double.emax
     = val Double.prec Double.emax a * val Double.prec Double.emax b.
Proof.
  intros a b.
  apply (Mult_fma_is_exact Double.prec Double.emax);
    first [ unfold Double.prec, Double.emax; lia | vm_compute; reflexivity ].
Defined.

Lemma TwoTwoDiff_fma_witness :
  let ax := Double.dbl 4503599627370497 0 in
  let by_ := Double.dbl 4503599627370499 (-30) in
  let ay := Double.dbl 4503599627370501 (-3) in
  let bx := Double.dbl 4503599627370503 (-27) in
  sum_val Double.prec Double.emax
    (TwoTwoDiff Double.prec Double.emax true ax by_ ay bx)
  * unit_inv Double.prec Double.emax
  = val Double.prec Double.emax ax * val Double.prec Double.emax by_
    - val Double.prec Double.emax ay * val Double.prec Double.emax bx.
Proof.
  intros ax by_ ay bx.
  apply (TwoTwoDiff_fma_is_exact Double.prec Double.emax);
    first [ unfold Double.prec, Double.emax; lia | vm_compute; reflexivity ].
Defined.

Lemma TwoTwoDiffZeroCheck_fma_witness :
  let ax := Double.dbl 0 0 in
  let by_ := Double.dbl 3 0 in
  let ay := Double.dbl 4503599627370497 0 in
  let bx := Double.dbl 4503599627370499 (-30) in
  sum_val Double.prec Double.emax
    (TwoTwoDiffZeroCheck Double.prec Double.emax true ax by_ ay bx)
  * unit_inv Double.prec Double.emax
  = val Double.prec Double.emax ay * val Double.prec Double.emax bx.
Proof.
  intros ax by_ ay bx.
  apply (TwoTwoDiffZeroCheck_fma_value Double.prec Double.emax
           ltac:(unfold Double.prec; lia)
           ltac:(unfold Double.prec, Double.emax; lia) ax by_ ay bx);
    vm_compute; reflexivity.
Defined.

Lemma orient2d_stage2_exact_witness :
  let pa := (Double.dbl 8021894776819853 0, Double.dbl 5217942321458297 0) in
  let pb := (Double.dbl 6538471232821185 0, Double.dbl 4253030825330838 0) in
  let pc := (Double.dbl 0 0, Double.dbl 0 0) in
  represents_det Double.prec Double.emax (Orient2d pa pb pc)
    (sum_val Double.prec Double.emax
       (orient2d_stage2 Double.prec Double.emax true pa pb pc)).
Proof.
  intros pa pb pc.
  apply (orient2d_stage2_exact_when_tails_vanish Double.prec Double.emax);
    first [ unfold Double.prec, Double.emax; lia | vm_compute; reflexivity ].
Defined.

Lemma exact_orient2d_fma_witness :
  let pa := (Double.dbl 4503599627370497 0, Double.dbl 4503599627370499 (-30)) in
  let pb := (Double.dbl 4503599627370501 (-3), Double.dbl 4503599627370503 (-27)) in
  let pc := (Double.dbl 3 0, Double.dbl 5 0) in
  sum_val Double.prec Double.emax
    (exact_orient2d_expansion Double.prec Double.emax true pa pb pc)
  * unit_inv Double.prec Double.emax
  = det_orient2d Double.prec Double.emax pa pb pc
  /\ fsign (exact_orient2d Double.prec Double.emax true pa pb pc)
     = Some (Z.sgn (det_orient2d Double.prec Double.emax pa pb pc)).
Proof.
  intros pa pb pc.
  apply (exact_orient2d_fma_sign Double.prec Double.emax);
    first [ unfold Double.prec, Double.emax; lia | vm_compute; reflexivity ].
Defined.

(** * No store leaves the backing array *)

Section ArrayTheory.

Variables prec emax : Z.
Variable use_fma : bool.

Lemma store_spec h i v :
  (i < length h)%nat ->
  exists h', store h i v = Some h' /\ length h' = length h
             /\ firstn (S i) h' = firstn i h ++ [v]
             /\ (forall j, (i < j)%nat -> skipn j h' = skipn j h).
Proof.
  intros Hi. unfold store. apply Nat.ltb_lt in Hi as Hb. rewrite Hb.
  eexists. split; [reflexivity|].
  assert (Hl : length (firstn i h) = i) by (apply firstn_length_le; lia).
  repeat split.
  - rewrite length_app, Hl. cbn [length]. rewrite length_skipn. lia.
  - replace (S i) with (length (firstn i h) + 1)%nat by lia.
    rewrite firstn_app_2. reflexivity.
  - intros j Hj.
    rewrite skipn_app, Hl, skipn_all2 by (rewrite Hl; lia). cbn [app].
    destruct (j - i)%nat as [|k] eqn:E; [lia|]. rewrite skipn_cons.
    rewrite skipn_skipn. f_equal. lia.
Qed.

Lemma store_nz_spec h i v :
  (i < length h)%nat ->
  exists h', store_nz h i v = Some (i + length (keep v), h')%nat
             /\ length h' = length h
             /\ firstn (i + length (keep v)) h' = firstn i h ++ keep v
             /\ (forall j, (i < j)%nat -> skipn j h' = skipn j h).
Proof.
  intros Hi. unfold store_nz, keep. destruct (fne zero v).
  - destruct (store_spec h i v Hi) as (h' & -> & Hl & Hf & Hs).
    exists h'. cbn [length]. replace (i + 1)%nat with (S i) by lia. now repeat split.
  - exists h. cbn [length]. rewrite Nat.add_0_r, app_nil_r. now repeat split.
Qed.

Lemma store_all_spec xs : forall h i,
  (i + length xs <= length h)%nat ->
  exists h', store_all h i xs = Some h' /\ length h' = length h
             /\ firstn (i + length xs) h' = firstn i h ++ xs.
Proof.
  induction xs as [|x xs IH]; intros h i Hl.
  - exists h. cbn [store_all length]. rewrite Nat.add_0_r, app_nil_r. now repeat split.
  - cbn [length] in Hl. cbn [store_all].
    destruct (store_spec h i x ltac:(lia)) as (h1 & -> & Hl1 & Hf1 & _).
    destruct (IH h1 (S i) ltac:(lia)) as (h2 & -> & Hl2 & Hf2).
    exists h2. repeat split; [lia|].
    cbn [length]. replace (i + S (length xs))%nat with (S i + length xs)%nat by lia.
    rewrite Hf2, Hf1, <- app_assoc. reflexivity.
Qed.

Lemma load_skipn h g x r : skipn g h = x :: r -> load h g = Some x.
Proof.
  unfold load. revert h. induction g as [|g IH]; intros h E.
  - cbn in E. now subst h.
  - destruct h as [|y h]; [discriminate|]. cbn in *. now apply IH.
Qed.

Lemma skipn_S_tail (h : list spec_float) g x r : skipn g h = x :: r -> skipn (S g) h = r.
Proof.
  revert h. induction g as [|g IH]; intros h E.
  - cbn in E. now subst h.
  - destruct h as [|y h]; [discriminate|]. cbn in *. now apply IH.
Qed.

(** The loop of [ExpansionSum] reads ahead of where it writes. *)
Lemma sum_loop_arr_spec hs : forall g Q hIndex h r,
  (hIndex < g)%nat -> skipn g h = hs ++ r -> (hIndex < length h)%nat ->
  exists h',
    sum_loop_arr prec emax (length hs) g Q hIndex h
    = Some (hIndex + length (sum_loop prec emax Q hs), h')%nat
    /\ length h' = length h
    /\ firstn (hIndex + length (sum_loop prec emax Q hs)) h'
       = firstn hIndex h ++ sum_loop prec emax Q hs.
Proof.
  induction hs as [|hg hs IH]; intros g Q hIndex h r Hlt Hs Hl.
  - cbn [length sum_loop_arr sum_loop].
    destruct (store_nz_spec h hIndex Q Hl) as (h' & E & Hl' & Hf & _).
    exists h'. now repeat split.
  - cbn [length sum_loop_arr sum_loop]. cbv zeta.
    cbn [app] in Hs. rewrite (load_skipn _ _ _ _ Hs).
    set (Qnew := fadd prec emax Q hg).
    set (hh := PlusTail prec emax Q hg Qnew).
    destruct (store_nz_spec h hIndex hh Hl) as (h1 & -> & Hl1 & Hf1 & Hs1).
    assert (Hg : (g < length h)%nat).
    { destruct (Nat.lt_ge_cases g (length h)) as [|Hge]; trivial.
      rewrite skipn_all2 in Hs by lia. discriminate. }
    pose proof (keep_length hh) as Hk.
    destruct (IH (S g) Qnew (hIndex + length (keep hh))%nat h1 r) as (h2 & E2 & Hl2 & Hf2).
    + lia.
    + rewrite Hs1 by lia. now apply skipn_S_tail with (x := hg).
    + lia.
    + exists h2. rewrite E2, length_app.
      rewrite Nat.add_assoc. repeat split; [lia|].
      rewrite Hf2, Hf1, <- app_assoc. reflexivity.
Qed.

Lemma firstn_skipn_split (h : list spec_float) k :
  (k <= length h)%nat -> skipn 0 h = firstn k h ++ skipn k h.
Proof. intros _. cbn [skipn]. symmetry. apply firstn_skipn. Qed.

(** [ExpansionSum] stays inside an array of [n + m] cells, and leaves the
    components of the list-level function in its first cells. *)
Lemma ExpansionSum_arr_spec e f h :
  (length e + length f <= length h)%nat ->
  exists h',
    ExpansionSum_arr prec emax e f h
    = Some (length (ExpansionSum prec emax e f), h')
    /\ length h' = length h
    /\ firstn (length (ExpansionSum prec emax e f)) h' = ExpansionSum prec emax e f.
Proof.
  intros Hl. unfold ExpansionSum_arr, ExpansionSum. cbv zeta.
  pose proof (merge_length e f) as Hm.
  assert (H0 : (0 + length (merge e f) <= length h)%nat) by (rewrite Hm; lia).
  destruct (store_all_spec (merge e f) h 0 H0) as (h1 & -> & Hl1 & Hf1).
  cbn [firstn app Nat.add] in Hf1.
  destruct f as [|b f].
  - cbn [length Nat.eqb]. exists h1. rewrite merge_nil_r in *. now repeat split.
  - destruct e as [|a e].
    + cbn [length Nat.eqb]. exists h1. cbn [merge] in *. now repeat split.
    + cbn [length Nat.eqb].
      destruct (merge (a :: e) (b :: f)) as [|h0 [|h1' hs]] eqn:Em;
        cbn [length] in Hm; try lia.
      assert (Hsk : skipn 0 h1 = h0 :: h1' :: hs ++ skipn (S (S (length hs))) h1).
      { rewrite (firstn_skipn_split h1 (S (S (length hs)))) by (cbn [length] in *; lia).
        cbn [length] in Hf1. rewrite Hf1. reflexivity. }
      rewrite (load_skipn _ _ _ _ Hsk).
      pose proof (skipn_S_tail _ _ _ _ Hsk) as Hsk1.
      rewrite (load_skipn _ _ _ _ Hsk1).
      pose proof (skipn_S_tail _ _ _ _ Hsk1) as Hsk2.
      set (Qnew := fadd prec emax h1' h0).
      set (hh := FastPlusTail prec emax h1' h0 Qnew).
      destruct (store_nz_spec h1 0 hh ltac:(cbn [length] in *; lia))
        as (h2 & -> & Hl2 & Hf2 & Hs2).
      pose proof (keep_length hh) as Hk.
      replace (S (length e) + S (length f) - 2)%nat with (length hs) by lia.
      destruct (sum_loop_arr_spec hs 2 Qnew (0 + length (keep hh))%nat h2
                  (skipn (S (S (length hs))) h1)) as (h3 & E3 & Hl3 & Hf3).
      * lia.
      * rewrite Hs2 by lia. exact Hsk2.
      * cbn [length] in *. lia.
      * exists h3. rewrite E3, length_app. cbn [Nat.add] in *.
        repeat split; [lia|]. rewrite Hf3, Hf2. reflexivity.
Qed.

Lemma scale_loop_arr_spec b bSplit es : forall Q hIndex h,
  (hIndex + 2 * length es + 1 <= length h)%nat ->
  exists h',
    scale_loop_arr prec emax use_fma b bSplit es Q hIndex h
    = Some (hIndex + length (scale_loop prec emax use_fma b bSplit Q es), h')%nat
    /\ length h' = length h
    /\ firstn (hIndex + length (scale_loop prec emax use_fma b bSplit Q es)) h'
       = firstn hIndex h ++ scale_loop prec emax use_fma b bSplit Q es.
Proof.
  induction es as [|ei es IH]; intros Q hIndex h Hl.
  - cbn [length scale_loop_arr scale_loop] in *.
    destruct (store_nz_spec h hIndex Q ltac:(lia)) as (h' & E & Hl' & Hf & _).
    exists h'. now repeat split.
  - cbn [length scale_loop_arr scale_loop] in *. cbv zeta.
    set (Ti := fmul prec emax ei b).
    set (ti := MultTailPreSplit prec emax use_fma ei b bSplit Ti).
    set (Qi := fadd prec emax Q ti).
    set (hh := PlusTail prec emax Q ti Qi).
    set (Q' := fadd prec emax Ti Qi).
    set (hh' := FastPlusTail prec emax Ti Qi Q').
    pose proof (keep_length hh) as Hk. pose proof (keep_length hh') as Hk'.
    destruct (store_nz_spec h hIndex hh ltac:(lia)) as (h1 & -> & Hl1 & Hf1 & _).
    destruct (store_nz_spec h1 (hIndex + length (keep hh))%nat hh' ltac:(lia))
      as (h2 & -> & Hl2 & Hf2 & _).
    destruct (IH Q' (hIndex + length (keep hh) + length (keep hh'))%nat h2 ltac:(lia))
      as (h3 & -> & Hl3 & Hf3).
    exists h3. rewrite !length_app, !Nat.add_assoc.
    repeat split; [lia|].
    rewrite Hf3, Hf2, Hf1, <- !app_assoc. reflexivity.
Qed.

(** [ScaleExpansion] stays inside an array of [2 n] cells. *)
Lemma ScaleExpansion_arr_spec e b h :
  (2 * length e <= length h)%nat ->
  exists h',
    ScaleExpansion_arr prec emax use_fma e b h
    = Some (length (ScaleExpansion prec emax use_fma e b), h')
    /\ length h' = length h
    /\ firstn (length (ScaleExpansion prec emax use_fma e b)) h'
       = ScaleExpansion prec emax use_fma e b.
Proof.
  intros Hl. unfold ScaleExpansion_arr, ScaleExpansion.
  destruct e as [|e0 es]; [exists h; now repeat split|].
  destruct (feq zero b); [exists h; now repeat split|].
  cbv zeta. cbn [length] in Hl.
  set (Q := fmul prec emax e0 b).
  set (bSplit := Split prec emax b).
  set (hh := MultTailPreSplit prec emax use_fma e0 b bSplit Q).
  pose proof (keep_length hh) as Hk.
  destruct (store_nz_spec h 0 hh ltac:(lia)) as (h1 & -> & Hl1 & Hf1 & _).
  destruct (scale_loop_arr_spec b bSplit es Q (0 + length (keep hh))%nat h1 ltac:(lia))
    as (h2 & -> & Hl2 & Hf2).
  exists h2. rewrite length_app. cbn [Nat.add] in *.
  repeat split; [lia|]. rewrite Hf2, Hf1. reflexivity.
Qed.

(** A conditional [push_back] into an object that is not full. *)
Lemma push_back_nz_spec e v :
  (m_size e < length (data e))%nat ->
  exists e',
    push_back_nz (Some e) v = Some e'
    /\ length (data e') = length (data e)
    /\ m_size e' = (m_size e + length (keep v))%nat
    /\ components e' = components e ++ keep v.
Proof.
  intros Hl. unfold push_back_nz, push_back, keep, components.
  destruct (fne zero v).
  - destruct (store_spec (data e) (m_size e) v Hl) as (d & -> & Hd & Hf & _).
    eexists. split; [reflexivity|]. cbn [data m_size length].
    repeat split; trivial. lia.
  - exists e. cbn [length]. rewrite Nat.add_0_r, app_nil_r. now repeat split.
Qed.

Lemma MakeExpansion_obj_spec arr value tail :
  length arr = 2%nat ->
  exists e,
    MakeExpansion_obj arr value tail = Some e
    /\ components e = MakeExpansion value tail
    /\ (m_size e <= 2)%nat.
Proof.
  intros Hl. unfold MakeExpansion_obj. cbv zeta.
  pose proof (keep_length tail). pose proof (keep_length value).
  destruct (push_back_nz_spec {| data := arr; m_size := 0 |} tail
              ltac:(cbn [data m_size]; lia)) as (e1 & -> & L1 & S1 & C1).
  cbn [data m_size] in *.
  destruct (push_back_nz_spec e1 value ltac:(lia)) as (e2 & -> & L2 & S2 & C2).
  exists e2. repeat split; [|lia]. rewrite C2, C1. reflexivity.
Qed.

Lemma TwoTwoDiff_obj_spec arr ax by_ ay bx :
  length arr = 4%nat ->
  exists e,
    TwoTwoDiff_obj prec emax use_fma arr ax by_ ay bx = Some e
    /\ components e = TwoTwoDiff prec emax use_fma ax by_ ay bx
    /\ (m_size e <= 4)%nat.
Proof.
  intros Hl. unfold TwoTwoDiff_obj, TwoTwoDiff. cbv zeta.
  repeat match goal with
         | |- context [keep ?v] =>
             lazymatch goal with
             | H : (length (keep v) <= 1)%nat |- _ => fail
             | _ => pose proof (keep_length v)
             end
         end.
  destruct (push_back_nz_spec {| data := arr; m_size := 0 |}
              (MinusTail prec emax
                 (MultTail prec emax use_fma ax by_ (fmul prec emax ax by_))
                 (MultTail prec emax use_fma bx ay (fmul prec emax bx ay))
                 (fsub prec emax
                    (MultTail prec emax use_fma ax by_ (fmul prec emax ax by_))
                    (MultTail prec emax use_fma bx ay (fmul prec emax bx ay))))
              ltac:(cbn [data m_size]; lia)) as (e1 & E1 & L1 & S1 & C1).
  cbn [data m_size] in *.
  match type of E1 with ?l = _ => change l with l; rewrite E1 end.
  match goal with |- context [push_back_nz (Some e1) ?v] =>
    destruct (push_back_nz_spec e1 v ltac:(lia)) as (e2 & -> & L2 & S2 & C2) end.
  match goal with |- context [push_back_nz (Some e2) ?v] =>
    destruct (push_back_nz_spec e2 v ltac:(lia)) as (e3 & -> & L3 & S3 & C3) end.
  match goal with |- context [push_back_nz (Some e3) ?v] =>
    destruct (push_back_nz_spec e3 v ltac:(lia)) as (e4 & -> & L4 & S4 & C4) end.
  exists e4. repeat split; [|lia].
  rewrite C4, C3, C2, C1, <- !app_assoc. reflexivity.
Qed.

Lemma scale_loop_length b bSplit es : forall Q,
  (length (scale_loop prec emax use_fma b bSplit Q es) <= 2 * length es + 1)%nat.
Proof.
  induction es as [|ei es IH]; intros Q; cbn [scale_loop length].
  - apply keep_length.
  - rewrite !length_app.
    pose proof (IH (fadd prec emax (fmul prec emax ei b)
                      (fadd prec emax Q
                         (MultTailPreSplit prec emax use_fma ei b bSplit
                            (fmul prec emax ei b))))) as H.
    pose proof (keep_length
                  (PlusTail prec emax Q
                     (MultTailPreSplit prec emax use_fma ei b bSplit
                        (fmul prec emax ei b))
                     (fadd prec emax Q
                        (MultTailPreSplit prec emax use_fma ei b bSplit
                           (fmul prec emax ei b))))) as H1.
    pose proof (keep_length
                  (FastPlusTail prec emax (fmul prec emax ei b)
                     (fadd prec emax Q
                        (MultTailPreSplit prec emax use_fma ei b bSplit
                           (fmul prec emax ei b)))
                     (fadd prec emax (fmul prec emax ei b)
                        (fadd prec emax Q
                           (MultTailPreSplit prec emax use_fma ei b bSplit
                              (fmul prec emax ei b)))))) as H2.
    lia.
Qed.

Lemma ScaleExpansion_length e b :
  (length (ScaleExpansion prec emax use_fma e b) <= 2 * length e)%nat.
Proof.
  destruct e as [|e0 es]; cbn [ScaleExpansion length]; [lia|].
  destruct (feq zero b); cbn [length]; [lia|].
  rewrite length_app.
  pose proof (scale_loop_length b (Split prec emax b) es (fmul prec emax e0 b)).
  pose proof (keep_length
                (MultTailPreSplit prec emax use_fma e0 b (Split prec emax b)
                   (fmul prec emax e0 b))).
  lia.
Qed.

(** * The claim on the capacity of the arrays *)

(** C10: no store goes past the end of the array.  Run on an output
    array of [n + m] cells, [ExpansionSum] stores every component in
    bounds and returns a size of at most [n + m]; on [2 n] cells
    [ScaleExpansion] does, for a size of at most [2 n]; on a fresh object
    of capacity 4 every [push_back] of [TwoTwoDiff] finds [m_size] below
    the capacity, and so does every [push_back] of [MakeExpansion] on
    capacity 2.  The cells below the returned size are the components of
    the list-level functions. *)
Theorem stores_stay_within_capacity :
  (forall e f h,
     (length e + length f <= length h)%nat ->
     exists k h',
       ExpansionSum_arr prec emax e f h = Some (k, h')
       /\ (k <= length e + length f)%nat
       /\ length h' = length h
       /\ firstn k h' = ExpansionSum prec emax e f)
  /\ (forall e b h,
        (2 * length e <= length h)%nat ->
        exists k h',
          ScaleExpansion_arr prec emax use_fma e b h = Some (k, h')
          /\ (k <= 2 * length e)%nat
          /\ length h' = length h
          /\ firstn k h' = ScaleExpansion prec emax use_fma e b)
  /\ (forall arr ax by_ ay bx,
        length arr = 4%nat ->
        exists e,
          TwoTwoDiff_obj prec emax use_fma arr ax by_ ay bx = Some e
          /\ (m_size e <= 4)%nat
          /\ components e = TwoTwoDiff prec emax use_fma ax by_ ay bx)
  /\ (forall arr value tail,
        length arr = 2%nat ->
        exists e,
          MakeExpansion_obj arr value tail = Some e
          /\ (m_size e <= 2)%nat
          /\ components e = MakeExpansion value tail)
  /\ (forall e v,
        (m_size e < length (data e))%nat ->
        exists e', push_back e v = Some e')
  /\ (forall e v,
        (length (data e) <= m_size e)%nat -> push_back e v = None).
Proof.
  repeat split.
  - intros e f h H.
    destruct (ExpansionSum_arr_spec e f h H) as (h' & E & L & F).
    exists (length (ExpansionSum prec emax e f)), h'.
    repeat split; auto. apply ExpansionSum_length.
  - intros e b h H.
    destruct (ScaleExpansion_arr_spec e b h H) as (h' & E & L & F).
    exists (length (ScaleExpansion prec emax use_fma e b)), h'.
    repeat split; auto. apply ScaleExpansion_length.
  - intros arr ax by_ ay bx H.
    destruct (TwoTwoDiff_obj_spec arr ax by_ ay bx H) as (e & E & C & L).
    exists e. auto.
  - intros arr value tail H.
    destruct (MakeExpansion_obj_spec arr value tail H) as (e & E & C & L).
    exists e. auto.
  - intros e v H. unfold push_back.
    destruct (store_spec (data e) (m_size e) v H) as (d & -> & _).
    eauto.
  - intros e v H. unfold push_back, store.
    destruct (Nat.ltb_spec (m_size e) (length (data e))); [lia|reflexivity].
Qed.

(** * The declared capacities are never exceeded *)

Lemma eadd_length e f :
  (length (eadd prec emax e f) <= length e + length f)%nat.
Proof. apply ExpansionSum_length. Qed.

Lemma esub_length e f :
  (length (esub prec emax e f) <= length e + length f)%nat.
Proof.
  unfold esub, eadd. pose proof (ExpansionSum_length prec emax e (negate f)) as H.
  unfold negate in H at 2. rewrite length_map in H. exact H.
Qed.

Lemma escale_length e b :
  (length (escale prec emax use_fma e b) <= 2 * length e)%nat.
Proof. apply ScaleExpansion_length. Qed.

Lemma MakeExpansion_length value tail :
  (length (MakeExpansion value tail) <= 2)%nat.
Proof.
  change (MakeExpansion value tail) with (keep tail ++ keep value).
  rewrite length_app.
  pose proof (keep_length tail). pose proof (keep_length value). lia.
Qed.

Lemma TwoTwoDiff_length ax by_ ay bx :
  (length (TwoTwoDiff prec emax use_fma ax by_ ay bx) <= 4)%nat.
Proof.
  unfold TwoTwoDiff. cbv zeta. rewrite !length_app.
  repeat match goal with
         | |- context [length (keep ?v)] =>
             lazymatch goal with
             | _ : (length (keep v) <= 1)%nat |- _ => fail
             | _ => pose proof (keep_length v)
             end
         end.
  lia.
Qed.

(** The sizes of the operands of an expression bound its size. *)
Ltac len_bound t :=
  lazymatch t with
  | eadd _ _ ?a ?b => len_bound a; len_bound b; pose proof (eadd_length a b)
  | esub _ _ ?a ?b => len_bound a; len_bound b; pose proof (esub_length a b)
  | escale _ _ _ ?a ?b => len_bound a; pose proof (escale_length a b)
  | TwoTwoDiff _ _ _ ?a ?b ?c ?d => pose proof (TwoTwoDiff_length a b c d)
  | _ => idtac
  end.

Ltac len_step :=
  pull_let;
  match goal with
  | x := ?v |- _ =>
      len_bound v;
      first [ assert (length x = length v) by reflexivity | idtac ];
      clearbody x
  end.

Ltac len_goal :=
  repeat len_step;
  lazymatch goal with
  | |- Z.of_nat (length ?t) <= _ => len_bound t; lia
  end.

Lemma exact_orient2d_expansion_length pa pb pc :
  Z.of_nat (length (exact_orient2d_expansion prec emax use_fma pa pb pc)) <= 12.
Proof. cbv beta delta [exact_orient2d_expansion]. len_goal. Qed.

Lemma exact_orient3d_expansion_length pa pb pc pd :
  Z.of_nat (length (exact_orient3d_expansion prec emax use_fma pa pb pc pd)) <= 96.
Proof. cbv beta delta [exact_orient3d_expansion]. len_goal. Qed.

Lemma exact_incircle_expansion_length pa pb pc pd :
  Z.of_nat (length (exact_incircle_expansion prec emax use_fma pa pb pc pd)) <= 384.
Proof. cbv beta delta [exact_incircle_expansion]. len_goal. Qed.

Lemma exact_insphere_expansion_length pa pb pc pd pe :
  Z.of_nat (length (exact_insphere_expansion prec emax use_fma pa pb pc pd pe)) <= 5760.
Proof. cbv beta delta [exact_insphere_expansion]. len_goal. Qed.

Lemma orient2d_stage2_length pa pb pc :
  Z.of_nat (length (orient2d_stage2 prec emax use_fma pa pb pc)) <= 4.
Proof. cbv beta delta [orient2d_stage2]. len_goal. Qed.

Lemma orient3d_stage2_length pa pb pc pd :
  Z.of_nat (length (orient3d_stage2 prec emax use_fma pa pb pc pd)) <= 24.
Proof. cbv beta delta [orient3d_stage2]. len_goal. Qed.

Lemma incircle_stage2_length pa pb pc pd :
  Z.of_nat (length (incircle_stage2 prec emax use_fma pa pb pc pd)) <= 96.
Proof. cbv beta delta [incircle_stage2]. len_goal. Qed.

Lemma insphere_stage2_length pa pb pc pd pe :
  Z.of_nat (length (insphere_stage2 prec emax use_fma pa pb pc pd pe)) <= 1152.
Proof. cbv beta delta [insphere_stage2]. len_goal. Qed.

Lemma ThreeProd_length a b c :
  (length (ThreeProd prec emax use_fma a b c) <= 4)%nat.
Proof.
  unfold ThreeProd. destruct (_ || _); cbn [length]; [lia|].
  pose proof (escale_length (Mult prec emax use_fma a b) c) as H.
  pose proof (MakeExpansion_length (fmul prec emax a b)
                (MultTail prec emax use_fma a b (fmul prec emax a b))) as H'.
  change (MakeExpansion (fmul prec emax a b)
            (MultTail prec emax use_fma a b (fmul prec emax a b)))
    with (Mult prec emax use_fma a b) in H'.
  lia.
Qed.

Lemma TwoTwoDiffZeroCheck_length ax by_ ay bx :
  (length (TwoTwoDiffZeroCheck prec emax use_fma ax by_ ay bx) <= 4)%nat.
Proof.
  unfold TwoTwoDiffZeroCheck.
  destruct (_ && _); cbn [length]; [lia|].
  destruct (feq zero ax).
  - pose proof (MakeExpansion_length (fmul prec emax ay bx)
                  (MultTail prec emax use_fma ay bx (fmul prec emax ay bx))) as H.
    change (MakeExpansion (fmul prec emax ay bx)
              (MultTail prec emax use_fma ay bx (fmul prec emax ay bx)))
      with (Mult prec emax use_fma ay bx) in H. lia.
  - destruct (feq zero ay).
    + pose proof (MakeExpansion_length (fmul prec emax ax by_)
                    (MultTail prec emax use_fma ax by_ (fmul prec emax ax by_))) as H.
      change (MakeExpansion (fmul prec emax ax by_)
                (MultTail prec emax use_fma ax by_ (fmul prec emax ax by_)))
        with (Mult prec emax use_fma ax by_) in H. lia.
    + apply TwoTwoDiff_length.
Qed.

(** X13: the expansion that each exact evaluator sums never has more
    components than the capacity its C++ type declares: 12 for
    [orient2d], 96 for [orient3d], 384 for [incircle] and 5760 for
    [insphere]. *)
Theorem exact_expansion_within_capacity q :
  Z.of_nat (length (exact_expansion prec emax use_fma q))
  <= match q with
     | Orient2d _ _ _ => 12
     | Orient3d _ _ _ _ => 96
     | Incircle _ _ _ _ => 384
     | Insphere _ _ _ _ _ => 5760
     end.
Proof.
  destruct q; cbv beta iota delta [exact_expansion].
  - apply exact_orient2d_expansion_length.
  - apply exact_incircle_expansion_length.
  - apply exact_orient3d_expansion_length.
  - apply exact_insphere_expansion_length.
Qed.

(** X14: the expansion of the second stage of each adaptive evaluator never
    has more components than the capacity its C++ type declares: 4 for
    [orient2d], 24 for [orient3d], 96 for [incircle] and 1152 for
    [insphere]. *)
Theorem stage2_within_capacity q :
  Z.of_nat (length (stage2 prec emax use_fma q))
  <= match q with
     | Orient2d _ _ _ => 4
     | Orient3d _ _ _ _ => 24
     | Incircle _ _ _ _ => 96
     | Insphere _ _ _ _ _ => 1152
     end.
Proof.
  destruct q; cbv beta iota delta [stage2].
  - apply orient2d_stage2_length.
  - apply incircle_stage2_length.
  - apply orient3d_stage2_length.
  - apply insphere_stage2_length.
Qed.

(** X15: [ThreeProd] and [TwoTwoDiffZeroCheck] return at most 4 components,
    the capacity of their result type, and [ThreeProd] returns none when
    one of its factors is zero. *)
Theorem small_products_within_capacity :
  (forall a b c, (length (ThreeProd prec emax use_fma a b c) <= 4)%nat)
  /\ (forall a b c,
        feq zero a = true \/ feq zero b = true \/ feq zero c = true ->
        ThreeProd prec emax use_fma a b c = [])
  /\ (forall ax by_ ay bx,
        (length (TwoTwoDiffZeroCheck prec emax use_fma ax by_ ay bx) <= 4)%nat).
Proof.
  split; [apply ThreeProd_length|]. split; [|apply TwoTwoDiffZeroCheck_length].
  intros a b c H. unfold ThreeProd.
  destruct H as [ -> | [ -> | -> ] ]; cbn [orb]; rewrite ?orb_true_r; reflexivity.
Qed.
End ArrayTheory.

Lemma stores_stay_within_capacity_witness :
  exists k h',
    ExpansionSum_arr Double.prec Double.emax
      [Double.dbl 1 0; Double.dbl 1 60] [Double.dbl 1 (-60); Double.dbl 3 120]
      (repeat zero 4) = Some (k, h')
    /\ (k <= 2 + 2)%nat
    /\ length h' = 4%nat
    /\ firstn k h'
       = ExpansionSum Double.prec Double.emax
           [Double.dbl 1 0; Double.dbl 1 60] [Double.dbl 1 (-60); Double.dbl 3 120].
Proof.
  apply (proj1 (stores_stay_within_capacity Double.prec Double.emax false)
           [Double.dbl 1 0; Double.dbl 1 60]
           [Double.dbl 1 (-60); Double.dbl 3 120] (repeat zero 4)).
  cbn. lia.
Defined.

(** * The exits of the adaptive evaluators *)

Section AdaptiveRuns.

Variables prec emax : Z.
Variable use_fma : bool.
Variable nan_sign : bool.

Lemma andb_true_r_assoc (a b : bool) : a && (b && true) = a && b.
Proof. now rewrite andb_true_r. Qed.

(** The shape shared by the four evaluators: [c] is the test of the
    tails and [d] the estimate of the second stage; [unf] unfolds the
    definition of [stage2]. *)
Ltac tails_stage tails stage2 unf :=
  lazymatch goal with
  | |- context [if ?c then (TailsZero, ?d) else _] =>
      let Ec := fresh "Ec" in
      let Ed := fresh "Ed" in
      let t' := eval hnf in tails in
      assert (Ec : c = forallb (feq zero) tails)
        by (change (c = forallb (feq zero) t'); cbn [forallb];
            rewrite andb_true_r, <- ?andb_assoc; reflexivity);
      assert (Ed : d = estimate prec emax stage2)
        by (unf; repeat pull_let_reuse; reflexivity);
      forget_bodies;
      rewrite Ec, Ed; clear Ec Ed
  end.

Lemma adaptive_orient2d_run_cases pa pb pc :
  run_cases prec emax (adaptive_orient2d_run prec emax use_fma nan_sign pa pb pc)
            (orient2d_tails prec emax pa pb pc)
            (orient2d_stage2 prec emax use_fma pa pb pc)
            (fun _ => True).
Proof.
  enough (H : forall r, adaptive_orient2d_run prec emax use_fma nan_sign pa pb pc = r ->
                       run_cases prec emax r (orient2d_tails prec emax pa pb pc)
                         (orient2d_stage2 prec emax use_fma pa pb pc)
                         (fun _ => True))
    by exact (H _ eq_refl).
  intros r. cbv beta delta [adaptive_orient2d_run run_cases].
  repeat pull_let.
  tails_stage (orient2d_tails prec emax pa pb pc)
    (orient2d_stage2 prec emax use_fma pa pb pc)
    ltac:(cbv beta delta [orient2d_stage2]).
  destruct (negb _); [intros <-; left; reflexivity|].
  destruct (_ || _); [intros <-; left; reflexivity|].
  destruct (fge _ _); [intros <-; left; reflexivity|].
  destruct (fge _ _); [intros <-; left; reflexivity|].
  destruct (forallb _ _); [intros <-; right; left; now split|].
  destruct (fge _ _); intros <-; right; right; (split; [reflexivity|]).
  - now left.
  - right. now split.
Qed.

Lemma adaptive_incircle_run_cases pa pb pc pd :
  run_cases prec emax (adaptive_incircle_run prec emax use_fma pa pb pc pd)
            (incircle_tails prec emax pa pb pc pd)
            (incircle_stage2 prec emax use_fma pa pb pc pd)
            (fun v => v = exact_incircle prec emax use_fma pa pb pc pd).
Proof.
  enough (H : forall r, adaptive_incircle_run prec emax use_fma pa pb pc pd = r ->
                       run_cases prec emax r (incircle_tails prec emax pa pb pc pd)
                         (incircle_stage2 prec emax use_fma pa pb pc pd)
                         (fun v => v = exact_incircle prec emax use_fma pa pb pc pd))
    by exact (H _ eq_refl).
  intros r. cbv beta delta [adaptive_incircle_run run_cases].
  repeat pull_let.
  tails_stage (incircle_tails prec emax pa pb pc pd)
    (incircle_stage2 prec emax use_fma pa pb pc pd)
    ltac:(cbv beta delta [incircle_stage2]).
  destruct (fge _ _); [intros <-; left; reflexivity|].
  destruct (fge _ _); [intros <-; left; reflexivity|].
  destruct (forallb _ _); [intros <-; right; left; now split|].
  destruct (fge _ _); intros <-; right; right; (split; [reflexivity|]).
  - now left.
  - right. now split.
Qed.

Lemma adaptive_orient3d_run_cases pa pb pc pd :
  run_cases prec emax (adaptive_orient3d_run prec emax use_fma pa pb pc pd)
            (orient3d_tails prec emax pa pb pc pd)
            (orient3d_stage2 prec emax use_fma pa pb pc pd)
            (fun _ => True).
Proof.
  enough (H : forall r, adaptive_orient3d_run prec emax use_fma pa pb pc pd = r ->
                       run_cases prec emax r (orient3d_tails prec emax pa pb pc pd)
                         (orient3d_stage2 prec emax use_fma pa pb pc pd)
                         (fun _ => True))
    by exact (H _ eq_refl).
  intros r. cbv beta delta [adaptive_orient3d_run run_cases].
  repeat pull_let.
  tails_stage (orient3d_tails prec emax pa pb pc pd)
    (orient3d_stage2 prec emax use_fma pa pb pc pd)
    ltac:(cbv beta delta [orient3d_stage2]).
  destruct (fge _ _); [intros <-; left; reflexivity|].
  destruct (fge _ _); [intros <-; left; reflexivity|].
  destruct (forallb _ _); [intros <-; right; left; now split|].
  destruct (fge _ _); intros <-; right; right; (split; [reflexivity|]).
  - now left.
  - right. now split.
Qed.

Lemma adaptive_insphere_run_cases pa pb pc pd pe :
  run_cases prec emax (adaptive_insphere_run prec emax use_fma pa pb pc pd pe)
            (insphere_tails prec emax pa pb pc pd pe)
            (insphere_stage2 prec emax use_fma pa pb pc pd pe)
            (fun v => v = exact_insphere prec emax use_fma pa pb pc pd pe).
Proof.
  enough (H : forall r, adaptive_insphere_run prec emax use_fma pa pb pc pd pe = r ->
                       run_cases prec emax r (insphere_tails prec emax pa pb pc pd pe)
                         (insphere_stage2 prec emax use_fma pa pb pc pd pe)
                         (fun v => v = exact_insphere prec emax use_fma pa pb pc pd pe))
    by exact (H _ eq_refl).
  intros r. cbv beta delta [adaptive_insphere_run run_cases].
  repeat pull_let.
  tails_stage (insphere_tails prec emax pa pb pc pd pe)
    (insphere_stage2 prec emax use_fma pa pb pc pd pe)
    ltac:(cbv beta delta [insphere_stage2]).
  destruct (fge _ _); [intros <-; left; reflexivity|].
  destruct (fge _ _); [intros <-; left; reflexivity|].
  destruct (forallb _ _); [intros <-; right; left; now split|].
  destruct (fge _ _); intros <-; right; right; (split; [reflexivity|]).
  - now left.
  - right. now split.
Qed.

(** * Exchanging the two first points of [orient2d] *)

Lemma binary_round_opp s m e :
  binary_round prec emax (negb s) m e = SFopp (binary_round prec emax s m e).
Proof.
  unfold binary_round. destruct (shl_align _ _ _) as [mz ez].
  unfold binary_round_aux.
  destruct (shr_fexp prec emax (Zpos mz) ez loc_Exact) as [mrs' e'].
  destruct (shr_fexp prec emax _ e' loc_Exact) as [mrs'' e''].
  destruct (shr_m mrs''); [reflexivity| |reflexivity].
  destruct (_ <=? _); reflexivity.
Qed.

Lemma binary_normalize_opp m e :
  m <> 0 ->
  binary_normalize prec emax (- m) e false
  = SFopp (binary_normalize prec emax m e false).
Proof.
  intros Hm. destruct m as [|p|p]; [contradiction|..]; cbn [Z.opp binary_normalize].
  - apply (binary_round_opp false).
  - change false with (negb true) at 1. rewrite binary_round_opp.
    now destruct (binary_round prec emax true p e) as [[]|[]| |[] ? ?].
Qed.

(** [y - x] is the opposite of [x - y], up to the sign of a zero. *)
Lemma fsub_swap x y :
  fsub prec emax y x = fneg (fsub prec emax x y)
  \/ both_zero (fsub prec emax x y) (fsub prec emax y x).
Proof.
  unfold fsub, fneg, both_zero.
  destruct x as [sx|sx| |sx mx ex]; destruct y as [sy|sy| |sy my ey];
    cbn [SFsub SFopp];
    try solve [ left; reflexivity
              | destruct sx; left; reflexivity
              | destruct sy; left; reflexivity
              | destruct sx, sy;
                first [left; reflexivity
                      |right; do 2 eexists; split; reflexivity] ].
  rewrite (Z.min_comm ey ex).
  set (ez := Z.min ex ey).
  set (a := cond_Zopp sx (Zpos (fst (shl_align mx ex ez)))).
  set (b := cond_Zopp sy (Zpos (fst (shl_align my ey ez)))).
  destruct (Z.eq_dec (a - b) 0) as [E|N].
  - right. replace (b - a) with 0 by lia. rewrite E.
    do 2 eexists; split; reflexivity.
  - left. replace (b - a) with (- (a - b)) by lia.
    now apply binary_normalize_opp.
Qed.

Lemma fadd_comm x y : fadd prec emax x y = fadd prec emax y x.
Proof.
  unfold fadd.
  destruct x as [sx|sx| |sx mx ex]; destruct y as [sy|sy| |sy my ey];
    cbn [SFadd]; try reflexivity; try (destruct sx, sy; reflexivity).
  now rewrite (Z.min_comm ey ex), Z.add_comm.
Qed.

Lemma fmul_comm x y : fmul prec emax x y = fmul prec emax y x.
Proof.
  unfold fmul.
  destruct x as [sx|sx| |sx mx ex]; destruct y as [sy|sy| |sy my ey];
    cbn [SFmul]; try reflexivity; try (now rewrite xorb_comm).
  now rewrite xorb_comm, Pos.mul_comm, Z.add_comm.
Qed.

Lemma feq_refl x : is_nan x = false -> feq x x = true.
Proof.
  unfold feq, SFeqb.
  destruct x as [s|s| |s m e]; try discriminate; intros _; cbn [SFcompare].
  - reflexivity.
  - now destruct s.
  - destruct s; rewrite Z.compare_refl;
      fold (Pos.compare m m); now rewrite Pos.compare_refl.
Qed.

Lemma fabs_fneg x : fabs (fneg x) = fabs x.
Proof. now destruct x. Qed.

Lemma is_nan_fneg x : is_nan (fneg x) = is_nan x.
Proof. now destruct x. Qed.

(** The first stage of [orient2d], by its two tests. *)
Lemma adaptive_orient2d_first_stage pa pb pc :
  let det := fsub prec emax (orient2d_detleft prec emax pa pb pc)
                            (orient2d_detright prec emax pa pb pc) in
  let r := adaptive_orient2d_run prec emax use_fma nan_sign pa pb pc in
  if orient2d_fast prec emax nan_sign pa pb pc then r = (FastExit, det)
  else if orient2d_boundA prec emax pa pb pc then r = (BoundA, det)
  else fst r <> FastExit /\ fst r <> BoundA.
Proof.
  intros det r.
  enough (H : forall r', r = r' ->
            if orient2d_fast prec emax nan_sign pa pb pc
            then r' = (FastExit, det)
            else if orient2d_boundA prec emax pa pb pc
                 then r' = (BoundA, det)
                 else fst r' <> FastExit /\ fst r' <> BoundA)
    by exact (H _ eq_refl).
  subst r. intros r.
  cbv beta delta [adaptive_orient2d_run]. repeat pull_let.
  match goal with
  | |- (if negb ?c then (FastExit, ?x) else if ?d then _
        else if ?e then _ else _) = _ -> _ =>
    assert (Ef : negb c || d = orient2d_fast prec emax nan_sign pa pb pc)
      by reflexivity;
    assert (Ea : e = orient2d_boundA prec emax pa pb pc) by reflexivity;
    assert (Ed : x = det) by reflexivity
  end.
  forget_bodies. rewrite <- Ef, <- Ea, Ed. clear Ef Ea Ed.
  destruct (negb _); cbn [orb]; [intros <-; reflexivity|].
  destruct (_ || _); [intros <-; reflexivity|].
  destruct (fge _ _); [intros <-; reflexivity|].
  repeat (destruct (_ : bool)); intros <-; split; discriminate.
Qed.

Lemma orient2d_detleft_swap pa pb pc :
  orient2d_detleft prec emax pb pa pc = orient2d_detright prec emax pa pb pc.
Proof. unfold orient2d_detleft, orient2d_detright. apply fmul_comm. Qed.

Lemma orient2d_detright_swap pa pb pc :
  orient2d_detright prec emax pb pa pc = orient2d_detleft prec emax pa pb pc.
Proof. unfold orient2d_detleft, orient2d_detright. apply fmul_comm. Qed.

Lemma orient2d_fast_swap pa pb pc :
  orient2d_fast prec emax nan_sign pb pa pc = orient2d_fast prec emax nan_sign pa pb pc.
Proof.
  unfold orient2d_fast. cbv zeta.
  rewrite (orient2d_detleft_swap pa pb pc), (orient2d_detright_swap pa pb pc).
  set (L := orient2d_detleft prec emax pa pb pc).
  set (R := orient2d_detright prec emax pa pb pc).
  now destruct (signbit nan_sign L), (signbit nan_sign R),
               (feq zero L), (feq zero R).
Qed.

Lemma fabs_fsub_swap x y :
  fabs (fsub prec emax y x) = fabs (fsub prec emax x y).
Proof.
  destruct (fsub_swap x y) as [->|(s & s' & -> & ->)]; [apply fabs_fneg|reflexivity].
Qed.

Lemma orient2d_boundA_swap pa pb pc :
  orient2d_boundA prec emax pb pa pc = orient2d_boundA prec emax pa pb pc.
Proof.
  unfold orient2d_boundA. cbv zeta.
  rewrite (orient2d_detleft_swap pa pb pc), (orient2d_detright_swap pa pb pc).
  now rewrite fabs_fsub_swap, fadd_comm.
Qed.

Lemma feq_fsub_swap x y :
  is_nan (fsub prec emax x y) = false ->
  feq (fsub prec emax y x) (fneg (fsub prec emax x y)) = true.
Proof.
  intros Hn. destruct (fsub_swap x y) as [->|(s & s' & -> & ->)].
  - apply feq_refl. now rewrite is_nan_fneg.
  - reflexivity.
Qed.

(** ** The evaluators, uniformly *)

Lemma run_cases_weaken r ts s2 (P Q : T -> Prop) :
  (forall v, P v -> Q v) ->
  run_cases prec emax r ts s2 P -> run_cases prec emax r ts s2 Q.
Proof.
  unfold run_cases. intros HPQ [H|[H|[H [H'|[H' H'']]]]]; auto.
  right; right. split; [exact H|]. right. split; [exact H'|]. now apply HPQ.
Qed.

Lemma adaptive_run_cases q :
  run_cases prec emax (adaptive_run prec emax use_fma nan_sign q)
    (tails prec emax q) (stage2 prec emax use_fma q)
    (fun v => delegates q = true -> v = exact_eval prec emax use_fma q).
Proof.
  destruct q as [pa pb pc|pa pb pc pd|pa pb pc pd|pa pb pc pd pe];
    cbv beta iota delta [adaptive_run tails stage2 delegates exact_eval].
  - eapply run_cases_weaken; [|apply adaptive_orient2d_run_cases]. discriminate.
  - eapply run_cases_weaken; [|apply adaptive_incircle_run_cases]. now intros v ->.
  - eapply run_cases_weaken; [|apply adaptive_orient3d_run_cases]. discriminate.
  - eapply run_cases_weaken; [|apply adaptive_insphere_run_cases]. now intros v ->.
Qed.

(** Only [orient2d] has the early exit on the signs of the two products. *)
Ltac no_fast_exit run :=
  match goal with
  | |- fst ?r <> FastExit =>
      let H := fresh "H" in
      enough (H : forall r', r = r' -> fst r' <> FastExit) by exact (H _ eq_refl)
  end;
  intro; cbv beta delta [run]; repeat pull_let; forget_bodies;
  repeat match goal with
         | |- (if ?c then _ else _) = _ -> _ => destruct c
         end;
  intros <-; discriminate.

Lemma adaptive_incircle_no_fast_exit pa pb pc pd :
  fst (adaptive_incircle_run prec emax use_fma pa pb pc pd) <> FastExit.
Proof. no_fast_exit adaptive_incircle_run. Qed.

Lemma adaptive_orient3d_no_fast_exit pa pb pc pd :
  fst (adaptive_orient3d_run prec emax use_fma pa pb pc pd) <> FastExit.
Proof. no_fast_exit adaptive_orient3d_run. Qed.

Lemma adaptive_insphere_no_fast_exit pa pb pc pd pe :
  fst (adaptive_insphere_run prec emax use_fma pa pb pc pd pe) <> FastExit.
Proof. no_fast_exit adaptive_insphere_run. Qed.

Lemma before_tails_Final_false (r : exit_point * T) :
  fst r = Final -> before_tails (fst r) = false.
Proof. now intros ->. Qed.

(** * The claims on the adaptive evaluators *)

(** C5 (amended): for [incircle] and [insphere], on every input on which
    the three error-bound tests fail and some tail is not zero (the run
    reaches the last [return]), the adaptive evaluator returns exactly
    the value of the exact evaluator on the same input.  ([orient2d] and
    [orient3d] do not call the exact evaluator: they sum an expansion of
    their own.) *)
Theorem adaptive_final_stage_is_exact_eval q :
  delegates q = true ->
  fst (adaptive_run prec emax use_fma nan_sign q) = Final ->
  adaptive_eval prec emax use_fma nan_sign q = exact_eval prec emax use_fma q.
Proof.
  intros Hd Hf. unfold adaptive_eval.
  destruct (adaptive_run_cases q) as [H|[[_ H]|[_ [H|[_ H]]]]].
  - now rewrite (before_tails_Final_false _ Hf) in H.
  - rewrite H in Hf. discriminate.
  - rewrite H in Hf. discriminate.
  - now apply H.
Qed.


(** C6 (amended): only [orient2d] has a first stage that looks at the
    signs of the two products.  When they differ, or a product is zero,
    it returns the floating-point difference [detleft - detright] at once
    (a rounded difference, not always the exact determinant); it takes
    this exit in no other case, and the three other evaluators never
    take it. *)
Theorem adaptive_fast_exit q :
  match q with
  | Orient2d pa pb pc =>
      if orient2d_fast prec emax nan_sign pa pb pc
      then adaptive_run prec emax use_fma nan_sign q
           = (FastExit, fsub prec emax (orient2d_detleft prec emax pa pb pc)
                                       (orient2d_detright prec emax pa pb pc))
      else fst (adaptive_run prec emax use_fma nan_sign q) <> FastExit
  | _ => fst (adaptive_run prec emax use_fma nan_sign q) <> FastExit
  end.
Proof.
  destruct q as [pa pb pc|pa pb pc pd|pa pb pc pd|pa pb pc pd pe];
    cbv beta iota delta [adaptive_run].
  - pose proof (adaptive_orient2d_first_stage pa pb pc) as H.
    cbv zeta in H.
    destruct (orient2d_fast prec emax nan_sign pa pb pc); [exact H|].
    destruct (orient2d_boundA prec emax pa pb pc).
    + rewrite H. discriminate.
    + apply H.
  - apply adaptive_incircle_no_fast_exit.
  - apply adaptive_orient3d_no_fast_exit.
  - apply adaptive_insphere_no_fast_exit.
Qed.

(** X23: when [adaptive::orient2d(a, b, c)] returns from its first
    stage (the sign test or the first error bound) a value that is not a
    NaN, [adaptive::orient2d(b, a, c)] returns from the same place a
    value equal to its opposite: the first stage is antisymmetric in its
    two first points. *)
Theorem adaptive_orient2d_swap_first_stage pa pb pc :
  fst (adaptive_orient2d_run prec emax use_fma nan_sign pa pb pc) = FastExit
  \/ fst (adaptive_orient2d_run prec emax use_fma nan_sign pa pb pc) = BoundA ->
  is_nan (adaptive_orient2d prec emax use_fma nan_sign pa pb pc) = false ->
  fst (adaptive_orient2d_run prec emax use_fma nan_sign pb pa pc)
  = fst (adaptive_orient2d_run prec emax use_fma nan_sign pa pb pc)
  /\ feq (adaptive_orient2d prec emax use_fma nan_sign pb pa pc)
         (fneg (adaptive_orient2d prec emax use_fma nan_sign pa pb pc)) = true.
Proof.
  unfold adaptive_orient2d.
  pose proof (adaptive_orient2d_first_stage pa pb pc) as H.
  pose proof (adaptive_orient2d_first_stage pb pa pc) as H'.
  cbv zeta in H, H'.
  rewrite (orient2d_fast_swap pa pb pc), (orient2d_boundA_swap pa pb pc),
    (orient2d_detleft_swap pa pb pc), (orient2d_detright_swap pa pb pc) in H'.
  destruct (orient2d_fast prec emax nan_sign pa pb pc).
  - rewrite H, H'. cbn [fst snd]. intros _ Hn. split; [reflexivity|].
    now apply feq_fsub_swap.
  - destruct (orient2d_boundA prec emax pa pb pc).
    + rewrite H, H'. cbn [fst snd]. intros _ Hn. split; [reflexivity|].
      now apply feq_fsub_swap.
    + intros [E|E]; now destruct H.
Qed.

(** * Further properties of the adaptive evaluators *)

(** ** The sign of the value returned by the first stage of [orient2d] *)

(** X18: when the two products [detleft] and [detright] of
    [adaptive::orient2d] are finite and the evaluator returns a finite
    value from its first stage, this value has the sign of the exact
    difference of the two rounded products; it is a zero only when they
    are equal. *)
Theorem adaptive_orient2d_first_stage_sign pa pb pc :
  1 <= prec -> prec < emax ->
  finite_valid prec emax (orient2d_detleft prec emax pa pb pc) = true ->
  finite_valid prec emax (orient2d_detright prec emax pa pb pc) = true ->
  fst (adaptive_orient2d_run prec emax use_fma nan_sign pa pb pc) = FastExit
  \/ fst (adaptive_orient2d_run prec emax use_fma nan_sign pa pb pc) = BoundA ->
  is_finite (adaptive_orient2d prec emax use_fma nan_sign pa pb pc) = true ->
  fsign (adaptive_orient2d prec emax use_fma nan_sign pa pb pc)
  = Some (Z.sgn (val prec emax (orient2d_detleft prec emax pa pb pc)
                 - val prec emax (orient2d_detright prec emax pa pb pc))).
Proof.
  intros Hprec Hemax Hl Hr. unfold adaptive_orient2d.
  pose proof (adaptive_orient2d_first_stage pa pb pc) as H. cbv zeta in H.
  destruct (orient2d_fast prec emax nan_sign pa pb pc).
  - rewrite H. cbn [fst snd]. intros _ Hf. now apply fsub_sign.
  - destruct (orient2d_boundA prec emax pa pb pc).
    + rewrite H. cbn [fst snd]. intros _ Hf. now apply fsub_sign.
    + intros [E|E]; now destruct H.
Qed.

(** ** The last stage of [orient2d] *)

Lemma adaptive_orient2d_final_value pa pb pc :
  fst (adaptive_orient2d_run prec emax use_fma nan_sign pa pb pc) = Final ->
  snd (adaptive_orient2d_run prec emax use_fma nan_sign pa pb pc)
  = mostSignificant (orient2d_final prec emax use_fma pa pb pc).
Proof.
  enough (H : forall r,
            adaptive_orient2d_run prec emax use_fma nan_sign pa pb pc = r ->
            fst r = Final ->
            snd r = mostSignificant (orient2d_final prec emax use_fma pa pb pc))
    by exact (H _ eq_refl).
  intro. cbv beta delta [adaptive_orient2d_run]. repeat pull_let.
  lazymatch goal with
  | |- context [(Final, mostSignificant ?d)] =>
      assert (ED : d = orient2d_final prec emax use_fma pa pb pc)
        by (cbv beta delta [orient2d_final]; repeat pull_let_reuse; reflexivity)
  end.
  forget_bodies. rewrite ED. clear ED.
  repeat match goal with
         | |- (if ?c then _ else _) = _ -> _ => destruct c
         end;
    intros <-; cbn [fst snd]; intro; first [discriminate | reflexivity].
Qed.

(** X22: with [fma], when [adaptive::orient2d] reaches its last stage on
    finite coordinates with finite tails, none of the eight products it
    expands can underflow and each of the seven expansions it builds is a
    valid non-overlapping expansion, the value it returns has the sign of
    the exact determinant of the input. *)
Theorem adaptive_orient2d_final_sign pa pb pc :
  1 <= prec -> prec < emax -> use_fma = true ->
  fst (adaptive_orient2d_run prec emax use_fma nan_sign pa pb pc) = Final ->
  forallb (finite_valid prec emax)
          [X2 pa; Y2 pa; X2 pb; Y2 pb; X2 pc; Y2 pc] = true ->
  forallb is_finite (orient2d_tails prec emax pa pb pc) = true ->
  forallb (fun p => product_fits prec emax (fst p) (snd p))
          (orient2d_final_products prec emax pa pb pc) = true ->
  forallb (valid_expansion prec emax)
          (orient2d_final_parts prec emax use_fma pa pb pc) = true ->
  fsign (adaptive_orient2d prec emax use_fma nan_sign pa pb pc)
  = Some (Z.sgn (det_orient2d prec emax pa pb pc)).
Proof.
  intros Hprec Hemax Hfma Hf Hc Ht Hp Hv. unfold adaptive_orient2d.
  rewrite (adaptive_orient2d_final_value pa pb pc Hf).
  rewrite Hfma in Hv |- *.
  now destruct (orient2d_final_sum prec emax Hprec Hemax pa pb pc Hc Ht Hp Hv).
Qed.
End AdaptiveRuns.

(** ** Instances in double precision *)

(** Underflow is outside the design of the predicates: on these finite
    points every product underflows in the first stage of
    [adaptive::orient2d], which returns a zero, while [exact::orient2d]
    returns a positive number. *)
Lemma adaptive_orient2d_sign_underflow :
  let pa := (Double.dbl 5 (-538), Double.dbl 1 (-536)) in
  let pb := (Double.dbl 3 (-538), Double.dbl 1 (-536)) in
  let pc := (Double.dbl 0 0, Double.dbl 1 (-537)) in
  forallb (finite_valid Double.prec Double.emax)
    [X2 pa; Y2 pa; X2 pb; Y2 pb; X2 pc; Y2 pc] = true
  /\ fsign (adaptive_orient2d Double.prec Double.emax false false pa pb pc)
     = Some 0
  /\ fsign (exact_orient2d Double.prec Double.emax false pa pb pc) = Some 1
  /\ fsign (adaptive_orient2d Double.prec Double.emax true false pa pb pc)
     = Some 0
  /\ fsign (exact_orient2d Double.prec Double.emax true pa pb pc) = Some 1.
Proof. vm_compute. repeat split. Qed.

(** C1: on these four points with integer coordinates (no underflow, no
    overflow) the determinant is [-1] and [exact::orient3d] returns a
    negative number, while [adaptive::orient3d] reaches its last stage
    and returns a positive number, with and without [fma].  The only
    tail that is not zero is [bdytail = 1]; the last stage calls
    [TwoTwoDiffZeroCheck(bdxtail, cdy, bdytail, cdx)], whose branch
    [ax == 0] returns [bdytail * cdx] in place of [- bdytail * cdx]. *)
Theorem adaptive_orient3d_sign_differs_from_exact :
  let pa := (Double.dbl 0 0, Double.dbl 1 0, Double.dbl 1 0) in
  let pb := (Double.dbl (2 ^ 52 + 1) 0, Double.dbl (2 ^ 53 + 2) 0, Double.dbl 0 0) in
  let pc := (Double.dbl (2 ^ 52) 0, Double.dbl (2 ^ 53) 0, Double.dbl 0 0) in
  let pd := (Double.dbl 0 0, Double.dbl 1 0, Double.dbl 0 0) in
  forallb (finite_valid Double.prec Double.emax)
    [X3 pa; Y3 pa; Z3 pa; X3 pb; Y3 pb; Z3 pb;
     X3 pc; Y3 pc; Z3 pc; X3 pd; Y3 pd; Z3 pd] = true
  /\ det_orient3d Double.prec Double.emax pa pb pc pd
     = - unit_inv Double.prec Double.emax ^ 3
  /\ forall use_fma,
       fsign (exact_orient3d Double.prec Double.emax use_fma pa pb pc pd)
       = Some (-1)
       /\ fst (adaptive_orient3d_run Double.prec Double.emax use_fma pa pb pc pd)
          = Final
       /\ fsign (adaptive_orient3d Double.prec Double.emax use_fma pa pb pc pd)
          = Some 1.
Proof.
  intros pa pb pc pd. split; [vm_compute; reflexivity|].
  split; [vm_compute; reflexivity|].
  intros [|]; vm_compute; repeat split.
Qed.

(** C5, as stated, fails: on these points [adaptive::orient2d] reaches
    its last [return], and the value it returns is not the value of
    [exact::orient2d]. *)
Lemma adaptive_orient2d_final_counterexample :
  let pa := (Double.dbl 0x18000000000004 (-51), Double.dbl 0x18000000000003 (-51)) in
  let pb := (Double.dbl 0x1200000000000f (-49), Double.dbl 0x18000000000004 (-50)) in
  let pc := (Double.dbl 0x16800000000018 (-47), Double.dbl 0x18000000000004 (-48)) in
  fst (adaptive_orient2d_run Double.prec Double.emax false false pa pb pc) = Final
  /\ val Double.prec Double.emax
       (adaptive_orient2d Double.prec Double.emax false false pa pb pc)
     <> val Double.prec Double.emax
          (exact_orient2d Double.prec Double.emax false pa pb pc).
Proof. vm_compute. split; [reflexivity|discriminate]. Qed.

Lemma adaptive_final_stage_witness :
  let q := Incircle (Double.dbl 1 60, Double.dbl 1 0)
                    (Double.dbl 1 60, Double.dbl 1 60)
                    (Double.dbl 1 0, Double.dbl 1 60)
                    (Double.dbl 1 0, Double.dbl 1 0) in
  adaptive_eval Double.prec Double.emax false false q
  = exact_eval Double.prec Double.emax false q.
Proof.
  intros q.
  apply (adaptive_final_stage_is_exact_eval Double.prec Double.emax false false q);
    vm_compute; reflexivity.
Defined.

(** C6, as stated, fails: the signs of the two products differ,
    [adaptive::orient2d] returns [1] from its first stage, and the exact
    determinant is [1 + 2^-60]. *)
Lemma adaptive_orient2d_fast_exit_counterexample :
  let pa := (Double.dbl 1 0, Double.dbl 1 (-60)) in
  let pb := (Double.dbl (-1) 0, Double.dbl 1 0) in
  let pc := (Double.dbl 0 0, Double.dbl 0 0) in
  signbit false (orient2d_detleft Double.prec Double.emax pa pb pc)
  <> signbit false (orient2d_detright Double.prec Double.emax pa pb pc)
  /\ adaptive_orient2d_run Double.prec Double.emax false false pa pb pc
     = (FastExit, Double.dbl 1 0)
  /\ ~ represents_det Double.prec Double.emax (Orient2d pa pb pc)
         (val Double.prec Double.emax (Double.dbl 1 0)).
Proof. vm_compute. repeat split; discriminate. Qed.



(** Past its first stage [adaptive::orient2d] returns estimates whose
    magnitudes depend on the order of the points: on these finite points
    [adaptive::orient2d(a, b, c)] is not [- adaptive::orient2d(b, a, c)]
    (their signs are opposite). *)
Lemma adaptive_orient2d_swap_value_differs :
  let pa := (Double.dbl 0x10000000000001 (-52), Double.dbl 0x10000000000008 (-52)) in
  let pb := (Double.dbl 0x18000000000003 (-51), Double.dbl 0x10000000000003 (-51)) in
  let pc := (Double.dbl 0x1c000000000003 (-50), Double.dbl 0x10000000000000 (-50)) in
  forallb (finite_valid Double.prec Double.emax)
    [X2 pa; Y2 pa; X2 pb; Y2 pb; X2 pc; Y2 pc] = true
  /\ feq (adaptive_orient2d Double.prec Double.emax false false pa pb pc)
         (fneg (adaptive_orient2d Double.prec Double.emax false false pb pa pc))
     = false.
Proof. vm_compute. split; reflexivity. Qed.

Lemma adaptive_orient2d_swap_witness :
  let pa := (Double.dbl 1 0, Double.dbl 0 0) in
  let pb := (Double.dbl 0 0, Double.dbl 1 0) in
  let pc := (Double.dbl 0 0, Double.dbl 0 0) in
  fst (adaptive_orient2d_run Double.prec Double.emax false false pb pa pc)
  = fst (adaptive_orient2d_run Double.prec Double.emax false false pa pb pc)
  /\ feq (adaptive_orient2d Double.prec Double.emax false false pb pa pc)
         (fneg (adaptive_orient2d Double.prec Double.emax false false pa pb pc))
     = true.
Proof.
  intros pa pb pc.
  apply (adaptive_orient2d_swap_first_stage Double.prec Double.emax false false);
    [left|]; vm_compute; reflexivity.
Defined.

(** C9: on the four points of the theorem above, the determinant is
    [-1] and the determinant of the points with [a] and [b] swapped is
    [1], but [adaptive::orient3d(a, b, c, d)] and
    [adaptive::orient3d(b, a, c, d)] are both positive, with and without
    [fma]: swapping the two points does not flip the sign of the result.
    The first call goes through the branch [ax == 0] of
    [TwoTwoDiffZeroCheck] with a non-zero product, the second does not. *)
Theorem adaptive_orient3d_swap_keeps_the_sign :
  let pa := (Double.dbl 0 0, Double.dbl 1 0, Double.dbl 1 0) in
  let pb := (Double.dbl (2 ^ 52 + 1) 0, Double.dbl (2 ^ 53 + 2) 0, Double.dbl 0 0) in
  let pc := (Double.dbl (2 ^ 52) 0, Double.dbl (2 ^ 53) 0, Double.dbl 0 0) in
  let pd := (Double.dbl 0 0, Double.dbl 1 0, Double.dbl 0 0) in
  Z.sgn (det_orient3d Double.prec Double.emax pa pb pc pd) = -1
  /\ Z.sgn (det_orient3d Double.prec Double.emax pb pa pc pd) = 1
  /\ forall use_fma,
       fsign (adaptive_orient3d Double.prec Double.emax use_fma pa pb pc pd)
       = Some 1
       /\ fsign (adaptive_orient3d Double.prec Double.emax use_fma pb pa pc pd)
          = Some 1
       /\ fsign (exact_orient3d Double.prec Double.emax use_fma pa pb pc pd)
          = Some (-1)
       /\ fsign (exact_orient3d Double.prec Double.emax use_fma pb pa pc pd)
          = Some 1.
Proof.
  intros pa pb pc pd. split; [vm_compute; reflexivity|].
  split; [vm_compute; reflexivity|].
  intros [|]; vm_compute; repeat split.
Qed.

(** C4: with [ax = 0], [by = 1], [ay = 1], [bx = 1] the value of
    [ax * by - ay * bx] is [-1]; [TwoTwoDiff] returns the expansion [-1]
    and [TwoTwoDiffZeroCheck] returns the expansion [1], the product
    [ay * bx] without its sign (with and without [fma]). *)
Theorem TwoTwoDiffZeroCheck_drops_the_sign :
  let ax := Double.dbl 0 0 in
  let one := Double.dbl 1 0 in
  (forall use_fma,
     TwoTwoDiff Double.prec Double.emax use_fma ax one one one
     = [Double.dbl (-1) 0])
  /\ (forall use_fma,
        TwoTwoDiffZeroCheck Double.prec Double.emax use_fma ax one one one
        = [Double.dbl 1 0])
  /\ val Double.prec Double.emax ax * val Double.prec Double.emax one
     - val Double.prec Double.emax one * val Double.prec Double.emax one
     = val Double.prec Double.emax (Double.dbl (-1) 0)
       * unit_inv Double.prec Double.emax.
Proof.
  repeat split; try (intros [|]); vm_compute; reflexivity.
Qed.

(** ** Instances of the further properties in double precision *)

Lemma adaptive_orient2d_first_stage_sign_witness :
  let pa := (Double.dbl 1 0, Double.dbl 1 (-60)) in
  let pb := (Double.dbl (-1) 0, Double.dbl 1 0) in
  let pc := (Double.dbl 0 0, Double.dbl 0 0) in
  fsign (adaptive_orient2d Double.prec Double.emax false false pa pb pc)
  = Some (Z.sgn (val Double.prec Double.emax
                   (orient2d_detleft Double.prec Double.emax pa pb pc)
                 - val Double.prec Double.emax
                     (orient2d_detright Double.prec Double.emax pa pb pc))).
Proof.
  intros pa pb pc.
  apply (adaptive_orient2d_first_stage_sign Double.prec Double.emax false false);
    first [ unfold Double.prec, Double.emax; lia
          | vm_compute; reflexivity
          | left; vm_compute; reflexivity ].
Defined.

Lemma adaptive_orient2d_final_sign_witness :
  let pa := (Double.dbl 0x18000000000004 (-51), Double.dbl 0x18000000000003 (-51)) in
  let pb := (Double.dbl 0x1200000000000f (-49), Double.dbl 0x18000000000004 (-50)) in
  let pc := (Double.dbl 0x16800000000018 (-47), Double.dbl 0x18000000000004 (-48)) in
  fsign (adaptive_orient2d Double.prec Double.emax true false pa pb pc)
  = Some (Z.sgn (det_orient2d Double.prec Double.emax pa pb pc)).
Proof.
  intros pa pb pc.
  apply (adaptive_orient2d_final_sign Double.prec Double.emax true false);
    first [ unfold Double.prec, Double.emax; lia | vm_compute; reflexivity ].
Defined.
